(** * Staged move picker of Sudsakorn (src/movepick.cpp)

    A shallow embedding of [partial_insertion_sort], the three [MovePicker]
    constructors, [MovePicker::score], [MovePicker::select] and
    [MovePicker::next_move], together with the properties the specification
    states about them.

    Conventions
    - a [Move] is its 16-bit code, [Move::none()] is code 0;
    - C++ [int] arithmetic is written over [Z] with the two's-complement
      wrap-around spelled out ([wrap32]);
    - a pointer range [begin, end) of [ExtMove] is a list, a pointer into the
      move buffer or into the [refutations] array is a region plus an index;
    - a data member the constructors leave uninitialised is [Indeterminate];
      comparing or dereferencing such a pointer has no defined behaviour and
      makes the embedded function return [None]. *)

From stdpp Require Import base option list sorting.
From Stdlib Require Import ZArith Lia.

Local Open Scope Z_scope.

(** ** Scalars *)

Definition Move := Z.
Definition Move_none : Move := 0.

(** Contextual conversion of a move to [bool]: true unless it is the
    none-sentinel. *)
Definition is_move (m : Move) : bool := negb (m =? Move_none).

Definition Value := Z.
Definition Depth := Z.

Definition INT_MIN : Z := - 2 ^ 31.

(** Reduction of a mathematical integer to a 32-bit [int]. *)
Definition wrap32 (z : Z) : Z := (z + 2 ^ 31) mod 2 ^ 32 - 2 ^ 31.

Definition int16_range (z : Z) : Prop := - 32768 <= z <= 32767.

(** ** ExtMove *)

Record ExtMove := mkExtMove { move : Move; value : Z }.

(** The moves of a range, without their values. *)
Definition ext_moves (l : list ExtMove) : list Move := map move l.

(** [operator<] on [ExtMove], declared with the type in [movegen.h], compares
    the values only; [==] and [!=] go through the conversion to [Move] and
    compare the moves only. *)
Definition ext_lt (f s : ExtMove) : bool := value f <? value s.

(** ** partial_insertion_sort

    The range [begin, end) is the list [a]; [begin] is index 0. *)

(** Inner loop
    [for (q = sortedEnd; q != begin && *(q - 1) < tmp; --q) *q = *(q - 1);]
    followed by [*q = tmp]. *)
Fixpoint shift_insert (a : list ExtMove) (q : nat) (tmp : ExtMove) : list ExtMove :=
  match q with
  | O => <[O := tmp]> a
  | S q' =>
      match a !! q' with
      | Some e =>
          if ext_lt e tmp
          then shift_insert (<[S q' := e]> a) q' tmp
          else <[S q' := tmp]> a
      | None => <[S q' := tmp]> a
      end
  end.

(** Outer loop, [n] iterations left ([n = end - p]). *)
Fixpoint pis_loop (n : nat) (a : list ExtMove) (sortedEnd p : nat) (limit : Z)
  : list ExtMove :=
  match n with
  | O => a
  | S n' =>
      match a !! p with
      | Some tmp =>
          if limit <=? value tmp
          then
            let sortedEnd' := S sortedEnd in
            let a1 := match a !! sortedEnd' with
                      | Some e => <[p := e]> a
                      | None => a
                      end in
            pis_loop n' (shift_insert a1 sortedEnd' tmp) sortedEnd' (S p) limit
          else pis_loop n' a sortedEnd (S p) limit
      | None => a
      end
  end.

Definition partial_insertion_sort (a : list ExtMove) (limit : Z) : list ExtMove :=
  pis_loop (length a - 1) a 0 1 limit.

(** Descending order on the values, ties allowed, and without ties. *)
Definition ge_value (x y : ExtMove) : Prop := value y <= value x.
Definition gt_value (x y : ExtMove) : Prop := value y < value x.

Definition meets (limit : Z) (e : ExtMove) : Prop := limit <= value e.

#[global] Instance meets_dec limit e : Decision (meets limit e).
Proof. unfold meets. apply _. Defined.

(** The claim of the specification about the sort, with the order relation
    [R] of the sorted prefix left open. *)
Definition sorted_prefix_spec (R : ExtMove -> ExtMove -> Prop)
    (l out : list ExtMove) (limit : Z) : Prop :=
  out ≡ₚ l ∧
  ∃ k : nat, StronglySorted R (take k out) ∧ take k out ≡ₚ filter (meets limit) l.

(** ** Interfaces declared in headers outside src/

    [types.h], [position.h], [movegen.h] and [history.h] are consumed only
    through the names [movepick.cpp] uses; they are parameters here. *)

Definition Square := Z.
Definition Piece := Z.
Definition Color := Z.

Class TypesH := {
  (** [PieceValue[MG][pc]] *)
  PieceValueMG : Piece -> Value;
  relative_rank : Color -> Square -> Z;
  (** [type_of(pc)], the ordinal of the piece type *)
  type_of : Piece -> Z;
  to_sq : Move -> Square;
  from_to : Move -> Z;
  DEPTH_QS_CHECKS : Depth
}.

Inductive GenType := CAPTURES | QUIETS | EVASIONS | QUIET_CHECKS.

Record Position := mkPosition {
  (** [pos.checkers()] converted to [bool] *)
  checkers : bool;
  side_to_move : Color;
  piece_on : Square -> Piece;
  moved_piece : Move -> Piece;
  pseudo_legal : Move -> bool;
  capture : Move -> bool;
  capture_stage : Move -> bool;
  see_ge : Move -> Z -> bool;
  (** the moves [generate<T>(pos, p)] stores from [p] on, in order *)
  generate : GenType -> list Move
}.

Definition ButterflyHistory := Color -> Z -> Z.
Definition PieceToHistory := Piece -> Square -> Z.
Definition CapturePieceToHistory := Piece -> Square -> Z -> Z.
Definition PawnHistory := Z -> Piece -> Square -> Z.

(** ** Stages *)

Inductive Stages :=
  | MAIN_TT | CAPTURE_INIT | GOOD_CAPTURE | REFUTATION | QUIET_INIT
  | GOOD_QUIET | BAD_CAPTURE | BAD_QUIET
  | EVASION_TT | EVASION_INIT | EVASION
  | PROBCUT_TT | PROBCUT_INIT | PROBCUT
  | QSEARCH_TT | QCAPTURE_INIT | QCAPTURE | QCHECK_INIT | QCHECK.

#[global] Instance Stages_eq_dec : EqDecision Stages.
Proof. solve_decision. Defined.

(** The enumerator values. *)
Definition stage_index (s : Stages) : Z :=
  match s with
  | MAIN_TT => 0 | CAPTURE_INIT => 1 | GOOD_CAPTURE => 2 | REFUTATION => 3
  | QUIET_INIT => 4 | GOOD_QUIET => 5 | BAD_CAPTURE => 6 | BAD_QUIET => 7
  | EVASION_TT => 8 | EVASION_INIT => 9 | EVASION => 10
  | PROBCUT_TT => 11 | PROBCUT_INIT => 12 | PROBCUT => 13
  | QSEARCH_TT => 14 | QCAPTURE_INIT => 15 | QCAPTURE => 16
  | QCHECK_INIT => 17 | QCHECK => 18
  end.

(** [++stage].  No case of [next_move] increments [QCHECK]. *)
Definition stage_succ (s : Stages) : Stages :=
  match s with
  | MAIN_TT => CAPTURE_INIT | CAPTURE_INIT => GOOD_CAPTURE
  | GOOD_CAPTURE => REFUTATION | REFUTATION => QUIET_INIT
  | QUIET_INIT => GOOD_QUIET | GOOD_QUIET => BAD_CAPTURE
  | BAD_CAPTURE => BAD_QUIET | BAD_QUIET => EVASION_TT
  | EVASION_TT => EVASION_INIT | EVASION_INIT => EVASION
  | EVASION => PROBCUT_TT
  | PROBCUT_TT => PROBCUT_INIT | PROBCUT_INIT => PROBCUT
  | PROBCUT => QSEARCH_TT
  | QSEARCH_TT => QCAPTURE_INIT | QCAPTURE_INIT => QCAPTURE
  | QCAPTURE => QCHECK_INIT | QCHECK_INIT => QCHECK
  | QCHECK => QCHECK
  end.

(** [base + b] for a [bool] [b] (0 or 1). *)
Definition stage_add (base : Stages) (b : bool) : Stages :=
  if b then stage_succ base else base.

Definition is_tt_stage (s : Stages) : bool :=
  match s with
  | MAIN_TT | EVASION_TT | QSEARCH_TT | PROBCUT_TT => true
  | _ => false
  end.

(** ** Pointers *)

Inductive Region := Moves | Refutations.

#[global] Instance Region_eq_dec : EqDecision Region.
Proof. solve_decision. Defined.

Inductive Ptr := At (r : Region) (i : nat) | Indeterminate.

(** ** The picker *)

Record MovePicker := mkMovePicker {
  pos : Position;
  mainHistory : option ButterflyHistory;
  captureHistory : CapturePieceToHistory;
  (** read as [contHistory] by [score], set from the argument [ch] *)
  contHistory : option (nat -> PieceToHistory);
  pawnHistory : option PawnHistory;
  ttMove : Move;
  refutations : list ExtMove;
  cur : Ptr;
  endMoves : Ptr;
  endBadCaptures : Ptr;
  beginBadQuiets : Ptr;
  endBadQuiets : Ptr;
  stage : Stages;
  threshold : option Z;
  depth : option Depth;
  (** the written part of [moves[MAX_MOVES]] *)
  moves : list ExtMove
}.

Definition set_cur (p : Ptr) (mp : MovePicker) : MovePicker :=
  mkMovePicker (pos mp) (mainHistory mp) (captureHistory mp) (contHistory mp)
    (pawnHistory mp) (ttMove mp) (refutations mp) p (endMoves mp)
    (endBadCaptures mp) (beginBadQuiets mp) (endBadQuiets mp) (stage mp)
    (threshold mp) (depth mp) (moves mp).

Definition set_endMoves (p : Ptr) (mp : MovePicker) : MovePicker :=
  mkMovePicker (pos mp) (mainHistory mp) (captureHistory mp) (contHistory mp)
    (pawnHistory mp) (ttMove mp) (refutations mp) (cur mp) p
    (endBadCaptures mp) (beginBadQuiets mp) (endBadQuiets mp) (stage mp)
    (threshold mp) (depth mp) (moves mp).

Definition set_endBadCaptures (p : Ptr) (mp : MovePicker) : MovePicker :=
  mkMovePicker (pos mp) (mainHistory mp) (captureHistory mp) (contHistory mp)
    (pawnHistory mp) (ttMove mp) (refutations mp) (cur mp) (endMoves mp)
    p (beginBadQuiets mp) (endBadQuiets mp) (stage mp)
    (threshold mp) (depth mp) (moves mp).

Definition set_beginBadQuiets (p : Ptr) (mp : MovePicker) : MovePicker :=
  mkMovePicker (pos mp) (mainHistory mp) (captureHistory mp) (contHistory mp)
    (pawnHistory mp) (ttMove mp) (refutations mp) (cur mp) (endMoves mp)
    (endBadCaptures mp) p (endBadQuiets mp) (stage mp)
    (threshold mp) (depth mp) (moves mp).

Definition set_endBadQuiets (p : Ptr) (mp : MovePicker) : MovePicker :=
  mkMovePicker (pos mp) (mainHistory mp) (captureHistory mp) (contHistory mp)
    (pawnHistory mp) (ttMove mp) (refutations mp) (cur mp) (endMoves mp)
    (endBadCaptures mp) (beginBadQuiets mp) p (stage mp)
    (threshold mp) (depth mp) (moves mp).

Definition set_stage (s : Stages) (mp : MovePicker) : MovePicker :=
  mkMovePicker (pos mp) (mainHistory mp) (captureHistory mp) (contHistory mp)
    (pawnHistory mp) (ttMove mp) (refutations mp) (cur mp) (endMoves mp)
    (endBadCaptures mp) (beginBadQuiets mp) (endBadQuiets mp) s
    (threshold mp) (depth mp) (moves mp).

Definition set_moves (b : list ExtMove) (mp : MovePicker) : MovePicker :=
  mkMovePicker (pos mp) (mainHistory mp) (captureHistory mp) (contHistory mp)
    (pawnHistory mp) (ttMove mp) (refutations mp) (cur mp) (endMoves mp)
    (endBadCaptures mp) (beginBadQuiets mp) (endBadQuiets mp) (stage mp)
    (threshold mp) (depth mp) b.

Definition set_refutations (b : list ExtMove) (mp : MovePicker) : MovePicker :=
  mkMovePicker (pos mp) (mainHistory mp) (captureHistory mp) (contHistory mp)
    (pawnHistory mp) (ttMove mp) b (cur mp) (endMoves mp)
    (endBadCaptures mp) (beginBadQuiets mp) (endBadQuiets mp) (stage mp)
    (threshold mp) (depth mp) (moves mp).

(** [++stage] *)
Definition incr_stage (mp : MovePicker) : MovePicker :=
  set_stage (stage_succ (stage mp)) mp.

Definition region_of (mp : MovePicker) (r : Region) : list ExtMove :=
  match r with Moves => moves mp | Refutations => refutations mp end.

(** [*p] *)
Definition deref (mp : MovePicker) (p : Ptr) : option ExtMove :=
  match p with
  | At r i => region_of mp r !! i
  | Indeterminate => None
  end.

(** [*p = e] *)
Definition store (p : Ptr) (e : ExtMove) (mp : MovePicker) : option MovePicker :=
  match p with
  | At r i =>
      if decide (i < length (region_of mp r))%nat
      then Some match r with
                | Moves => set_moves (<[i := e]> (moves mp)) mp
                | Refutations => set_refutations (<[i := e]> (refutations mp)) mp
                end
      else None
  | Indeterminate => None
  end.

(** [p + 1] and [p - 1] *)
Definition ptr_succ (p : Ptr) : Ptr :=
  match p with At r i => At r (S i) | Indeterminate => Indeterminate end.

Definition ptr_pred (p : Ptr) : option Ptr :=
  match p with At r (S i) => Some (At r i) | _ => None end.

(** [last - first], defined for two pointers into one array. *)
Definition ptr_diff (last first : Ptr) : option nat :=
  match last, first with
  | At r j, At r' i => if decide (r = r') then Some (j - i)%nat else None
  | _, _ => None
  end.

(** ** Buffer ranges *)

Definition slice (b e : nat) (buf : list ExtMove) : list ExtMove :=
  take (e - b) (drop b buf).

Definition splice (b e : nat) (new buf : list ExtMove) : list ExtMove :=
  take b buf ++ new ++ drop e buf.

(** [generate<T>(pos, p)] assigns the move of each slot from [p] on; the
    [value] it leaves in a slot is not read before [score] overwrites it. *)
Definition generate_at (ms : list Move) (b : nat) (buf : list ExtMove)
  : list ExtMove :=
  splice b (b + length ms) (map (λ m, mkExtMove m 0) ms) buf.

(** ** 32-bit arithmetic *)

Definition add32 (a b : Z) : Z := wrap32 (a + b).
Definition sub32 (a b : Z) : Z := wrap32 (a - b).
Definition mul32 (a b : Z) : Z := wrap32 (a * b).
Definition neg32 (a : Z) : Z := wrap32 (- a).

(** [std::max_element(first, last)]: the first greatest element. *)
Fixpoint max_element_loop (a : list ExtMove) (largest first n : nat) : option nat :=
  match n with
  | O => Some largest
  | S n' =>
      l ← a !! largest;
      f ← a !! first;
      max_element_loop a (if ext_lt l f then first else largest) (S first) n'
  end.

Definition max_element (a : list ExtMove) (first last : nat) : option nat :=
  if decide (first = last) then Some last
  else max_element_loop a first (S first) (last - first - 1).

Inductive PickType := Next | Best.

Inductive Context :=
  | MainSearch (ttm : Move) (d : Depth) (mh : ButterflyHistory)
      (cph : CapturePieceToHistory) (ch : nat -> PieceToHistory)
      (ph : PawnHistory) (cm : Move) (killer0 killer1 : Move)
  | QSearch (ttm : Move) (d : Depth) (mh : ButterflyHistory)
      (cph : CapturePieceToHistory) (ch : nat -> PieceToHistory)
      (ph : PawnHistory)
  | ProbCut (ttm : Move) (th : Z) (cph : CapturePieceToHistory).

Section picker.
Context `{TypesH}.

(** *** Constructors *)

Definition MovePicker_main (p : Position) (ttm : Move) (d : Depth)
    (mh : ButterflyHistory) (cph : CapturePieceToHistory)
    (ch : nat -> PieceToHistory) (ph : PawnHistory) (cm : Move)
    (killer0 killer1 : Move) : MovePicker :=
  {| pos := p; mainHistory := Some mh; captureHistory := cph;
     contHistory := Some ch; pawnHistory := Some ph; ttMove := ttm;
     refutations := [mkExtMove killer0 0; mkExtMove killer1 0; mkExtMove cm 0];
     cur := Indeterminate; endMoves := Indeterminate;
     endBadCaptures := Indeterminate; beginBadQuiets := Indeterminate;
     endBadQuiets := Indeterminate;
     stage := stage_add (if checkers p then EVASION_TT else MAIN_TT)
                (negb (is_move ttm && pseudo_legal p ttm));
     threshold := None; depth := Some d; moves := [] |}.

Definition MovePicker_qsearch (p : Position) (ttm : Move) (d : Depth)
    (mh : ButterflyHistory) (cph : CapturePieceToHistory)
    (ch : nat -> PieceToHistory) (ph : PawnHistory) : MovePicker :=
  {| pos := p; mainHistory := Some mh; captureHistory := cph;
     contHistory := Some ch; pawnHistory := Some ph; ttMove := ttm;
     refutations := [];
     cur := Indeterminate; endMoves := Indeterminate;
     endBadCaptures := Indeterminate; beginBadQuiets := Indeterminate;
     endBadQuiets := Indeterminate;
     stage := stage_add (if checkers p then EVASION_TT else QSEARCH_TT)
                (negb (is_move ttm && pseudo_legal p ttm));
     threshold := None; depth := Some d; moves := [] |}.

Definition MovePicker_probcut (p : Position) (ttm : Move) (th : Z)
    (cph : CapturePieceToHistory) : MovePicker :=
  {| pos := p; mainHistory := None; captureHistory := cph;
     contHistory := None; pawnHistory := None; ttMove := ttm;
     refutations := [];
     cur := Indeterminate; endMoves := Indeterminate;
     endBadCaptures := Indeterminate; beginBadQuiets := Indeterminate;
     endBadQuiets := Indeterminate;
     stage := stage_add PROBCUT_TT
                (negb (is_move ttm && capture_stage p ttm
                       && pseudo_legal p ttm && see_ge p ttm th));
     threshold := Some th; depth := None; moves := [] |}.

Definition construct (p : Position) (c : Context) : MovePicker :=
  match c with
  | MainSearch ttm d mh cph ch ph cm k0 k1 =>
      MovePicker_main p ttm d mh cph ch ph cm k0 k1
  | QSearch ttm d mh cph ch ph => MovePicker_qsearch p ttm d mh cph ch ph
  | ProbCut ttm th cph => MovePicker_probcut p ttm th cph
  end.

Definition hash_move (c : Context) : Move :=
  match c with
  | MainSearch ttm _ _ _ _ _ _ _ _ | QSearch ttm _ _ _ _ _ | ProbCut ttm _ _ => ttm
  end.

(** The test each constructor applies to the hash move. *)
Definition tt_valid (p : Position) (c : Context) : bool :=
  match c with
  | MainSearch ttm _ _ _ _ _ _ _ _ | QSearch ttm _ _ _ _ _ =>
      is_move ttm && pseudo_legal p ttm
  | ProbCut ttm th _ =>
      is_move ttm && capture_stage p ttm && pseudo_legal p ttm && see_ge p ttm th
  end.

(** *** score *)

Definition capture_value (p : Position) (m : Move) : Z :=
  sub32 (PieceValueMG (piece_on p (to_sq m)))
        (mul32 200 (relative_rank (side_to_move p) (to_sq m))).

Definition quiet_value (mh : ButterflyHistory) (ch : nat -> PieceToHistory)
    (p : Position) (m : Move) : Z :=
  add32 (add32 (add32 (mh (side_to_move p) (from_to m))
                      (ch 0%nat (moved_piece p m) (to_sq m)))
               (ch 1%nat (moved_piece p m) (to_sq m)))
        (ch 3%nat (moved_piece p m) (to_sq m)).

Definition evasion_capture_value (p : Position) (m : Move) : Z :=
  sub32 (PieceValueMG (piece_on p (to_sq m))) (type_of (moved_piece p m)).

Definition evasion_quiet_value (mh : ButterflyHistory) (p : Position) (m : Move) : Z :=
  sub32 (mh (side_to_move p) (from_to m)) (2 ^ 28).

(** The value [score<Type>] assigns to one move. *)
Definition score_value (T : GenType) (mp : MovePicker) (m : Move) : option Z :=
  match T with
  | CAPTURES => Some (capture_value (pos mp) m)
  | QUIETS =>
      mh ← mainHistory mp;
      ch ← contHistory mp;
      Some (quiet_value mh ch (pos mp) m)
  | EVASIONS =>
      if capture (pos mp) m
      then Some (evasion_capture_value (pos mp) m)
      else mh ← mainHistory mp; Some (evasion_quiet_value mh (pos mp) m)
  | QUIET_CHECKS => None
  end.

Definition score_one (T : GenType) (mp : MovePicker) (e : ExtMove) : option ExtMove :=
  v ← score_value T mp (move e); Some (mkExtMove (move e) v).

(** [score<Type>()]: every move of [cur, endMoves) gets its value; the range
    of [for (auto& m : *this)] is [begin()] to [end()] of the picker, which
    [movepick.h] declares as [cur] and [endMoves]. *)
Definition score (T : GenType) (mp : MovePicker) : option MovePicker :=
  match cur mp, endMoves mp with
  | At Moves b, At Moves e =>
      scored ← mapM (score_one T mp) (slice b e (moves mp));
      Some (set_moves (splice b e scored (moves mp)) mp)
  | _, _ => None
  end.

(** [partial_insertion_sort(cur, endMoves, limit)] *)
Definition sort_moves (limit : Z) (mp : MovePicker) : option MovePicker :=
  match cur mp, endMoves mp with
  | At Moves b, At Moves e =>
      Some (set_moves
              (splice b e (partial_insertion_sort (slice b e (moves mp)) limit)
                 (moves mp)) mp)
  | _, _ => None
  end.

(** [generate<T>(pos, cur)]: the buffer after the call and the pointer
    returned. *)
Definition generate_moves (T : GenType) (mp : MovePicker) : option (Ptr * MovePicker) :=
  match cur mp with
  | At Moves b =>
      let ms := generate (pos mp) T in
      Some (At Moves (b + length ms), set_moves (generate_at ms b (moves mp)) mp)
  | _ => None
  end.

(** *** select *)

(** [std::swap] of [*cur] with [*std::max_element(cur, endMoves)] *)
Definition swap_best (mp : MovePicker) : option MovePicker :=
  match cur mp, endMoves mp with
  | At r b, At r' e =>
      if decide (r = r') then
        i ← max_element (region_of mp r) b e;
        x ← deref mp (At r b);
        y ← deref mp (At r i);
        mp1 ← store (At r b) y mp;
        store (At r i) x mp1
      else None
  | _, _ => None
  end.

Definition Pred := MovePicker -> option (bool * MovePicker).

(** The loop of [select], [n] iterations before [cur] reaches [endMoves];
    no predicate moves [cur] or [endMoves]. *)
Fixpoint select_loop (T : PickType) (filter : Pred) (n : nat) (mp : MovePicker)
  : option (Move * MovePicker) :=
  match n with
  | O => Some (Move_none, mp)
  | S n' =>
      mp1 ← match T with Best => swap_best mp | Next => Some mp end;
      c ← deref mp1 (cur mp1);
      if negb (move c =? ttMove mp1) then
        '(ok, mp2) ← filter mp1;
        if ok : bool then
          r ← deref mp2 (cur mp2);
          Some (move r, set_cur (ptr_succ (cur mp2)) mp2)
        else select_loop T filter n' (set_cur (ptr_succ (cur mp2)) mp2)
      else select_loop T filter n' (set_cur (ptr_succ (cur mp1)) mp1)
  end.

Definition select (T : PickType) (filter : Pred) (mp : MovePicker)
  : option (Move * MovePicker) :=
  n ← ptr_diff (endMoves mp) (cur mp);
  select_loop T filter n mp.

(** *** The predicates passed to [select] *)

Definition accept_all : Pred := λ mp, Some (true, mp).

(** GOOD_CAPTURE *)
Definition good_capture : Pred := λ mp,
  c ← deref mp (cur mp);
  if see_ge (pos mp) (move c) (Z.quot (neg32 (value c)) 18)
  then Some (true, mp)
  else
    mp1 ← store (endBadCaptures mp) c mp;
    Some (false, set_endBadCaptures (ptr_succ (endBadCaptures mp1)) mp1).

(** REFUTATION *)
Definition playable_refutation : Pred := λ mp,
  c ← deref mp (cur mp);
  Some (is_move (move c) && negb (capture_stage (pos mp) (move c))
          && pseudo_legal (pos mp) (move c), mp).

(** GOOD_QUIET and BAD_QUIET *)
Definition not_refutation : Pred := λ mp,
  c ← deref mp (cur mp);
  r0 ← refutations mp !! 0%nat;
  r1 ← refutations mp !! 1%nat;
  r2 ← refutations mp !! 2%nat;
  Some (negb (move c =? move r0) && negb (move c =? move r1)
          && negb (move c =? move r2), mp).

(** PROBCUT *)
Definition meets_threshold : Pred := λ mp,
  c ← deref mp (cur mp);
  th ← threshold mp;
  Some (see_ge (pos mp) (move c) th, mp).

(** *** next_move *)

Definition quiet_threshold (d : Depth) : Z := mul32 (-3330) d.

(** [return *(cur - 1)] *)
Definition return_prev (mp : MovePicker) : option (Move * MovePicker) :=
  p ← ptr_pred (cur mp);
  e ← deref mp p;
  Some (move e, mp).

Definition case_BAD_QUIET (skipQuiets : bool) (mp : MovePicker)
  : option (Move * MovePicker) :=
  if negb skipQuiets then select Next not_refutation mp
  else Some (Move_none, mp).

Definition case_BAD_CAPTURE (skipQuiets : bool) (mp : MovePicker)
  : option (Move * MovePicker) :=
  '(m, mp1) ← select Next accept_all mp;
  if is_move m then return_prev mp1
  else
    case_BAD_QUIET skipQuiets
      (incr_stage
         (set_endMoves (endBadQuiets mp1) (set_cur (beginBadQuiets mp1) mp1))).

(** The tail of GOOD_QUIET: point the cursors at the bad captures. *)
Definition to_bad_captures (skipQuiets : bool) (mp : MovePicker)
  : option (Move * MovePicker) :=
  case_BAD_CAPTURE skipQuiets
    (incr_stage (set_endMoves (endBadCaptures mp) (set_cur (At Moves 0) mp))).

Definition case_GOOD_QUIET (skipQuiets : bool) (mp : MovePicker)
  : option (Move * MovePicker) :=
  if negb skipQuiets then
    '(m, mp1) ← select Next not_refutation mp;
    if is_move m then
      p ← ptr_pred (cur mp1);
      e ← deref mp1 p;
      d ← depth mp1;
      if (-8000 <? value e) || (value e <=? quiet_threshold d)
      then return_prev mp1
      else to_bad_captures skipQuiets (set_beginBadQuiets p mp1)
    else to_bad_captures skipQuiets mp1
  else to_bad_captures skipQuiets mp.

Definition case_QUIET_INIT (skipQuiets : bool) (mp : MovePicker)
  : option (Move * MovePicker) :=
  mp4 ← (if negb skipQuiets then
           let mp0 := set_cur (endBadCaptures mp) mp in
           '(e, mp1) ← generate_moves QUIETS mp0;
           let mp2 := set_endMoves e (set_beginBadQuiets e (set_endBadQuiets e mp1)) in
           mp3 ← score QUIETS mp2;
           d ← depth mp3;
           sort_moves (quiet_threshold d) mp3
         else Some mp);
  case_GOOD_QUIET skipQuiets (incr_stage mp4).

Definition case_REFUTATION (skipQuiets : bool) (mp : MovePicker)
  : option (Move * MovePicker) :=
  '(m, mp1) ← select Next playable_refutation mp;
  if is_move m then return_prev mp1
  else case_QUIET_INIT skipQuiets (incr_stage mp1).

Definition case_GOOD_CAPTURE (skipQuiets : bool) (mp : MovePicker)
  : option (Move * MovePicker) :=
  '(m, mp1) ← select Next good_capture mp;
  if is_move m then return_prev mp1
  else
    r0 ← refutations mp1 !! 0%nat;
    r1 ← refutations mp1 !! 1%nat;
    r2 ← refutations mp1 !! 2%nat;
    let e := if (move r0 =? move r2) || (move r1 =? move r2)
             then 2%nat else 3%nat in
    case_REFUTATION skipQuiets
      (incr_stage
         (set_endMoves (At Refutations e) (set_cur (At Refutations 0) mp1))).

(** CAPTURE_INIT, PROBCUT_INIT and QCAPTURE_INIT, up to [goto top]. *)
Definition capture_init (mp : MovePicker) : option MovePicker :=
  let mp0 := set_endBadCaptures (At Moves 0) (set_cur (At Moves 0) mp) in
  '(e, mp1) ← generate_moves CAPTURES mp0;
  mp2 ← score CAPTURES (set_endMoves e mp1);
  mp3 ← sort_moves INT_MIN mp2;
  Some (incr_stage mp3).

Definition case_EVASION (mp : MovePicker) : option (Move * MovePicker) :=
  select Best accept_all mp.

Definition case_EVASION_INIT (mp : MovePicker) : option (Move * MovePicker) :=
  '(e, mp1) ← generate_moves EVASIONS (set_cur (At Moves 0) mp);
  mp2 ← score EVASIONS (set_endMoves e mp1);
  case_EVASION (incr_stage mp2).

Definition case_PROBCUT (mp : MovePicker) : option (Move * MovePicker) :=
  select Next meets_threshold mp.

Definition case_QCHECK (mp : MovePicker) : option (Move * MovePicker) :=
  select Next accept_all mp.

Definition case_QCHECK_INIT (mp : MovePicker) : option (Move * MovePicker) :=
  '(e, mp1) ← generate_moves QUIET_CHECKS (set_cur (At Moves 0) mp);
  case_QCHECK (incr_stage (set_endMoves e mp1)).

Definition case_QCAPTURE (mp : MovePicker) : option (Move * MovePicker) :=
  '(m, mp1) ← select Next accept_all mp;
  if is_move m then return_prev mp1
  else
    d ← depth mp1;
    if negb (d =? DEPTH_QS_CHECKS) then Some (Move_none, mp1)
    else case_QCHECK_INIT (incr_stage mp1).

(** The [switch]; [gotos] bounds the number of [goto top] still allowed.
    One is enough, see [next_move_one_goto]. *)
Fixpoint next_move_from (gotos : nat) (skipQuiets : bool) (mp : MovePicker)
  : option (Move * MovePicker) :=
  match stage mp with
  | MAIN_TT | EVASION_TT | QSEARCH_TT | PROBCUT_TT =>
      Some (ttMove mp, incr_stage mp)
  | CAPTURE_INIT | PROBCUT_INIT | QCAPTURE_INIT =>
      match gotos with
      | O => None
      | S g => mp1 ← capture_init mp; next_move_from g skipQuiets mp1
      end
  | GOOD_CAPTURE => case_GOOD_CAPTURE skipQuiets mp
  | REFUTATION => case_REFUTATION skipQuiets mp
  | QUIET_INIT => case_QUIET_INIT skipQuiets mp
  | GOOD_QUIET => case_GOOD_QUIET skipQuiets mp
  | BAD_CAPTURE => case_BAD_CAPTURE skipQuiets mp
  | BAD_QUIET => case_BAD_QUIET skipQuiets mp
  | EVASION_INIT => case_EVASION_INIT mp
  | EVASION => case_EVASION mp
  | PROBCUT => case_PROBCUT mp
  | QCAPTURE => case_QCAPTURE mp
  | QCHECK_INIT => case_QCHECK_INIT mp
  | QCHECK => case_QCHECK mp
  end.

Definition next_move (skipQuiets : bool) (mp : MovePicker)
  : option (Move * MovePicker) :=
  next_move_from 1 skipQuiets mp.

(** *** Runs *)

(** The stage a call yields its move from: the stage on entry for the
    hash-move stages (which increment before returning), the stage on
    return otherwise. *)
Definition yield_stage (before after : MovePicker) : Stages :=
  if is_tt_stage (stage before) then stage before else stage after.

(** The moves yielded by successive calls with the given [skipQuiets]
    arguments, each with the stage it comes from, as far as the calls have
    defined behaviour. *)
Fixpoint run (mp : MovePicker) (skips : list bool) : list (Stages * Move) :=
  match skips with
  | [] => []
  | b :: skips' =>
      match next_move b mp with
      | Some (m, mp') => (yield_stage mp mp', m) :: run mp' skips'
      | None => []
      end
  end.

Definition yielded (mp : MovePicker) (skips : list bool) : list Move :=
  (run mp skips).*2.
End picker.

(** ** Notions used by the properties *)

(** A predicate that leaves the hash move, the stage and the cursor alone and
    changes nothing when it accepts. *)
Definition mild (filter : MovePicker → option (bool * MovePicker)) : Prop :=
  ∀ mp ok mp2, filter mp = Some (ok, mp2) →
    ttMove mp2 = ttMove mp ∧ stage mp2 = stage mp ∧ cur mp2 = cur mp ∧
    (ok = true → mp2 = mp).

(** What a call made outside the hash-move stages owes the hash move [tt]:
    it is kept, no hash-move stage is entered, and the move returned is the
    none-sentinel or differs from [tt]. *)
Definition never_hash (tt : Move) (m : Move) (mp' : MovePicker) : Prop :=
  ttMove mp' = tt ∧ is_tt_stage (stage mp') = false ∧ (m = Move_none ∨ m ≠ tt).

Section notions.
Context `{TypesH}.

(** The captures of a position as CAPTURE_INIT leaves them in the buffer:
    generated, scored, sorted. *)
Definition scored_captures (p : Position) : list ExtMove :=
  map (λ m, mkExtMove m (capture_value p m)) (generate p CAPTURES).

Definition sorted_captures (p : Position) : list ExtMove :=
  partial_insertion_sort (scored_captures p) INT_MIN.
End notions.

(** The picker with other capture-history and pawn-history tables. *)
Definition with_tables (cph : CapturePieceToHistory) (ph : option PawnHistory)
    (mp : MovePicker) : MovePicker :=
  mkMovePicker (pos mp) (mainHistory mp) cph (contHistory mp) ph (ttMove mp)
    (refutations mp) (cur mp) (endMoves mp) (endBadCaptures mp)
    (beginBadQuiets mp) (endBadQuiets mp) (stage mp) (threshold mp) (depth mp)
    (moves mp).

(** The construction context with other capture-history and pawn-history
    tables (probing takes no pawn history). *)
Definition replace_tables (cph' : CapturePieceToHistory) (ph' : PawnHistory)
    (c : Context) : Context :=
  match c with
  | MainSearch ttm d mh _ ch _ cm k0 k1 => MainSearch ttm d mh cph' ch ph' cm k0 k1
  | QSearch ttm d mh _ ch _ => QSearch ttm d mh cph' ch ph'
  | ProbCut ttm th _ => ProbCut ttm th cph'
  end.

(** A predicate that behaves the same whatever those two tables hold. *)
Definition tables_blind (cph : CapturePieceToHistory) (ph : option PawnHistory)
    (filter : MovePicker → option (bool * MovePicker)) : Prop :=
  ∀ mp, prod_map id (with_tables cph ph) <$> filter mp = filter (with_tables cph ph mp).

(** ** A small concrete world

    Moves 101..105 are captures, 201..204 quiet moves; squares, pieces and
    tables are arbitrary but fixed.  Used to exercise the statements below. *)

Definition sample_types : TypesH :=
  {| PieceValueMG := λ pc, pc mod 7 * 100;
     relative_rank := λ _ s, s / 8;
     type_of := λ pc, pc mod 7;
     to_sq := λ m, m mod 64;
     from_to := λ m, m;
     DEPTH_QS_CHECKS := 0 |}.

Definition sample_generate (T : GenType) : list Move :=
  match T with
  | CAPTURES => [101; 102; 103; 104; 105]
  | QUIETS => [201; 202; 203; 204]
  | EVASIONS => [101; 201; 102]
  | QUIET_CHECKS => [203]
  end.

Definition sample_position (in_check : bool) : Position :=
  {| checkers := in_check;
     side_to_move := 0;
     piece_on := λ s, s mod 7;
     moved_piece := λ _, 1;
     pseudo_legal := λ _, true;
     capture := λ m, m <? 200;
     capture_stage := λ m, m <? 200;
     see_ge := λ m th, th <=? m mod 5 * 20 - 30;
     generate := sample_generate |}.

Definition sample_mainHistory : ButterflyHistory := λ _ ft, ft mod 400 - 202.
Definition sample_contHistory : nat → PieceToHistory :=
  λ i _ _, Z.of_nat (i mod 4) * 10.

(** The same table with another slot 2. *)
Definition sample_contHistory' : nat → PieceToHistory :=
  λ i, if decide (i = 2%nat) then λ _ _, 999 else sample_contHistory i.
Definition sample_captureHistory : CapturePieceToHistory := λ _ _ _, 0.
Definition sample_pawnHistory : PawnHistory := λ _ _ _, 0.

(** A main-search context with hash move [ttm], counter-move [cm] and
    killers [k0], [k1], at depth 1. *)
Definition sample_main (ttm cm k0 k1 : Move) : Context :=
  MainSearch ttm 1 sample_mainHistory sample_captureHistory sample_contHistory
    sample_pawnHistory cm k0 k1.

(** ** The main-search path, in terms of lists *)

Section main_notions.
Context `{TypesH}.

(** The test of the good-capture stage. *)
Definition good_see (p : Position) (x : ExtMove) : bool :=
  see_ge p (move x) (Z.quot (neg32 (value x)) 18).

(** Of a range of captures, those the good-capture stage yields and those it
    puts aside; the hash move [tt] is in neither. *)
Definition goods (p : Position) (tt : Move) (l : list ExtMove) : list ExtMove :=
  filter (λ x, move x ≠ tt ∧ good_see p x = true) l.

Definition bads (p : Position) (tt : Move) (l : list ExtMove) : list ExtMove :=
  filter (λ x, move x ≠ tt ∧ good_see p x = false) l.

(** The test of the refutation stage, with that of [select]. *)
Definition playable (p : Position) (tt : Move) (x : ExtMove) : Prop :=
  move x ≠ tt ∧
  is_move (move x) && negb (capture_stage p (move x)) && pseudo_legal p (move x) = true.

#[global] Instance playable_dec p tt x : Decision (playable p tt x).
Proof. unfold playable. apply _. Defined.

(** The end of the range the refutation stage walks: the counter-move is
    left out when it equals a killer. *)
Definition ref_count (refs : list ExtMove) : nat :=
  match refs with
  | [r0; r1; r2] =>
      if (move r0 =? move r2) || (move r1 =? move r2) then 2%nat else 3%nat
  | _ => 0%nat
  end.

Definition ref_range (refs : list ExtMove) : list ExtMove :=
  take (ref_count refs) refs.

(** What a picker on the main-search path has still to yield from the
    good-capture, bad-capture and refutation stages. *)
Definition pending_good (mp : MovePicker) : list ExtMove :=
  match stage mp with
  | MAIN_TT | CAPTURE_INIT => goods (pos mp) (ttMove mp) (sorted_captures (pos mp))
  | GOOD_CAPTURE =>
      match cur mp with
      | At Moves c => goods (pos mp) (ttMove mp) (drop c (sorted_captures (pos mp)))
      | _ => []
      end
  | _ => []
  end.

Definition pending_bad (mp : MovePicker) : list ExtMove :=
  match stage mp with
  | MAIN_TT | CAPTURE_INIT | GOOD_CAPTURE | REFUTATION | QUIET_INIT | GOOD_QUIET =>
      bads (pos mp) (ttMove mp) (sorted_captures (pos mp))
  | BAD_CAPTURE =>
      match cur mp with
      | At Moves c => drop c (bads (pos mp) (ttMove mp) (sorted_captures (pos mp)))
      | _ => []
      end
  | _ => []
  end.

Definition pending_ref (mp : MovePicker) : list ExtMove :=
  match stage mp with
  | MAIN_TT | CAPTURE_INIT | GOOD_CAPTURE =>
      filter (playable (pos mp) (ttMove mp)) (ref_range (refutations mp))
  | REFUTATION =>
      match cur mp with
      | At Refutations i =>
          filter (playable (pos mp) (ttMove mp)) (drop i (ref_range (refutations mp)))
      | _ => []
      end
  | _ => []
  end.

(** The buffer while the good-capture stage scans the sorted captures [l]:
    [c] slots are scanned, the bad captures among them are the first [e]
    slots, the slots from [c] on are as sorted. *)
Definition capt_inv (p : Position) (tt : Move) (l : list ExtMove)
    (c e : nat) (buf : list ExtMove) : Prop :=
  (c ≤ length l)%nat ∧
  e = length (bads p tt (take c l)) ∧
  take e buf = bads p tt (take c l) ∧
  drop c buf = drop c l.

(** The bad captures are in place at the head of the buffer, up to
    [endBadCaptures]. *)
Definition bad_range (mp : MovePicker) (e : nat) : Prop :=
  e = length (bads (pos mp) (ttMove mp) (sorted_captures (pos mp))) ∧
  take e (moves mp) = bads (pos mp) (ttMove mp) (sorted_captures (pos mp)).

(** The invariant of a picker on the main-search path, between two calls.
    What it says of the captures supposes that the generator emits no
    none-sentinel. *)
Definition main_inv (p : Position) (tt : Move) (refs : list ExtMove)
    (mp : MovePicker) : Prop :=
  pos mp = p ∧ ttMove mp = tt ∧ refutations mp = refs ∧ length refs = 3%nat ∧
  match stage mp with
  | MAIN_TT => moves mp = [] ∧ tt ≠ Move_none
  | CAPTURE_INIT => moves mp = []
  | GOOD_CAPTURE =>
      ∃ c e, cur mp = At Moves c ∧
             endMoves mp = At Moves (length (sorted_captures p)) ∧
             endBadCaptures mp = At Moves e ∧
             (Move_none ∉ generate p CAPTURES →
                capt_inv p tt (sorted_captures p) c e (moves mp))
  | REFUTATION =>
      ∃ i e, cur mp = At Refutations i ∧
             endMoves mp = At Refutations (ref_count refs) ∧
             (i ≤ ref_count refs)%nat ∧
             endBadCaptures mp = At Moves e ∧
             (Move_none ∉ generate p CAPTURES → bad_range mp e)
  | GOOD_QUIET =>
      ∃ e, endBadCaptures mp = At Moves e ∧
           (Move_none ∉ generate p CAPTURES → bad_range mp e)
  | BAD_CAPTURE =>
      ∃ c e, cur mp = At Moves c ∧ endMoves mp = At Moves e ∧ (c ≤ e)%nat ∧
             (Move_none ∉ generate p CAPTURES → bad_range mp e)
  | BAD_QUIET => True
  | _ => False
  end.

(** How one call moves the three pending lists [pg], [pb], [pr]: the move
    [m] it yields is the head of the list of the stage it comes from, and
    the lists of the stages it has left behind are empty. *)
Definition main_step (p : Position) (pg pb pr : list ExtMove) (m : Move)
    (mp' : MovePicker) : Prop :=
  match stage mp' with
  | GOOD_CAPTURE =>
      m ≠ Move_none ∧ pr = pending_ref mp' ∧
      (Move_none ∉ generate p CAPTURES →
         pb = pending_bad mp' ∧
         ∃ x, move x = m ∧ pg = x :: pending_good mp')
  | REFUTATION =>
      m ≠ Move_none ∧
      (∃ x, move x = m ∧ pr = x :: pending_ref mp') ∧
      (Move_none ∉ generate p CAPTURES → pg = [] ∧ pb = pending_bad mp')
  | GOOD_QUIET =>
      m ≠ Move_none ∧ pr = [] ∧
      (Move_none ∉ generate p CAPTURES → pg = [] ∧ pb = pending_bad mp')
  | BAD_CAPTURE =>
      m ≠ Move_none ∧ pr = [] ∧
      (Move_none ∉ generate p CAPTURES →
         pg = [] ∧ ∃ x, move x = m ∧ pb = x :: pending_bad mp')
  | BAD_QUIET =>
      pr = [] ∧ (Move_none ∉ generate p CAPTURES → pg = [] ∧ pb = [])
  | _ => False
  end.

(** What a call owes on return: the invariant, and the step. *)
Definition main_post (p : Position) (tt : Move) (refs : list ExtMove)
    (pg pb pr : list ExtMove) (m : Move) (mp' : MovePicker) : Prop :=
  main_inv p tt refs mp' ∧ main_step p pg pb pr m mp'.

(** The moves a run yields from stage [s]. *)
Definition stage_moves (s : Stages) (tr : list (Stages * Move)) : list Move :=
  (filter (λ x, x.1 = s) tr).*2.
End main_notions.

(** What stays put along the main-search path, and the stage. *)
Definition base (p : Position) (tt : Move) (refs : list ExtMove) (s : Stages)
    (mp : MovePicker) : Prop :=
  pos mp = p ∧ ttMove mp = tt ∧ refutations mp = refs ∧ length refs = 3%nat ∧
  stage mp = s.

(** How often the move [x] is in the list [l]. *)
Definition occurrences (x : Move) (l : list Move) : nat :=
  length (filter (λ m, m = x) l).

(** The counter-move [cm] is yielded at most once in the whole run of a
    picker, whatever the stage it comes from. *)
Definition counter_move_once `{TypesH} (p : Position) (c : Context)
    (cm : Move) (skips : list bool) : Prop :=
  (occurrences cm (yielded (construct p c) skips) ≤ 1)%nat.

(** [m] is none of the three refutations of [mp], which the test of the
    quiet stages compares it with. *)
Definition not_a_refutation (mp : MovePicker) (m : Move) : Prop :=
  ∃ r0 r1 r2,
    refutations mp !! 0%nat = Some r0 ∧ refutations mp !! 1%nat = Some r1 ∧
    refutations mp !! 2%nat = Some r2 ∧
    m ≠ move r0 ∧ m ≠ move r1 ∧ m ≠ move r2.

(** What the generator that feeds the path of the position owes the move
    [cm]: in check, the evasion generator emits it at most once; otherwise
    the capture generator emits no none-sentinel, emits [cm] at most once,
    and only if [cm] is capture-class. *)
Definition emitted_once `{TypesH} (p : Position) (cm : Move) : Prop :=
  if checkers p
  then (occurrences cm (generate p EVASIONS) ≤ 1)%nat
  else ((Move_none ∉ generate p CAPTURES) ∧
        (occurrences cm (generate p CAPTURES) ≤ 1)%nat ∧
        (cm ∈ generate p CAPTURES → capture_stage p cm = true)).

(** ** Skipping the quiet moves *)

Section skip_notions.
Context `{TypesH}.





End skip_notions.

(** The stages of the evasion path. *)
Definition is_evasion_stage (s : Stages) : bool :=
  match s with
  | EVASION_TT | EVASION_INIT | EVASION => true
  | _ => false
  end.

(** ** The order of the stages *)

(** The path a stage lies on: main search, evasions, probing, quiescence. *)
Inductive Path := MainPath | EvasionPath | ProbCutPath | QSearchPath.

Definition stage_path (s : Stages) : Path :=
  match s with
  | MAIN_TT | CAPTURE_INIT | GOOD_CAPTURE | REFUTATION | QUIET_INIT
  | GOOD_QUIET | BAD_CAPTURE | BAD_QUIET => MainPath
  | EVASION_TT | EVASION_INIT | EVASION => EvasionPath
  | PROBCUT_TT | PROBCUT_INIT | PROBCUT => ProbCutPath
  | QSEARCH_TT | QCAPTURE_INIT | QCAPTURE | QCHECK_INIT | QCHECK => QSearchPath
  end.

(** Stage [t] is not before stage [s] in the enumeration. *)
Definition stage_le (s t : Stages) : Prop := stage_index s <= stage_index t.

(** From stage [s] on: the same path, and not before [s]. *)
Definition onward (s t : Stages) : Prop :=
  stage_path t = stage_path s ∧ stage_le s t.

Definition is_main_search (c : Context) : bool :=
  match c with MainSearch _ _ _ _ _ _ _ _ _ => true | _ => false end.

(** ** Whole runs *)

(** The first [n] answers of a picker that has the moves [l] to yield and
    then only the none-sentinel. *)
Definition pads (n : nat) (l : list Move) : list Move :=
  take n (l ++ replicate n Move_none).

(** What [select] lets through: a slot that is not the hash move [tt] and
    passes the test [P] of the stage. *)
Definition accepts (tt : Move) (P : ExtMove → bool) (c : ExtMove) : Prop :=
  move c ≠ tt ∧ P c = true.

#[global] Instance accepts_dec tt P c : Decision (accepts tt P c).
Proof. unfold accepts. apply _. Defined.

(** The hash move, when the constructor lets it through. *)
Definition hash_first `{TypesH} (p : Position) (c : Context) : list Move :=
  if tt_valid p c then [hash_move c] else [].

(** The hash-move stage of the path a picker is constructed on. *)
Definition first_stage (p : Position) (c : Context) : Stages :=
  match c with
  | MainSearch _ _ _ _ _ _ _ _ _ => if checkers p then EVASION_TT else MAIN_TT
  | QSearch _ _ _ _ _ _ => if checkers p then EVASION_TT else QSEARCH_TT
  | ProbCut _ _ _ => PROBCUT_TT
  end.

(** The test of the probing stage and the test that lets everything
    through, as functions of the slot. *)
Definition see_test (p : Position) (th : Z) (c : ExtMove) : bool :=
  see_ge p (move c) th.

Definition any_test (c : ExtMove) : bool := true.

(** The evasions of a position as EVASION_INIT leaves them in the buffer:
    generated and scored, not sorted. *)
Definition scored_evasions `{TypesH} (p : Position) (mh : ButterflyHistory)
  : list ExtMove :=
  map (λ m, mkExtMove m (if capture p m then evasion_capture_value p m
                         else evasion_quiet_value mh p m))
      (generate p EVASIONS).

(** ** The main-search path, call by call *)

(** The quiet moves of a position as QUIET_INIT leaves them in the buffer:
    generated, scored, sorted down to [quiet_threshold d]. *)
Definition scored_quiets `{TypesH} (p : Position) (mh : ButterflyHistory)
    (ch : nat → PieceToHistory) : list ExtMove :=
  map (λ m, mkExtMove m (quiet_value mh ch p m)) (generate p QUIETS).

Definition sorted_quiets `{TypesH} (p : Position) (mh : ButterflyHistory)
    (ch : nat → PieceToHistory) (d : Depth) : list ExtMove :=
  partial_insertion_sort (scored_quiets p mh ch) (quiet_threshold d).

(** The tests of REFUTATION and of the two quiet stages, as functions of the
    slot; [k0], [k1] and [cm] are the moves of the refutations array. *)
Definition refutation_test (p : Position) (c : ExtMove) : bool :=
  is_move (move c) && negb (capture_stage p (move c)) && pseudo_legal p (move c).

Definition quiet_test (k0 k1 cm : Move) (c : ExtMove) : bool :=
  negb (move c =? k0) && negb (move c =? k1) && negb (move c =? cm).

(** What GOOD_QUIET asks of the score of a move before it returns it. *)
Definition good_quiet `{TypesH} (d : Depth) (c : ExtMove) : bool :=
  (-8000 <? value c) || (value c <=? quiet_threshold d).

(** The longest prefix on which [f] holds, and what follows it. *)
Fixpoint take_while {A} (f : A → bool) (l : list A) : list A :=
  match l with
  | [] => []
  | x :: l' => if f x then x :: take_while f l' else []
  end.

Fixpoint drop_while {A} (f : A → bool) (l : list A) : list A :=
  match l with
  | [] => []
  | x :: l' => if f x then drop_while f l' else l
  end.

(** The quiet moves the two quiet stages have to yield, in buffer order. *)
Definition quiets_to_yield `{TypesH} (p : Position) (ttm : Move) (d : Depth)
    (mh : ButterflyHistory) (ch : nat → PieceToHistory) (cm k0 k1 : Move)
  : list ExtMove :=
  filter (accepts ttm (quiet_test k0 k1 cm)) (sorted_quiets p mh ch d).

(** The moves of a main-search picker after the hash move, in the order of
    the stages; [skip] is the value of [skipQuiets] passed to every call. *)
Definition main_search_order `{TypesH} (p : Position) (ttm : Move) (d : Depth)
    (mh : ButterflyHistory) (ch : nat → PieceToHistory) (cm k0 k1 : Move)
    (skip : bool) : list Move :=
  let refs := [mkExtMove k0 0; mkExtMove k1 0; mkExtMove cm 0] in
  let quiets := quiets_to_yield p ttm d mh ch cm k0 k1 in
  ext_moves (goods p ttm (sorted_captures p))
  ++ ext_moves (filter (playable p ttm) (ref_range refs))
  ++ (if skip then [] else ext_moves (take_while (good_quiet d) quiets))
  ++ ext_moves (bads p ttm (sorted_captures p))
  ++ (if skip then [] else ext_moves (drop_while (good_quiet d) quiets)).

(** ** What a call needs in order to be defined *)





(** * Properties *)

(** ** Facts about the sort *)

Section sort_facts.
Implicit Types (a s t : list ExtMove) (x y tmp : ExtMove).

(** The inner loop, run on [s ++ y :: t] from [q = length s], splits [s]
    at the longest suffix of elements below [tmp] and puts [tmp] there;
    the slot of [y] is consumed. *)
Lemma shift_insert_split s y t tmp :
  ∃ s1 s2,
    s = s1 ++ s2 ∧
    Forall (λ e, value e < value tmp) s2 ∧
    (∀ e, last s1 = Some e → value tmp <= value e) ∧
    shift_insert (s ++ y :: t) (length s) tmp = s1 ++ tmp :: s2 ++ t.
Proof.
  revert y t. induction s as [|e s IH] using rev_ind; intros y t.
  - exists [], []. simpl. repeat split; auto. intros e; discriminate.
  - rewrite length_app. simpl. rewrite Nat.add_1_r. simpl.
    rewrite <- app_assoc. simpl.
    rewrite (lookup_app_r s) by lia. rewrite Nat.sub_diag. simpl.
    unfold ext_lt. destruct (Z.ltb_spec (value e) (value tmp)) as [Hlt|Hge].
    + replace (<[S (length s) := e]> (s ++ e :: y :: t)) with (s ++ e :: e :: t).
      2:{ rewrite (insert_app_r_alt s) by lia.
          replace (S (length s) - length s)%nat with 1%nat by lia. done. }
      destruct (IH e (e :: t)) as (s1 & s2 & -> & Hs2 & Hlast & Heq).
      exists s1, (s2 ++ [e]). rewrite Heq. repeat split.
      * by rewrite app_assoc.
      * apply Forall_app. split; auto.
      * done.
      * by rewrite <- !app_assoc.
    + exists (s ++ [e]), []. repeat split.
      * by rewrite app_nil_r.
      * constructor.
      * intros e'. rewrite last_snoc. intros [= <-]. lia.
      * rewrite (insert_app_r_alt s) by lia.
        replace (S (length s) - length s)%nat with 1%nat by lia.
        simpl. by rewrite <- app_assoc.
Qed.

Local Arguments shift_insert : simpl never.

Lemma ge_sorted_last s e x :
  StronglySorted ge_value s → last s = Some e → x ∈ s → value e <= value x.
Proof.
  intros Hs Hl Hx. destruct s as [|z s] using rev_ind; [done|].
  rewrite last_snoc in Hl. injection Hl as ->.
  apply elem_of_app in Hx as [Hx|Hx].
  - apply StronglySorted_app in Hs as (H & _ & _).
    apply (H x e); [done|]. apply list_elem_of_singleton. done.
  - apply list_elem_of_singleton in Hx as ->. lia.
Qed.

Lemma shift_insert_sorted s y t tmp :
  StronglySorted ge_value s →
  ∃ s', shift_insert (s ++ y :: t) (length s) tmp = s' ++ t ∧
        s' ≡ₚ tmp :: s ∧ StronglySorted ge_value s'.
Proof.
  intros Hs. destruct (shift_insert_split s y t tmp) as (s1 & s2 & -> & H2 & Hl & Heq).
  exists (s1 ++ tmp :: s2). split; [by rewrite Heq, <- app_assoc|]. split.
  - by rewrite Permutation_middle.
  - apply StronglySorted_app in Hs as (H12 & Hs1 & Hs2).
    apply StronglySorted_app. split; [|split; [done|]].
    + intros x1 x2 Hx1 Hx2. apply elem_of_cons in Hx2 as [->|Hx2].
      * destruct (last s1) as [e|] eqn:He.
        -- unfold ge_value. pose proof (Hl e eq_refl).
           pose proof (ge_sorted_last s1 e x1 Hs1 He Hx1). lia.
        -- apply last_None in He. subst. by apply elem_of_nil in Hx1.
      * by apply H12.
    + apply StronglySorted_cons. split; [|done].
      eapply Forall_impl; [exact H2|]. intros e He. unfold ge_value. simpl in He. lia.
Qed.

(** Invariant of the outer loop: the array is [s ++ m ++ r] with [s] the
    sorted part, [m] the elements passed over and [r] the unscanned rest. *)
Lemma pis_loop_inv limit r s m :
  s ≠ [] →
  StronglySorted ge_value s →
  Forall (λ e, value e < limit) m →
  ∃ s' m',
    pis_loop (length r) (s ++ m ++ r) (length s - 1) (length s + length m) limit
      = s' ++ m' ∧
    StronglySorted ge_value s' ∧
    Forall (λ e, value e < limit) m' ∧
    s' ≡ₚ s ++ filter (meets limit) r ∧
    m' ≡ₚ m ++ filter (λ e, ¬ meets limit e) r.
Proof.
  revert s m. induction r as [|x r IH]; intros s m Hne Hs Hm.
  - exists s, m. simpl. rewrite !app_nil_r. done.
  - simpl pis_loop.
    rewrite app_assoc, (lookup_app_r (s ++ m)) by (rewrite length_app; lia).
    rewrite length_app, Nat.sub_diag. simpl.
    assert (S (length s - 1) = length s) as -> by (destruct s; [done|simpl; lia]).
    destruct (Z.leb_spec limit (value x)) as [Hge|Hlt].
    + (* x enters the sorted part *)
      destruct (shift_insert_sorted s
                  (default x (head m)) (tail m ++ from_option (λ e, [e]) [] (head m) ++ r) x Hs)
        as (s' & Heq & Hp & Hs').
      assert (match ((s ++ m) ++ x :: r) !! length s with
              | Some e => <[(length s + length m)%nat := e]> ((s ++ m) ++ x :: r)
              | None => (s ++ m) ++ x :: r
              end
              = s ++ default x (head m) :: tail m ++ from_option (λ e, [e]) [] (head m) ++ r) as ->.
      { destruct m as [|y m]; simpl.
        - rewrite app_nil_r. rewrite lookup_app_r by lia. rewrite Nat.sub_diag. simpl.
          rewrite Nat.add_0_r. rewrite insert_app_r_alt by lia.
          rewrite Nat.sub_diag. done.
        - rewrite <- app_assoc. rewrite lookup_app_r by lia. rewrite Nat.sub_diag. simpl.
          rewrite insert_app_r_alt by lia.
          replace (length s + S (length m) - length s)%nat with (S (length m)) by lia.
          simpl. f_equal. f_equal.
          rewrite insert_app_r_alt by lia. rewrite Nat.sub_diag. simpl. done. }
      rewrite Heq.
      set (m1 := tail m ++ from_option (λ e, [e]) [] (head m)).
      assert (length s' = S (length s)) as Hlen.
      { apply Permutation_length in Hp. done. }
      assert (m1 ≡ₚ m) as Hm1.
      { unfold m1. destruct m as [|y m]; simpl; [done|].
        by rewrite <- Permutation_cons_append. }
      destruct (IH s' m1) as (s2 & m2 & Heq2 & Hs2 & Hm2 & Hp2 & Hq2).
      * intros ->. done.
      * done.
      * by rewrite Hm1.
      * exists s2, m2.
        replace (length s' - 1)%nat with (length s) in Heq2 by lia.
        replace (length s' + length m1)%nat with (S (length s + length m)) in Heq2.
        2:{ rewrite Hlen. apply Permutation_length in Hm1. lia. }
        replace (s' ++ tail m ++ from_option (λ e : ExtMove, [e]) [] (head m) ++ r)
          with (s' ++ m1 ++ r) by (unfold m1; by rewrite <- app_assoc).
        rewrite Heq2. split; [done|]. split; [done|]. split; [done|].
        rewrite filter_cons_True by done.
        rewrite filter_cons_False by (unfold meets; tauto).
        split.
        -- rewrite Hp2, Hp. simpl. apply Permutation_middle.
        -- by rewrite Hq2, Hm1.
    + (* x is passed over *)
      destruct (IH s (m ++ [x])) as (s2 & m2 & Heq2 & Hs2 & Hm2 & Hp2 & Hq2).
      * done.
      * done.
      * apply Forall_app. split; [done|]. by constructor.
      * exists s2, m2.
        rewrite length_app in Heq2. simpl in Heq2.
        replace (length s + (length m + 1))%nat with (S (length s + length m)) in Heq2 by lia.
        split. { rewrite <- Heq2. f_equal. by rewrite <- !app_assoc. }
        split; [done|]. split; [done|].
        rewrite filter_cons_False by (unfold meets; lia).
        rewrite filter_cons_True by (unfold meets; lia).
        split; [done|]. by rewrite Hq2, <- app_assoc.
Qed.
End sort_facts.

Section sort_result.
Implicit Types (l : list ExtMove).

(** What the two loops leave behind, for a non-empty range. *)
Lemma partial_insertion_sort_split x0 r limit :
  ∃ s m,
    partial_insertion_sort (x0 :: r) limit = s ++ m ∧
    StronglySorted ge_value s ∧
    Forall (λ e, value e < limit) m ∧
    s ≡ₚ x0 :: filter (meets limit) r ∧
    m ≡ₚ filter (λ e, ¬ meets limit e) r.
Proof.
  unfold partial_insertion_sort.
  replace (length (x0 :: r) - 1)%nat with (length r) by (simpl; lia).
  destruct (pis_loop_inv limit r [x0] []) as (s & m & Heq & Hs & Hm & Hp & Hq).
  - done.
  - repeat constructor.
  - constructor.
  - exists s, m. simpl in Heq. rewrite Heq. done.
Qed.

Lemma partial_insertion_sort_perm l limit :
  partial_insertion_sort l limit ≡ₚ l.
Proof.
  destruct l as [|x0 r]; [done|].
  destruct (partial_insertion_sort_split x0 r limit) as (s & m & -> & _ & _ & Hp & Hq).
  rewrite Hp, Hq. simpl. f_equiv. apply filter_app_complement.
Qed.

Lemma partial_insertion_sort_prefix l limit :
  ∃ k : nat,
    StronglySorted ge_value (take k (partial_insertion_sort l limit)) ∧
    take k (partial_insertion_sort l limit) ≡ₚ filter (meets limit) l.
Proof.
  destruct l as [|x0 r].
  { exists 0%nat. split; [constructor|done]. }
  destruct (partial_insertion_sort_split x0 r limit) as (s & m & -> & Hs & _ & Hp & _).
  destruct (decide (meets limit x0)) as [Hx|Hx].
  - exists (length s). rewrite take_app_length.
    by rewrite filter_cons_True.
  - rewrite filter_cons_False by done.
    destruct s as [|z s _] using rev_ind.
    { apply Permutation_length in Hp. done. }
    assert (z = x0) as ->.
    { assert (z ∈ x0 :: filter (meets limit) r) as Hz.
      { rewrite <- Hp. apply elem_of_app. right. by apply list_elem_of_singleton. }
      apply elem_of_cons in Hz as [?|Hz]; [done|].
      apply list_elem_of_filter in Hz as [Hz _].
      assert (x0 ∈ s ++ [z]) as H0 by (rewrite Hp; apply elem_of_cons; by left).
      apply elem_of_app in H0 as [H0|H0].
      - pose proof (ge_sorted_last (s ++ [z]) z x0 Hs (last_snoc _ _)) as Hle.
        unfold meets in *. exfalso. apply Hx.
        etrans; [exact Hz|]. apply Hle. apply elem_of_app. by left.
      - apply list_elem_of_singleton in H0. done. }
    exists (length s). rewrite <- app_assoc, take_app_length. split.
    + by apply StronglySorted_app_1_l in Hs.
    + rewrite <- Permutation_cons_append in Hp. by apply Permutation_cons_inv in Hp.
Qed.
End sort_result.

(** C3, as amended: the result of [partial_insertion_sort] is a permutation
    of the range, and a prefix of it holds exactly the elements whose score is
    at least the threshold, in descending score order in which equal scores
    may follow one another. *)
Theorem partial_insertion_sort_descending_prefix (l : list ExtMove) (limit : Z) :
  sorted_prefix_spec ge_value l (partial_insertion_sort l limit) limit.
Proof.
  split.
  - apply partial_insertion_sort_perm.
  - apply partial_insertion_sort_prefix.
Qed.

(** C3, as stated, fails: two qualifying moves of equal score cannot be put
    in strictly descending order. *)
Lemma partial_insertion_sort_not_strict :
  ¬ sorted_prefix_spec gt_value
      [mkExtMove 1 3; mkExtMove 2 3]
      (partial_insertion_sort [mkExtMove 1 3; mkExtMove 2 3] 0) 0.
Proof.
  intros [_ (k & Hs & Hp)].
  assert (length (take k (partial_insertion_sort [mkExtMove 1 3; mkExtMove 2 3] 0)) = 2%nat) as Hlen.
  { apply Permutation_length in Hp. exact Hp. }
  destruct k as [|[|k]]; [done|done|].
  vm_compute in Hs.
  apply StronglySorted_cons in Hs as [Hf _].
  apply Forall_cons in Hf as [Hf _]. vm_compute in Hf. discriminate.
Qed.

(** ** 32-bit arithmetic *)

Lemma wrap32_small z : - 2 ^ 31 <= z < 2 ^ 31 → wrap32 z = z.
Proof. intros Hz. unfold wrap32. rewrite Z.mod_small; lia. Qed.

Lemma wrap32_range z : - 2 ^ 31 <= wrap32 z < 2 ^ 31.
Proof.
  unfold wrap32. pose proof (Z.mod_pos_bound (z + 2 ^ 31) (2 ^ 32)). lia.
Qed.

Lemma wrap32_meets_INT_MIN m z : meets INT_MIN (mkExtMove m (wrap32 z)).
Proof. unfold meets, INT_MIN. simpl. apply wrap32_range. Qed.

(** ** Ranges of the buffer *)

Section ranges.
Implicit Types (buf new : list ExtMove) (b e : nat).

Lemma slice_splice b e new buf :
  (b ≤ length buf)%nat → length new = (e - b)%nat →
  slice b e (splice b e new buf) = new.
Proof.
  intros Hb Hn. unfold slice, splice.
  rewrite drop_app_length' by (rewrite length_take; lia).
  rewrite take_app_length' by done. done.
Qed.

Lemma take_splice b e new buf :
  (b ≤ length buf)%nat → take b (splice b e new buf) = take b buf.
Proof.
  intros Hb. unfold splice. rewrite take_app_length' by (rewrite length_take; lia). done.
Qed.

Lemma length_slice b e buf :
  (e ≤ length buf)%nat → length (slice b e buf) = (e - b)%nat.
Proof. intros. unfold slice. rewrite length_take, length_drop. lia. Qed.

Lemma splice_slice b e buf :
  (b ≤ e)%nat → splice b e (slice b e buf) buf = buf.
Proof.
  intros Hbe. unfold splice, slice.
  rewrite <- (take_drop b buf) at 4. f_equal.
  rewrite <- (take_drop (e - b) (drop b buf)) at 2. f_equal.
  rewrite drop_drop. f_equal. lia.
Qed.

Lemma length_splice b e new buf :
  (b ≤ e)%nat → (e ≤ length buf)%nat → length new = (e - b)%nat →
  length (splice b e new buf) = length buf.
Proof.
  intros. unfold splice. rewrite !length_app, length_take, length_drop. lia.
Qed.

Lemma slice_generate_at ms b buf :
  (b ≤ length buf)%nat →
  slice b (b + length ms) (generate_at ms b buf) = map (λ m, mkExtMove m 0) ms.
Proof.
  intros Hb. unfold generate_at. apply slice_splice; [done|].
  rewrite length_map. lia.
Qed.

Lemma take_generate_at ms b buf :
  (b ≤ length buf)%nat → take b (generate_at ms b buf) = take b buf.
Proof. intros. unfold generate_at. by apply take_splice. Qed.

Lemma length_generate_at ms b buf :
  (b ≤ length buf)%nat → (b + length ms ≤ length (generate_at ms b buf))%nat.
Proof.
  intros. unfold generate_at, splice.
  rewrite !length_app, length_take, length_map. lia.
Qed.
End ranges.

Section scoring.
Context `{TypesH}.

Lemma mapM_score_one T mp (f : Move → Z) l :
  (∀ e, e ∈ l → score_value T mp (move e) = Some (f (move e))) →
  mapM (score_one T mp) l = Some (map (λ e, mkExtMove (move e) (f (move e))) l).
Proof.
  intros Hf. apply mapM_Some. induction l as [|x l IH]; simpl.
  - constructor.
  - constructor.
    + unfold score_one. rewrite Hf by (by left). done.
    + apply IH. intros e He. apply Hf. by right.
Qed.

(** [score<Type>()] on a range on which every value is defined. *)
Lemma score_defined T mp b e (f : Move → Z) :
  cur mp = At Moves b → endMoves mp = At Moves e →
  (∀ x, x ∈ slice b e (moves mp) → score_value T mp (move x) = Some (f (move x))) →
  score T mp =
    Some (set_moves
            (splice b e (map (λ x, mkExtMove (move x) (f (move x)))
                           (slice b e (moves mp))) (moves mp)) mp).
Proof.
  intros Hc He Hf. unfold score. rewrite Hc, He.
  rewrite (mapM_score_one T mp f) by done. done.
Qed.

Lemma quiet_value_exact mh ch p m :
  (∀ c ft, int16_range (mh c ft)) →
  (∀ i pc sq, int16_range (ch i pc sq)) →
  quiet_value mh ch p m =
    mh (side_to_move p) (from_to m)
    + ch 0%nat (moved_piece p m) (to_sq m)
    + ch 1%nat (moved_piece p m) (to_sq m)
    + ch 3%nat (moved_piece p m) (to_sq m).
Proof.
  intros Hmh Hch. unfold quiet_value, add32.
  pose proof (Hmh (side_to_move p) (from_to m)) as H0.
  pose proof (Hch 0%nat (moved_piece p m) (to_sq m)) as H1.
  pose proof (Hch 1%nat (moved_piece p m) (to_sq m)) as H2.
  pose proof (Hch 3%nat (moved_piece p m) (to_sq m)) as H3.
  unfold int16_range in *.
  rewrite (wrap32_small (_ + ch 0%nat _ _)) by lia.
  rewrite (wrap32_small (_ + ch 1%nat _ _)) by lia.
  rewrite wrap32_small by lia. done.
Qed.

(** C5: the stage a main-search or quiescence picker starts in is the
    evasion hash-move stage when the side to move is in check and the
    main (resp. quiescence) hash-move stage otherwise; it is one further
    exactly when the hash move is the none-sentinel or is not pseudo-legal. *)
Theorem initial_stage_rule (p : Position) (ttm : Move) (d d' : Depth)
    (mh : ButterflyHistory) (cph : CapturePieceToHistory)
    (ch : nat → PieceToHistory) (ph : PawnHistory) (cm k0 k1 : Move) :
  0 < d → d' <= 0 →
  let unplayable := ttm = Move_none ∨ pseudo_legal p ttm = false in
  let main := MovePicker_main p ttm d mh cph ch ph cm k0 k1 in
  let qs := MovePicker_qsearch p ttm d' mh cph ch ph in
  let main_tt := if checkers p then EVASION_TT else MAIN_TT in
  let qs_tt := if checkers p then EVASION_TT else QSEARCH_TT in
  (unplayable → stage main = stage_succ main_tt ∧ stage qs = stage_succ qs_tt) ∧
  (¬ unplayable → stage main = main_tt ∧ stage qs = qs_tt) ∧
  (stage_index (stage main) = stage_index main_tt + 1 ↔ unplayable) ∧
  (stage_index (stage qs) = stage_index qs_tt + 1 ↔ unplayable).
Proof.
  intros _ _. simpl. unfold is_move, Move_none.
  destruct (Z.eqb_spec ttm 0) as [->|Hne]; simpl.
  - destruct (checkers p); simpl; intuition (try done; lia).
  - destruct (pseudo_legal p ttm), (checkers p); simpl;
      intuition (try done; try lia).
Qed.

(** C8: the score of a generated quiet move is the butterfly-history entry
    of (side to move, origin-destination) plus the continuation-history
    entries of slots 0, 1 and 3 (plies -1, -2 and -4) for (moved piece,
    destination); slot 2 (ply -3) is not read. *)
Theorem quiet_score_formula (mp : MovePicker) (mh : ButterflyHistory)
    (ch ch' : nat → PieceToHistory) (b : nat) :
  mainHistory mp = Some mh →
  contHistory mp = Some ch →
  (∀ c ft, int16_range (mh c ft)) →
  (∀ i pc sq, int16_range (ch i pc sq)) →
  (∀ i, i ≠ 2%nat → ch' i = ch i) →
  cur mp = At Moves b →
  (b ≤ length (moves mp))%nat →
  ∃ e mp1 mp2,
    generate_moves QUIETS mp = Some (e, mp1) ∧
    score QUIETS (set_endMoves e (set_beginBadQuiets e (set_endBadQuiets e mp1)))
      = Some mp2 ∧
    e = At Moves (b + length (generate (pos mp) QUIETS)) ∧
    slice b (b + length (generate (pos mp) QUIETS)) (moves mp2) =
      map (λ m, mkExtMove m
                  (mh (side_to_move (pos mp)) (from_to m)
                   + ch 0%nat (moved_piece (pos mp) m) (to_sq m)
                   + ch 1%nat (moved_piece (pos mp) m) (to_sq m)
                   + ch 3%nat (moved_piece (pos mp) m) (to_sq m)))
          (generate (pos mp) QUIETS) ∧
    ∀ m, quiet_value mh ch' (pos mp) m = quiet_value mh ch (pos mp) m.
Proof.
  intros Hmh Hch Bmh Bch Hch' Hcur Hb.
  unfold generate_moves. rewrite Hcur.
  eexists _, _, _. split; [reflexivity|].
  set (ms := generate (pos mp) QUIETS).
  set (f := λ m, mh (side_to_move (pos mp)) (from_to m)
                   + ch 0%nat (moved_piece (pos mp) m) (to_sq m)
                   + ch 1%nat (moved_piece (pos mp) m) (to_sq m)
                   + ch 3%nat (moved_piece (pos mp) m) (to_sq m)).
  split; [|split; [reflexivity|split]].
  - apply (score_defined QUIETS _ b (b + length ms) f); [exact Hcur|reflexivity|].
    intros x _. simpl. rewrite Hmh, Hch. simpl.
    by rewrite quiet_value_exact.
  - simpl. rewrite slice_generate_at by done.
    rewrite slice_splice.
    + rewrite map_map. done.
    + pose proof (length_generate_at (generate (pos mp) QUIETS) b (moves mp) Hb). lia.
    + rewrite !length_map. lia.
  - intros m. unfold quiet_value. by rewrite !Hch'.
Qed.

(** C9: among the evasions generated and scored by the evasion stage,
    every capture has a strictly greater score than every non-capture,
    whose score is its butterfly-history entry minus [2^28]; history
    entries, piece values and piece-type ordinals are 16-bit quantities. *)
Theorem evasion_capture_outranks_quiet (mp : MovePicker) (mh : ButterflyHistory) :
  mainHistory mp = Some mh →
  (∀ c ft, int16_range (mh c ft)) →
  (∀ pc, int16_range (PieceValueMG pc)) →
  (∀ pc, int16_range (type_of pc)) →
  let n := length (generate (pos mp) EVASIONS) in
  ∃ e mp1 mp2,
    generate_moves EVASIONS (set_cur (At Moves 0) mp) = Some (e, mp1) ∧
    score EVASIONS (set_endMoves e mp1) = Some mp2 ∧
    e = At Moves n ∧
    ext_moves (slice 0 n (moves mp2)) = generate (pos mp) EVASIONS ∧
    (∀ y, y ∈ slice 0 n (moves mp2) → capture (pos mp) (move y) = false →
          value y = mh (side_to_move (pos mp)) (from_to (move y)) - 2 ^ 28) ∧
    (∀ x y, x ∈ slice 0 n (moves mp2) → y ∈ slice 0 n (moves mp2) →
            capture (pos mp) (move x) = true →
            capture (pos mp) (move y) = false →
            value y < value x).
Proof.
  intros Hmh Bmh Bpv Bty n. subst n.
  set (f := λ m, if capture (pos mp) m then evasion_capture_value (pos mp) m
                 else evasion_quiet_value mh (pos mp) m).
  set (ms := generate (pos mp) EVASIONS).
  assert (slice 0 (length ms) (splice 0 (length ms)
            (map (λ x, mkExtMove (move x) (f (move x)))
               (slice 0 (length ms) (generate_at ms 0 (moves mp))))
            (generate_at ms 0 (moves mp)))
          = map (λ m, mkExtMove m (f m)) ms) as Hslice.
  { pose proof (slice_generate_at ms 0 (moves mp) ltac:(lia)) as Hg.
    simpl in Hg. rewrite Hg, map_map. simpl.
    apply slice_splice; [lia|]. rewrite length_map. lia. }
  eexists _, _, _. split; [reflexivity|]. split; [|split; [reflexivity|]].
  - apply (score_defined EVASIONS _ 0 (0 + length ms) f); [reflexivity|reflexivity|].
    intros x _. simpl. unfold f. destruct (capture (pos mp) (move x)); [done|].
    rewrite Hmh. done.
  - simpl moves. fold ms. rewrite Hslice. split; [|split].
    + unfold ext_moves. rewrite map_map. simpl. apply map_id.
    + intros y Hy Hc. apply list_elem_of_fmap in Hy as (m & -> & _).
      simpl in *. unfold f. rewrite Hc. unfold evasion_quiet_value, sub32.
      pose proof (Bmh (side_to_move (pos mp)) (from_to m)) as B.
      unfold int16_range in B. rewrite wrap32_small; lia.
    + intros x y Hx Hy Hcx Hcy.
      apply list_elem_of_fmap in Hx as (mx & -> & _).
      apply list_elem_of_fmap in Hy as (my & -> & _).
      simpl in *. unfold f. rewrite Hcx, Hcy.
      unfold evasion_quiet_value, evasion_capture_value, sub32.
      pose proof (Bmh (side_to_move (pos mp)) (from_to my)) as B1.
      pose proof (Bpv (piece_on (pos mp) (to_sq mx))) as B2.
      pose proof (Bty (moved_piece (pos mp) mx)) as B3.
      unfold int16_range in *. rewrite !wrap32_small; lia.
Qed.
End scoring.

(** ** The loop of select *)

Section select_facts.
Context `{TypesH}.
Implicit Types (mp : MovePicker) (m : Move) (filter : Pred).

(** A rule for the loop: [I n] holds with [n] iterations left, [Q] of the
    result. *)
Lemma select_loop_rule T filter (I : nat → MovePicker → Prop)
    (Q : Move → MovePicker → Prop) :
  (∀ mp, I O mp → Q Move_none mp) →
  (∀ n mp mp1 c,
      I (S n) mp →
      match T with Best => swap_best mp | Next => Some mp end = Some mp1 →
      deref mp1 (cur mp1) = Some c →
      (move c = ttMove mp1 → I n (set_cur (ptr_succ (cur mp1)) mp1)) ∧
      (move c ≠ ttMove mp1 →
       ∀ ok mp2, filter mp1 = Some (ok, mp2) →
         if ok : bool
         then ∀ r, deref mp2 (cur mp2) = Some r →
                   Q (move r) (set_cur (ptr_succ (cur mp2)) mp2)
         else I n (set_cur (ptr_succ (cur mp2)) mp2))) →
  ∀ n mp m mp',
    I n mp → select_loop T filter n mp = Some (m, mp') → Q m mp'.
Proof.
  intros H0 HS. induction n as [|n IH]; intros mp m mp' HI Hsel.
  - simpl in Hsel. injection Hsel as <- <-. by apply H0.
  - simpl in Hsel.
    destruct (match T with Best => swap_best mp | Next => Some mp end)
      as [mp1|] eqn:E1; [|done]. simpl in Hsel.
    destruct (deref mp1 (cur mp1)) as [c|] eqn:Ec; [|done]. simpl in Hsel.
    destruct (HS n mp mp1 c HI E1 Ec) as [Htt Hne].
    destruct (Z.eqb_spec (move c) (ttMove mp1)) as [Heq|Hneq]; simpl in Hsel.
    + eapply IH; [|exact Hsel]. by apply Htt.
    + destruct (filter mp1) as [[ok mp2]|] eqn:Ef; [|done]. simpl in Hsel.
      specialize (Hne Hneq ok mp2 eq_refl). destruct ok.
      * destruct (deref mp2 (cur mp2)) as [r|] eqn:Er; [|done]. simpl in Hsel.
        injection Hsel as <- <-. by apply Hne.
      * eapply IH; [|exact Hsel]. done.
Qed.

Lemma store_shape p e mp mp1 :
  store p e mp = Some mp1 →
  ∃ b r, mp1 = set_moves b (set_refutations r mp).
Proof.
  unfold store. destruct p as [[] i|]; [| |done];
    case_decide; [|done| |done]; intros [= <-].
  - exists (<[i:=e]> (moves mp)), (refutations mp). by destruct mp.
  - exists (moves mp), (<[i:=e]> (refutations mp)). by destruct mp.
Qed.

Lemma swap_best_shape mp mp1 :
  swap_best mp = Some mp1 → ∃ b r, mp1 = set_moves b (set_refutations r mp).
Proof.
  unfold swap_best. destruct (cur mp) as [r i|]; [|done].
  destruct (endMoves mp) as [r' j|]; [|done]. case_decide; [|done].
  intros Hs. apply bind_Some in Hs as (k & _ & Hs).
  apply bind_Some in Hs as (x & _ & Hs).
  apply bind_Some in Hs as (y & _ & Hs).
  apply bind_Some in Hs as (mp2 & H1 & H2).
  apply store_shape in H1 as (b1 & r1 & ->).
  apply store_shape in H2 as (b2 & r2 & ->).
  exists b2, r2. done.
Qed.

Lemma pick_shape T mp mp1 :
  match T with Best => swap_best mp | Next => Some mp end = Some mp1 →
  ∃ b r, mp1 = set_moves b (set_refutations r mp).
Proof.
  destruct T.
  - intros [= <-]. exists (moves mp), (refutations mp). by destruct mp.
  - apply swap_best_shape.
Qed.

Lemma deref_set_cur mp p q : deref (set_cur q mp) p = deref mp p.
Proof. by destruct p as [[] i|]. Qed.

Lemma return_prev_after mp r i e :
  cur mp = At r i → deref mp (At r i) = Some e →
  return_prev (set_cur (ptr_succ (cur mp)) mp)
    = Some (move e, set_cur (ptr_succ (cur mp)) mp).
Proof.
  intros Hc He. unfold return_prev. simpl. rewrite Hc. simpl.
  change (region_of (set_cur (At r (S i)) mp) r) with (region_of mp r).
  simpl in He. rewrite He. done.
Qed.

Lemma deref_is_At mp p e : deref mp p = Some e → ∃ r i, p = At r i.
Proof. destruct p as [r i|]; [eauto|done]. Qed.

(** The five predicates leave the hash move, the stage and the cursor
    alone, and change nothing when they accept. *)
Lemma accept_all_mild : mild accept_all.
Proof. intros mp ok mp2 [= <- <-]. done. Qed.

Lemma good_capture_mild : mild good_capture.
Proof.
  intros mp ok mp2. unfold good_capture. intros Hf.
  apply bind_Some in Hf as (c & _ & Hf).
  destruct (see_ge (pos mp) (move c) _).
  - injection Hf as <- <-. done.
  - apply bind_Some in Hf as (mp1 & Hs & [= <- <-]).
    apply store_shape in Hs as (b & r & ->). done.
Qed.

Lemma playable_refutation_mild : mild playable_refutation.
Proof.
  intros mp ok mp2. unfold playable_refutation. intros Hf.
  apply bind_Some in Hf as (c & _ & [= <- <-]). done.
Qed.

Lemma not_refutation_mild : mild not_refutation.
Proof.
  intros mp ok mp2. unfold not_refutation. intros Hf.
  apply bind_Some in Hf as (c & _ & Hf).
  apply bind_Some in Hf as (r0 & _ & Hf).
  apply bind_Some in Hf as (r1 & _ & Hf).
  apply bind_Some in Hf as (r2 & _ & [= <- <-]). done.
Qed.

Lemma meets_threshold_mild : mild meets_threshold.
Proof.
  intros mp ok mp2. unfold meets_threshold. intros Hf.
  apply bind_Some in Hf as (c & _ & Hf).
  apply bind_Some in Hf as (th & _ & [= <- <-]). done.
Qed.

(** What [select] returns is never the hash move, unless it is the
    none-sentinel; [*(cur - 1)] is then the move returned. *)
Lemma select_yield T filter mp m mp' :
  mild filter →
  select T filter mp = Some (m, mp') →
  ttMove mp' = ttMove mp ∧ stage mp' = stage mp ∧
  (m = Move_none ∨ (m ≠ ttMove mp ∧ return_prev mp' = Some (m, mp'))).
Proof.
  intros Hmild Hsel. unfold select in Hsel.
  apply bind_Some in Hsel as (n & _ & Hsel).
  revert Hsel.
  apply (select_loop_rule T filter
           (λ _ mp0, ttMove mp0 = ttMove mp ∧ stage mp0 = stage mp)
           (λ m mp', ttMove mp' = ttMove mp ∧ stage mp' = stage mp ∧
                     (m = Move_none ∨ (m ≠ ttMove mp ∧ return_prev mp' = Some (m, mp'))))).
  - intros mp0 [? ?]. auto.
  - intros k mp0 mp1 c [Ht Hs] Hp Hc.
    apply pick_shape in Hp as (b & r & ->). simpl in *. split; [done|].
    intros Hne ok mp2 Hf. destruct (Hmild _ _ _ Hf) as (Ht2 & Hs2 & Hc2 & Hpure).
    simpl in *. destruct ok.
    + intros e He. specialize (Hpure eq_refl). subst mp2. simpl in *.
      rewrite Hc in He. injection He as <-.
      split; [done|]. split; [done|]. right. split; [congruence|].
      destruct (deref_is_At _ _ _ Hc) as (rg & i & Hcur). simpl in Hcur.
      rewrite Hcur in Hc.
      exact (return_prev_after (set_moves b (set_refutations r mp0)) rg i c Hcur Hc).
    + simpl. split; congruence.
  - done.
Qed.
End select_facts.

(** ** The hash move is yielded by the hash-move stages only *)

Create HintDb mild.
#[export] Hint Resolve accept_all_mild good_capture_mild playable_refutation_mild
  not_refutation_mild meets_threshold_mild : mild.

Section hash_move.
Context `{TypesH}.
Implicit Types (mp : MovePicker) (m : Move).

Lemma score_shape T mp mp' : score T mp = Some mp' → ∃ b, mp' = set_moves b mp.
Proof.
  unfold score. destruct (cur mp) as [[] i|]; try done.
  destruct (endMoves mp) as [[] j|]; try done.
  intros Hs. apply bind_Some in Hs as (l & _ & [= <-]). eauto.
Qed.

Lemma sort_moves_shape limit mp mp' :
  sort_moves limit mp = Some mp' → ∃ b, mp' = set_moves b mp.
Proof.
  unfold sort_moves. destruct (cur mp) as [[] i|]; try done.
  destruct (endMoves mp) as [[] j|]; try done.
  intros [= <-]. eauto.
Qed.

Lemma generate_moves_shape T mp e mp' :
  generate_moves T mp = Some (e, mp') → ∃ b, mp' = set_moves b mp.
Proof.
  unfold generate_moves. destruct (cur mp) as [[] i|]; try done.
  intros [= <- <-]. eauto.
Qed.

Lemma capture_init_shape mp mp' :
  capture_init mp = Some mp' →
  ∃ b e, mp' = incr_stage (set_moves b (set_endMoves e
                 (set_endBadCaptures (At Moves 0) (set_cur (At Moves 0) mp)))).
Proof.
  unfold capture_init. intros Hc.
  apply bind_Some in Hc as ([e mp1] & Hg & Hc).
  apply bind_Some in Hc as (mp2 & Hs & Hc).
  apply bind_Some in Hc as (mp3 & Ho & [= <-]).
  apply generate_moves_shape in Hg as (b1 & ->).
  apply score_shape in Hs as (b2 & ->).
  apply sort_moves_shape in Ho as (b3 & ->).
  exists b3, e. done.
Qed.

(** One [goto top] is all a call ever takes: the stage the INIT stages
    leave is no INIT stage, so that more allowance changes nothing. *)
Lemma next_move_one_goto g b mp :
  next_move_from (Datatypes.S g) b mp = next_move b mp.
Proof.
  unfold next_move. simpl.
  destruct (stage mp) eqn:Hs; try done;
    destruct (capture_init mp) as [mp1|] eqn:Hi; try done; simpl;
    apply capture_init_shape in Hi as (b1 & e1 & ->);
    destruct g; simpl; rewrite Hs; done.
Qed.

Lemma is_move_false m : is_move m = false → m = Move_none.
Proof. unfold is_move. destruct (Z.eqb_spec m Move_none); done. Qed.

Lemma is_move_true m : is_move m = true → m ≠ Move_none.
Proof. unfold is_move. destruct (Z.eqb_spec m Move_none); done. Qed.

(** A stage that yields what [select] found. *)
Lemma yield_found tt m m1 mp1 :
  ttMove mp1 = tt → is_tt_stage (stage mp1) = false →
  (m1 = Move_none ∨ (m1 ≠ tt ∧ return_prev mp1 = Some (m1, mp1))) →
  is_move m1 = true →
  ∀ mp', return_prev mp1 = Some (m, mp') → never_hash tt m mp'.
Proof.
  intros Ht Hs [->|[Hne Hr]] Hm mp' Hret; [done|].
  rewrite Hr in Hret. injection Hret as <- <-. split; [done|]. split; [done|]. by right.
Qed.

Ltac selected m1 mp1 Hsel :=
  match goal with
  | Hc : context [select ?T ?f ?mp] |- _ =>
      destruct (select T f mp) as [[m1 mp1]|] eqn:Hsel; simpl in Hc; [|done];
      let Ht := fresh "Ht" in let Hs := fresh "Hs" in let Hy := fresh "Hy" in
      destruct (select_yield T f mp m1 mp1 ltac:(auto with mild) Hsel)
        as (Ht & Hs & Hy);
      rewrite <- Ht in Hy |- *
  end.

Lemma case_BAD_QUIET_hash b mp m mp' :
  stage mp = BAD_QUIET → case_BAD_QUIET b mp = Some (m, mp') →
  never_hash (ttMove mp) m mp'.
Proof.
  intros Hst Hc. unfold case_BAD_QUIET in Hc. destruct b; simpl in Hc.
  - injection Hc as <- <-. split; [done|]. rewrite Hst. auto.
  - destruct (select_yield _ _ _ _ _ not_refutation_mild Hc) as (Ht & Hs & Hy).
    split; [done|]. rewrite Hs, Hst. split; [done|]. tauto.
Qed.

Lemma case_BAD_CAPTURE_hash b mp m mp' :
  stage mp = BAD_CAPTURE → case_BAD_CAPTURE b mp = Some (m, mp') →
  never_hash (ttMove mp) m mp'.
Proof.
  intros Hst Hc. unfold case_BAD_CAPTURE in Hc. selected m1 mp1 Hsel.
  destruct (is_move m1) eqn:Hm.
  - eapply (yield_found _ m m1 mp1); eauto. by rewrite Hs, Hst.
  - apply (case_BAD_QUIET_hash b) in Hc; [done|]. simpl. by rewrite Hs, Hst.
Qed.

Lemma to_bad_captures_hash b mp m mp' :
  stage mp = GOOD_QUIET → to_bad_captures b mp = Some (m, mp') →
  never_hash (ttMove mp) m mp'.
Proof.
  intros Hst Hc. unfold to_bad_captures in Hc.
  apply (case_BAD_CAPTURE_hash b) in Hc; [done|]. simpl. by rewrite Hst.
Qed.

Lemma case_GOOD_QUIET_hash b mp m mp' :
  stage mp = GOOD_QUIET → case_GOOD_QUIET b mp = Some (m, mp') →
  never_hash (ttMove mp) m mp'.
Proof.
  intros Hst Hc. unfold case_GOOD_QUIET in Hc. destruct b; simpl in Hc.
  { by apply (to_bad_captures_hash true). }
  selected m1 mp1 Hsel.
  destruct (is_move m1) eqn:Hm.
  - apply bind_Some in Hc as (p & _ & Hc).
    apply bind_Some in Hc as (e & _ & Hc).
    apply bind_Some in Hc as (d & _ & Hc).
    destruct (_ || _).
    + eapply (yield_found _ m m1 mp1); eauto. by rewrite Hs, Hst.
    + apply (to_bad_captures_hash false) in Hc; [done|]. simpl. by rewrite Hs.
  - apply (to_bad_captures_hash false) in Hc; [done|]. by rewrite Hs.
Qed.

Lemma case_QUIET_INIT_hash b mp m mp' :
  stage mp = QUIET_INIT → case_QUIET_INIT b mp = Some (m, mp') →
  never_hash (ttMove mp) m mp'.
Proof.
  intros Hst Hc. unfold case_QUIET_INIT in Hc.
  apply bind_Some in Hc as (mp4 & Hq & Hc).
  assert (ttMove mp4 = ttMove mp ∧ stage mp4 = stage mp) as [Ht Hs].
  { destruct b; simpl in Hq.
    - by injection Hq as <-.
    - apply bind_Some in Hq as ([e mp1] & Hg & Hq).
      apply bind_Some in Hq as (mp3 & Hsc & Hq).
      apply bind_Some in Hq as (d & _ & Hso).
      apply generate_moves_shape in Hg as (b1 & ->).
      apply score_shape in Hsc as (b2 & ->).
      apply sort_moves_shape in Hso as (b3 & ->). done. }
  rewrite <- Ht. apply (case_GOOD_QUIET_hash b) in Hc; [done|].
  simpl. by rewrite Hs, Hst.
Qed.

Lemma case_REFUTATION_hash b mp m mp' :
  stage mp = REFUTATION → case_REFUTATION b mp = Some (m, mp') →
  never_hash (ttMove mp) m mp'.
Proof.
  intros Hst Hc. unfold case_REFUTATION in Hc. selected m1 mp1 Hsel.
  destruct (is_move m1) eqn:Hm.
  - eapply (yield_found _ m m1 mp1); eauto. by rewrite Hs, Hst.
  - apply (case_QUIET_INIT_hash b) in Hc; [done|]. simpl. by rewrite Hs, Hst.
Qed.

Lemma case_GOOD_CAPTURE_hash b mp m mp' :
  stage mp = GOOD_CAPTURE → case_GOOD_CAPTURE b mp = Some (m, mp') →
  never_hash (ttMove mp) m mp'.
Proof.
  intros Hst Hc. unfold case_GOOD_CAPTURE in Hc. selected m1 mp1 Hsel.
  destruct (is_move m1) eqn:Hm.
  - eapply (yield_found _ m m1 mp1); eauto. by rewrite Hs, Hst.
  - apply bind_Some in Hc as (r0 & _ & Hc).
    apply bind_Some in Hc as (r1 & _ & Hc).
    apply bind_Some in Hc as (r2 & _ & Hc).
    apply (case_REFUTATION_hash b) in Hc; [done|]. simpl. by rewrite Hs, Hst.
Qed.

Lemma case_EVASION_hash mp m mp' :
  stage mp = EVASION → case_EVASION mp = Some (m, mp') →
  never_hash (ttMove mp) m mp'.
Proof.
  intros Hst Hc. unfold case_EVASION in Hc.
  destruct (select_yield _ _ _ _ _ accept_all_mild Hc) as (Ht & Hs & Hy).
  split; [done|]. rewrite Hs, Hst. split; [done|]. tauto.
Qed.

Lemma case_EVASION_INIT_hash mp m mp' :
  stage mp = EVASION_INIT → case_EVASION_INIT mp = Some (m, mp') →
  never_hash (ttMove mp) m mp'.
Proof.
  intros Hst Hc. unfold case_EVASION_INIT in Hc.
  apply bind_Some in Hc as ([e mp1] & Hg & Hc).
  apply bind_Some in Hc as (mp2 & Hsc & Hc).
  apply generate_moves_shape in Hg as (b1 & ->).
  apply score_shape in Hsc as (b2 & ->).
  apply case_EVASION_hash in Hc; [done|]. simpl. by rewrite Hst.
Qed.

Lemma case_PROBCUT_hash mp m mp' :
  stage mp = PROBCUT → case_PROBCUT mp = Some (m, mp') →
  never_hash (ttMove mp) m mp'.
Proof.
  intros Hst Hc. unfold case_PROBCUT in Hc.
  destruct (select_yield _ _ _ _ _ meets_threshold_mild Hc) as (Ht & Hs & Hy).
  split; [done|]. rewrite Hs, Hst. split; [done|]. tauto.
Qed.

Lemma case_QCHECK_hash mp m mp' :
  stage mp = QCHECK → case_QCHECK mp = Some (m, mp') →
  never_hash (ttMove mp) m mp'.
Proof.
  intros Hst Hc. unfold case_QCHECK in Hc.
  destruct (select_yield _ _ _ _ _ accept_all_mild Hc) as (Ht & Hs & Hy).
  split; [done|]. rewrite Hs, Hst. split; [done|]. tauto.
Qed.

Lemma case_QCHECK_INIT_hash mp m mp' :
  stage mp = QCHECK_INIT → case_QCHECK_INIT mp = Some (m, mp') →
  never_hash (ttMove mp) m mp'.
Proof.
  intros Hst Hc. unfold case_QCHECK_INIT in Hc.
  apply bind_Some in Hc as ([e mp1] & Hg & Hc).
  apply generate_moves_shape in Hg as (b1 & ->).
  apply case_QCHECK_hash in Hc; [done|]. simpl. by rewrite Hst.
Qed.

Lemma case_QCAPTURE_hash mp m mp' :
  stage mp = QCAPTURE → case_QCAPTURE mp = Some (m, mp') →
  never_hash (ttMove mp) m mp'.
Proof.
  intros Hst Hc. unfold case_QCAPTURE in Hc. selected m1 mp1 Hsel.
  destruct (is_move m1) eqn:Hm.
  - eapply (yield_found _ m m1 mp1); eauto. by rewrite Hs, Hst.
  - apply bind_Some in Hc as (d & _ & Hc). destruct (negb _).
    + injection Hc as <- <-. split; [done|]. rewrite Hs, Hst. auto.
    + apply case_QCHECK_INIT_hash in Hc; [done|]. simpl. by rewrite Hs, Hst.
Qed.

(** Outside the hash-move stages [next_move] never returns the hash move,
    and never enters a hash-move stage. *)
Lemma next_move_never_hash b mp m mp' :
  is_tt_stage (stage mp) = false →
  next_move b mp = Some (m, mp') →
  never_hash (ttMove mp) m mp'.
Proof.
  intros Hs Hn. unfold next_move in Hn. simpl in Hn.
  destruct (stage mp) eqn:Hst; try done;
    try (apply bind_Some in Hn as (mp1 & Hi & Hn);
         apply capture_init_shape in Hi as (b1 & e1 & ->);
         simpl in Hn; rewrite Hst in Hn; simpl in Hn).
  - apply (case_GOOD_CAPTURE_hash b) in Hn; [done|]. simpl. by rewrite Hst.
  - by apply (case_GOOD_CAPTURE_hash b) in Hn.
  - by apply (case_REFUTATION_hash b) in Hn.
  - by apply (case_QUIET_INIT_hash b) in Hn.
  - by apply (case_GOOD_QUIET_hash b) in Hn.
  - by apply (case_BAD_CAPTURE_hash b) in Hn.
  - by apply (case_BAD_QUIET_hash b) in Hn.
  - by apply case_EVASION_INIT_hash in Hn.
  - by apply case_EVASION_hash in Hn.
  - apply case_PROBCUT_hash in Hn; [done|]. simpl. by rewrite Hst.
  - by apply case_PROBCUT_hash in Hn.
  - apply case_QCAPTURE_hash in Hn; [done|]. simpl. by rewrite Hst.
  - by apply case_QCAPTURE_hash in Hn.
  - by apply case_QCHECK_INIT_hash in Hn.
  - by apply case_QCHECK_hash in Hn.
Qed.

(** Over any number of further calls. *)
Lemma run_never_hash mp skips :
  is_tt_stage (stage mp) = false → ttMove mp ≠ Move_none →
  ttMove mp ∉ yielded mp skips.
Proof.
  revert mp. induction skips as [|b skips IH]; intros mp Hs Hne.
  - apply not_elem_of_nil.
  - unfold yielded. simpl.
    destruct (next_move b mp) as [[m mp']|] eqn:Hn; [|apply not_elem_of_nil].
    destruct (next_move_never_hash b mp m mp' Hs Hn) as (Ht & Hs' & Hm).
    simpl. apply not_elem_of_cons. split.
    + destruct Hm as [->|Hm]; congruence.
    + rewrite <- Ht. apply (IH mp'); congruence.
Qed.

Lemma tt_valid_is_move p c : tt_valid p c = true → hash_move c ≠ Move_none.
Proof.
  destruct c; simpl; intros Hv; apply is_move_true;
    repeat (apply andb_prop in Hv as [Hv _]); done.
Qed.

Lemma construct_stage p c :
  stage (construct p c) =
    stage_add
      match c with
      | MainSearch _ _ _ _ _ _ _ _ _ => if checkers p then EVASION_TT else MAIN_TT
      | QSearch _ _ _ _ _ _ => if checkers p then EVASION_TT else QSEARCH_TT
      | ProbCut _ _ _ => PROBCUT_TT
      end (negb (tt_valid p c)).
Proof. by destruct c. Qed.

Lemma construct_ttMove p c : ttMove (construct p c) = hash_move c.
Proof. by destruct c. Qed.

(** C1: when the hash move passes the test of its constructor, the first
    call of [next_move] returns it, and no later call does, whatever the
    [skipQuiets] arguments: it is yielded exactly once. *)
Theorem hash_move_first_and_once (p : Position) (c : Context)
    (b : bool) (skips : list bool) :
  tt_valid p c = true →
  ∃ mp1,
    next_move b (construct p c) = Some (hash_move c, mp1) ∧
    (∃ s, is_tt_stage s = true ∧
          run (construct p c) (b :: skips) = (s, hash_move c) :: run mp1 skips) ∧
    hash_move c ∉ yielded mp1 skips.
Proof.
  intros Hv.
  pose proof (construct_stage p c) as Hst. rewrite Hv in Hst. simpl in Hst.
  pose proof (construct_ttMove p c) as Htt.
  assert (is_tt_stage (stage (construct p c)) = true) as Hs.
  { rewrite Hst. by destruct c, (checkers p). }
  assert (next_move b (construct p c)
          = Some (hash_move c, incr_stage (construct p c))) as Hn.
  { unfold next_move. simpl. rewrite <- Htt.
    destruct (stage (construct p c)); done. }
  exists (incr_stage (construct p c)). split; [done|]. split.
  - exists (stage (construct p c)). split; [done|].
    simpl. rewrite Hn. unfold yield_stage. by rewrite Hs.
  - rewrite <- Htt.
    apply (run_never_hash (incr_stage (construct p c))).
    + simpl. rewrite Hst. by destruct c, (checkers p).
    + simpl. rewrite Htt. by apply (tt_valid_is_move p).
Qed.
End hash_move.

(** ** Scanning with a predicate that only reads *)

Section scanning.
Context `{TypesH}.
Implicit Types (mp : MovePicker) (m : Move) (filter : Pred).

(** [select<Next>] from index [i0] over [n] slots of region [r], with a
    predicate that computes [P] of the slot under the cursor and changes
    nothing: the result is the first slot that is not the hash move and
    is accepted. *)
Lemma select_loop_scan filter (P : ExtMove → option bool) mp0 r i0 n m mp' :
  (∀ i c, region_of mp0 r !! i = Some c →
          filter (set_cur (At r i) mp0)
            = (ok ← P c; Some (ok, set_cur (At r i) mp0))) →
  select_loop Next filter n (set_cur (At r i0) mp0) = Some (m, mp') →
  let rejected c := move c = ttMove mp0 ∨ P c = Some false in
  (m = Move_none ∧ mp' = set_cur (At r (i0 + n)) mp0 ∧
   ∀ j c, (i0 ≤ j < i0 + n)%nat → region_of mp0 r !! j = Some c → rejected c)
  ∨
  (∃ i c, (i0 ≤ i < i0 + n)%nat ∧ region_of mp0 r !! i = Some c ∧
          m = move c ∧ move c ≠ ttMove mp0 ∧ P c = Some true ∧
          mp' = set_cur (At r (S i)) mp0 ∧
          ∀ j c', (i0 ≤ j < i)%nat → region_of mp0 r !! j = Some c' → rejected c').
Proof.
  intros Hf Hsel rejected.
  pattern m, mp'.
  refine (select_loop_rule Next filter
    (λ k mp, ∃ i, mp = set_cur (At r i) mp0 ∧ (i + k = i0 + n)%nat ∧ (i0 ≤ i)%nat ∧
                  ∀ j c, (i0 ≤ j < i)%nat → region_of mp0 r !! j = Some c → rejected c)
    _ _ _ n (set_cur (At r i0) mp0) m mp' _ Hsel).
  - intros mp (i & -> & Hi & _ & Hrej). left.
    replace (i0 + n)%nat with i by lia. split; [done|]. split; [done|].
    intros j c Hj. apply Hrej. lia.
  - intros k mp mp1 c (i & -> & Hi & Hle & Hrej) [= <-] Hc.
    assert (region_of mp0 r !! i = Some c) as Hc' by (by destruct r).
    simpl. split.
    + intros Htt. exists (S i). split; [done|]. split; [lia|]. split; [lia|].
      intros j c' Hj Hjc. destruct (decide (j = i)) as [->|Hne].
      * rewrite Hc' in Hjc. injection Hjc as <-. by left.
      * apply (Hrej j); [lia|done].
    + intros Hne ok mp2. rewrite (Hf i c Hc').
      intros Hp. apply bind_Some in Hp as (ok' & HP & [= <- <-]).
      destruct ok'.
      * intros e He. rewrite deref_set_cur in He. simpl in He.
        assert (e = c) as -> by (destruct r; simpl in *; congruence).
        right. exists i, c. repeat split; try done; lia.
      * exists (S i). split; [done|]. split; [lia|]. split; [lia|].
        intros j c' Hj Hjc. destruct (decide (j = i)) as [->|Hne'].
        -- rewrite Hc' in Hjc. injection Hjc as <-. by right.
        -- apply (Hrej j); [lia|done].
  - exists i0. split; [done|]. split; [lia|]. split; [lia|]. intros j c Hj. lia.
Qed.

Lemma set_cur_cur mp : set_cur (cur mp) mp = mp.
Proof. by destruct mp. Qed.

Lemma generate_at_nil ms : generate_at ms 0 [] = map (λ m, mkExtMove m 0) ms.
Proof.
  unfold generate_at, splice. simpl. rewrite drop_nil. apply app_nil_r.
Qed.

Lemma slice_all (l : list ExtMove) : slice 0 (length l) l = l.
Proof. unfold slice. rewrite Nat.sub_0_r. simpl. by apply take_ge. Qed.

Lemma splice_all (l new : list ExtMove) : splice 0 (length l) new l = new.
Proof.
  unfold splice. simpl. rewrite drop_all. apply app_nil_r.
Qed.

(** CAPTURE_INIT, PROBCUT_INIT or QCAPTURE_INIT on a picker whose buffer
    has not been written. *)
Lemma capture_init_fresh mp :
  moves mp = [] →
  capture_init mp =
    Some (incr_stage
            (set_moves (sorted_captures (pos mp))
               (set_endMoves (At Moves (length (generate (pos mp) CAPTURES)))
                  (set_endBadCaptures (At Moves 0) (set_cur (At Moves 0) mp))))).
Proof.
  intros Hm. unfold capture_init, generate_moves. simpl. rewrite Hm.
  rewrite generate_at_nil.
  set (ms := generate (pos mp) CAPTURES).
  set (l0 := map (λ m, mkExtMove m 0) ms).
  assert (length l0 = length ms) as Hl by (unfold l0; by rewrite length_map).
  rewrite (score_defined CAPTURES _ 0 (length l0) (capture_value (pos mp)));
    [|done|simpl; by rewrite Hl|done].
  simpl. unfold sort_moves. simpl.
  rewrite slice_all, splice_all.
  set (l1 := map _ l0).
  assert (l1 = scored_captures (pos mp)) as ->.
  { unfold l1, l0, scored_captures. by rewrite map_map. }
  assert (length (scored_captures (pos mp)) = length ms) as Hl1.
  { unfold scored_captures. by rewrite length_map. }
  rewrite <- Hl1, slice_all, splice_all. done.
Qed.

Lemma sorted_captures_perm p : sorted_captures p ≡ₚ scored_captures p.
Proof. apply partial_insertion_sort_perm. Qed.

Lemma sorted_captures_sorted p : StronglySorted ge_value (sorted_captures p).
Proof.
  destruct (partial_insertion_sort_prefix (scored_captures p) INT_MIN)
    as (k & Hs & Hp).
  fold (sorted_captures p) in Hs, Hp.
  assert (filter (meets INT_MIN) (scored_captures p) = scored_captures p) as Hall.
  { unfold scored_captures. induction (generate p CAPTURES) as [|m l IH]; [done|].
    simpl. rewrite filter_cons_True by apply wrap32_meets_INT_MIN. by rewrite IH. }
  rewrite Hall in Hp. rewrite take_ge in Hs; [done|].
  apply Permutation_length in Hp. rewrite length_take in Hp.
  pose proof (Permutation_length (sorted_captures_perm p)). lia.
Qed.

Lemma elem_of_sorted_captures p c :
  c ∈ sorted_captures p ↔
  move c ∈ generate p CAPTURES ∧ value c = capture_value p (move c).
Proof.
  rewrite (sorted_captures_perm p). unfold scored_captures.
  rewrite list_elem_of_fmap. split.
  - intros (m & -> & Hm). done.
  - intros [Hm Hv]. exists (move c). split; [|done]. destruct c. simpl in *. by subst.
Qed.

Lemma sorted_lookup_ge (l : list ExtMove) i j x y :
  StronglySorted ge_value l → (i ≤ j)%nat → l !! i = Some x → l !! j = Some y →
  value y <= value x.
Proof.
  intros Hs Hij Hx Hy. destruct (decide (i = j)) as [->|Hne].
  - rewrite Hx in Hy. injection Hy as ->. lia.
  - rewrite <- (take_drop_middle l i x Hx) in Hs, Hy.
    apply StronglySorted_app_1_r in Hs. apply StronglySorted_cons in Hs as [Hf _].
    rewrite lookup_app_r in Hy by (rewrite length_take; lia).
    apply lookup_lt_Some in Hx as Hlt.
    rewrite length_take in Hy.
    replace (j - i `min` length l)%nat with (S (j - S i)) in Hy by lia.
    simpl in Hy. apply list_elem_of_lookup_2 in Hy.
    rewrite Forall_forall in Hf. by apply Hf.
Qed.
End scanning.

(** ** Probing *)

Section probing.
Context `{TypesH}.
Implicit Types (mp : MovePicker) (m : Move) (filter : Pred).

(** The scan is defined as long as the slots exist and the predicate is
    defined on them. *)
Lemma select_loop_scan_defined filter (P : ExtMove → option bool) mp0 r n :
  (∀ i c, region_of mp0 r !! i = Some c →
          filter (set_cur (At r i) mp0)
            = (ok ← P c; Some (ok, set_cur (At r i) mp0))) →
  (∀ c, c ∈ region_of mp0 r → is_Some (P c)) →
  ∀ i0, (i0 + n ≤ length (region_of mp0 r))%nat →
  is_Some (select_loop Next filter n (set_cur (At r i0) mp0)).
Proof.
  intros Hf HP. induction n as [|n IH]; intros i0 Hlen; simpl.
  - done.
  - destruct (lookup_lt_is_Some_2 (region_of mp0 r) i0 ltac:(lia)) as [c Hc].
    assert (region_of (set_cur (At r i0) mp0) r !! i0 = Some c) as Hc'
      by (by destruct r).
    rewrite Hc'. simpl. rewrite (Hf i0 c Hc).
    destruct (HP c (list_elem_of_lookup_2 _ _ _ Hc)) as [ok Hok]. rewrite Hok. simpl.
    destruct (negb _); [destruct ok|]; simpl.
    + rewrite Hc'. done.
    + apply IH. lia.
    + apply IH. lia.
Qed.

Lemma meets_threshold_reads mp0 th i c :
  threshold mp0 = Some th →
  region_of mp0 Moves !! i = Some c →
  meets_threshold (set_cur (At Moves i) mp0)
    = (ok ← Some (see_ge (pos mp0) (move c) th);
       Some (ok, set_cur (At Moves i) mp0)).
Proof.
  intros Hth Hc. unfold meets_threshold. simpl in *. rewrite Hc, Hth. done.
Qed.

(** The first call on a picker that stands at PROBCUT_INIT. *)
Lemma probcut_first_move b mp th :
  stage mp = PROBCUT_INIT → moves mp = [] → threshold mp = Some th →
  see_ge (pos mp) (ttMove mp) th = false →
  ∃ m mp1,
    next_move b mp = Some (m, mp1) ∧
    ((m ∈ generate (pos mp) CAPTURES ∧ see_ge (pos mp) m th = true ∧
      ∀ m', m' ∈ generate (pos mp) CAPTURES → see_ge (pos mp) m' th = true →
            capture_value (pos mp) m' <= capture_value (pos mp) m)
     ∨
     (m = Move_none ∧
      ∀ m', m' ∈ generate (pos mp) CAPTURES → see_ge (pos mp) m' th = false)).
Proof.
  intros Hst Hmv Hth Hsee.
  set (p := pos mp) in *.
  set (n := length (generate p CAPTURES)).
  set (mpS := incr_stage
                (set_moves (sorted_captures p)
                   (set_endMoves (At Moves n)
                      (set_endBadCaptures (At Moves 0) (set_cur (At Moves 0) mp))))).
  assert (next_move b mp = select_loop Next meets_threshold n (set_cur (At Moves 0) mpS))
    as Hnext.
  { unfold next_move. simpl next_move_from. rewrite Hst.
    rewrite (capture_init_fresh mp) by done. fold p n mpS.
    simpl. rewrite Hst. simpl.
    unfold case_PROBCUT, select. simpl. by rewrite Nat.sub_0_r. }
  assert (length (sorted_captures p) = n) as Hlen.
  { rewrite (Permutation_length (sorted_captures_perm p)).
    unfold scored_captures. by rewrite length_map. }
  assert (threshold mpS = Some th) as Hth' by done.
  pose proof (select_loop_scan_defined meets_threshold
                (λ c, Some (see_ge p (move c) th)) mpS Moves n) as Hdef.
  destruct (Hdef (λ i c, meets_threshold_reads mpS th i c Hth') ltac:(eauto) 0%nat)
    as [[m mp1] Hsel]; [simpl; lia|].
  exists m, mp1. rewrite Hnext. split; [done|].
  apply (select_loop_scan meets_threshold (λ c, Some (see_ge p (move c) th)))
    in Hsel; [|exact (λ i c, meets_threshold_reads mpS th i c Hth')].
  simpl in Hsel.
  assert (∀ m', m' ∈ generate p CAPTURES →
            ∃ j, sorted_captures p !! j = Some (mkExtMove m' (capture_value p m'))
                 ∧ (j < n)%nat) as Hidx.
  { intros m' Hm'.
    assert (mkExtMove m' (capture_value p m') ∈ sorted_captures p) as Hin
      by (by apply elem_of_sorted_captures).
    apply list_elem_of_lookup_1 in Hin as [j Hj]. exists j. split; [done|].
    apply lookup_lt_Some in Hj. lia. }
  destruct Hsel as [(-> & _ & Hrej)|(i & c & Hi & Hc & -> & Hctt & HP & _ & Hrej)].
  - right. split; [done|]. intros m' Hm'.
    destruct (Hidx m' Hm') as (j & Hj & Hjn).
    destruct (Hrej j _ ltac:(lia) Hj) as [Ht|Hf]; simpl in *; congruence.
  - left. injection HP as HP.
    assert (c ∈ sorted_captures p) as Hcin by (by eapply list_elem_of_lookup_2).
    apply elem_of_sorted_captures in Hcin as [Hcm Hcv].
    split; [done|]. split; [done|]. intros m' Hm' Hsee'.
    destruct (Hidx m' Hm') as (j & Hj & Hjn).
    destruct (decide (j < i)%nat) as [Hlt|Hge].
    + destruct (Hrej j _ ltac:(lia) Hj) as [Ht|Hf]; simpl in *; congruence.
    + rewrite <- Hcv.
      apply (sorted_lookup_ge (sorted_captures p) i j c
               (mkExtMove m' (capture_value p m')));
        [apply sorted_captures_sorted|lia|done|done].
Qed.

Lemma probcut_stage_skipped p ttm th cph :
  see_ge p ttm th = false → stage (MovePicker_probcut p ttm th cph) = PROBCUT_INIT.
Proof. intros Hsee. simpl. rewrite Hsee. by rewrite !andb_false_r. Qed.

(** C6: a probing picker built with threshold 0 and a hash move whose
    static exchange is below 0 starts past the hash-move stage and never
    yields the hash move; its first move is, among the generated captures
    whose static exchange is at least 0, one of greatest score (or the
    none-sentinel when there is no such capture). *)
Theorem probcut_failing_hash_move_skipped (p : Position) (ttm : Move)
    (cph : CapturePieceToHistory) (b : bool) (skips : list bool) :
  ttm ≠ Move_none →
  see_ge p ttm 0 = false →
  let mp := MovePicker_probcut p ttm 0 cph in
  stage mp = PROBCUT_INIT ∧
  (ttm ∉ yielded mp (b :: skips)) ∧
  ∃ m mp1,
    next_move b mp = Some (m, mp1) ∧
    ((m ∈ generate p CAPTURES ∧ see_ge p m 0 = true ∧
      ∀ m', m' ∈ generate p CAPTURES → see_ge p m' 0 = true →
            capture_value p m' <= capture_value p m)
     ∨
     (m = Move_none ∧
      ∀ m', m' ∈ generate p CAPTURES → see_ge p m' 0 = false)).
Proof.
  intros Hne Hsee mp.
  pose proof (probcut_stage_skipped p ttm 0 cph Hsee) as Hst.
  split; [exact Hst|]. split.
  - apply (run_never_hash (MovePicker_probcut p ttm 0 cph) (b :: skips)); [|done].
    by rewrite Hst.
  - exact (probcut_first_move b (MovePicker_probcut p ttm 0 cph) 0 Hst eq_refl eq_refl Hsee).
Qed.
End probing.

(** ** The capture-history and pawn-history tables are not read *)

Section tables.
Context `{TypesH}.
Variable cph' : CapturePieceToHistory.
Variable ph' : option PawnHistory.

Local Abbreviation wt := (with_tables cph' ph').
Local Abbreviation lift := (prod_map id (with_tables cph' ph')).

Implicit Types (mp : MovePicker) (m : Move) (filter : Pred).

Lemma store_wt p e mp : wt <$> store p e mp = store p e (wt mp).
Proof.
  unfold store. destruct p as [[] i|]; [| |done]; simpl; case_decide; done.
Qed.

Local Arguments store : simpl never.
Local Arguments swap_best : simpl never.
Local Arguments score : simpl never.
Local Arguments sort_moves : simpl never.
Local Arguments generate_moves : simpl never.
Local Arguments return_prev : simpl never.
Local Arguments select : simpl never.
Local Arguments capture_init : simpl never.
Local Arguments case_BAD_QUIET : simpl never.
Local Arguments case_BAD_CAPTURE : simpl never.
Local Arguments to_bad_captures : simpl never.
Local Arguments case_GOOD_QUIET : simpl never.
Local Arguments case_QUIET_INIT : simpl never.
Local Arguments case_REFUTATION : simpl never.
Local Arguments case_GOOD_CAPTURE : simpl never.
Local Arguments case_EVASION : simpl never.
Local Arguments case_EVASION_INIT : simpl never.
Local Arguments case_PROBCUT : simpl never.
Local Arguments case_QCHECK : simpl never.
Local Arguments case_QCHECK_INIT : simpl never.
Local Arguments case_QCAPTURE : simpl never.
Local Arguments with_tables : simpl never.

Lemma swap_best_wt mp : wt <$> swap_best mp = swap_best (wt mp).
Proof.
  unfold swap_best. simpl.
  destruct (cur mp) as [r i|]; [|done].
  destruct (endMoves mp) as [r' j|]; [|done]. case_decide; [|done].
  change (region_of (wt mp) r) with (region_of mp r).
  destruct (max_element (region_of mp r) i j) as [k|]; [|done]. simpl.
  change (region_of (wt mp) r) with (region_of mp r).
  destruct (region_of mp r !! i) as [x|]; [|done]. simpl.
  destruct (region_of mp r !! k) as [y|]; [|done]. simpl.
  rewrite <- store_wt.
  destruct (store (At r i) y mp) as [mp1|]; [|done]. simpl.
  apply store_wt.
Qed.

Lemma score_wt T mp : wt <$> score T mp = score T (wt mp).
Proof.
  unfold score. simpl.
  destruct (cur mp) as [[] i|]; try done.
  destruct (endMoves mp) as [[] j|]; try done.
  change (score_one T (wt mp)) with (score_one T mp).
  destruct (mapM (score_one T mp) _); done.
Qed.

Lemma sort_moves_wt limit mp : wt <$> sort_moves limit mp = sort_moves limit (wt mp).
Proof.
  unfold sort_moves. simpl.
  destruct (cur mp) as [[] i|]; try done.
  destruct (endMoves mp) as [[] j|]; done.
Qed.

Lemma generate_moves_wt T mp :
  prod_map id wt <$> generate_moves T mp = generate_moves T (wt mp).
Proof.
  unfold generate_moves. simpl. destruct (cur mp) as [[] i|]; done.
Qed.

Lemma return_prev_wt mp : lift <$> return_prev mp = return_prev (wt mp).
Proof.
  unfold return_prev. simpl. destruct (ptr_pred (cur mp)) as [p|]; [|done]. simpl.
  change (deref (wt mp) p) with (deref mp p).
  destruct (deref mp p); done.
Qed.

Lemma accept_all_wt : tables_blind cph' ph' accept_all.
Proof. done. Qed.

Lemma good_capture_wt : tables_blind cph' ph' good_capture.
Proof.
  intros mp. unfold good_capture.
  change (deref (wt mp) (cur (wt mp))) with (deref mp (cur mp)).
  destruct (deref mp (cur mp)) as [c|]; [|done]. simpl.
  destruct (see_ge (pos mp) (move c) _); [done|].
  rewrite <- store_wt. simpl. destruct (store (endBadCaptures mp) c mp); done.
Qed.

Lemma playable_refutation_wt : tables_blind cph' ph' playable_refutation.
Proof.
  intros mp. unfold playable_refutation.
  change (deref (wt mp) (cur (wt mp))) with (deref mp (cur mp)).
  destruct (deref mp (cur mp)); done.
Qed.

Lemma not_refutation_wt : tables_blind cph' ph' not_refutation.
Proof.
  intros mp. unfold not_refutation.
  change (deref (wt mp) (cur (wt mp))) with (deref mp (cur mp)). simpl.
  destruct (deref mp (cur mp)); [|done]. simpl.
  destruct (refutations mp !! 0%nat); [|done]. simpl.
  destruct (refutations mp !! 1%nat); [|done]. simpl.
  destruct (refutations mp !! 2%nat); done.
Qed.

Lemma meets_threshold_wt : tables_blind cph' ph' meets_threshold.
Proof.
  intros mp. unfold meets_threshold.
  change (deref (wt mp) (cur (wt mp))) with (deref mp (cur mp)). simpl.
  destruct (deref mp (cur mp)); [|done]. simpl.
  destruct (threshold mp); done.
Qed.

Lemma select_loop_wt T filter n mp :
  tables_blind cph' ph' filter →
  lift <$> select_loop T filter n mp = select_loop T filter n (wt mp).
Proof.
  intros Hf. revert mp. induction n as [|n IH]; intros mp; simpl; [done|].
  assert (wt <$> match T with Best => swap_best mp | Next => Some mp end
          = match T with Best => swap_best (wt mp) | Next => Some (wt mp) end) as <-.
  { destruct T; [done|apply swap_best_wt]. }
  destruct (match T with Best => swap_best mp | Next => Some mp end) as [mp1|];
    [|done]. simpl.
  change (deref (wt mp1) (cur mp1)) with (deref mp1 (cur mp1)).
  destruct (deref mp1 (cur mp1)) as [c|]; [|done]. simpl.
  destruct (negb _).
  - rewrite <- (Hf mp1). destruct (filter mp1) as [[ok mp2]|]; [|done]. simpl.
    destruct ok.
    + change (deref (wt mp2) (cur mp2)) with (deref mp2 (cur mp2)).
      destruct (deref mp2 (cur mp2)); done.
    + apply (IH (set_cur (ptr_succ (cur mp2)) mp2)).
  - apply (IH (set_cur (ptr_succ (cur mp1)) mp1)).
Qed.

Lemma select_wt T filter mp :
  tables_blind cph' ph' filter →
  lift <$> select T filter mp = select T filter (wt mp).
Proof.
  intros Hf. unfold select. simpl.
  destruct (ptr_diff (endMoves mp) (cur mp)) as [n|]; [|done]. simpl.
  by apply select_loop_wt.
Qed.

Lemma case_BAD_QUIET_wt b mp :
  lift <$> case_BAD_QUIET b mp = case_BAD_QUIET b (wt mp).
Proof.
  unfold case_BAD_QUIET. destruct b; [done|]. simpl.
  apply select_wt, not_refutation_wt.
Qed.

Lemma case_BAD_CAPTURE_wt b mp :
  lift <$> case_BAD_CAPTURE b mp = case_BAD_CAPTURE b (wt mp).
Proof.
  unfold case_BAD_CAPTURE. rewrite <- (select_wt _ _ mp accept_all_wt).
  destruct (select Next accept_all mp) as [[m mp1]|]; [|done]. simpl.
  destruct (is_move m); [apply return_prev_wt|apply (case_BAD_QUIET_wt b)].
Qed.

Lemma to_bad_captures_wt b mp :
  lift <$> to_bad_captures b mp = to_bad_captures b (wt mp).
Proof. unfold to_bad_captures. apply (case_BAD_CAPTURE_wt b). Qed.

Lemma case_GOOD_QUIET_wt b mp :
  lift <$> case_GOOD_QUIET b mp = case_GOOD_QUIET b (wt mp).
Proof.
  unfold case_GOOD_QUIET. destruct b; simpl; [apply to_bad_captures_wt|].
  rewrite <- (select_wt _ _ mp not_refutation_wt).
  destruct (select Next not_refutation mp) as [[m mp1]|]; [|done]. simpl.
  destruct (is_move m); [|apply to_bad_captures_wt].
  destruct (ptr_pred (cur mp1)) as [p|]; [|done]. simpl.
  change (deref (wt mp1) p) with (deref mp1 p).
  destruct (deref mp1 p) as [e|]; [|done]. simpl.
  destruct (depth mp1) as [d|]; [|done]. simpl.
  destruct (_ || _); [apply return_prev_wt|].
  apply (to_bad_captures_wt false).
Qed.

Lemma case_QUIET_INIT_wt b mp :
  lift <$> case_QUIET_INIT b mp = case_QUIET_INIT b (wt mp).
Proof.
  unfold case_QUIET_INIT. destruct b; simpl.
  { apply (case_GOOD_QUIET_wt true). }
  change (set_cur (endBadCaptures mp) (wt mp))
    with (wt (set_cur (endBadCaptures mp) mp)).
  rewrite <- (generate_moves_wt QUIETS (set_cur (endBadCaptures mp) mp)).
  destruct (generate_moves QUIETS _) as [[e mp1]|]; [|done]. simpl.
  change (set_endMoves e (set_beginBadQuiets e (set_endBadQuiets e (wt mp1))))
    with (wt (set_endMoves e (set_beginBadQuiets e (set_endBadQuiets e mp1)))).
  rewrite <- (score_wt QUIETS
                (set_endMoves e (set_beginBadQuiets e (set_endBadQuiets e mp1)))).
  destruct (score QUIETS _) as [mp3|]; [|done]. simpl.
  destruct (depth mp3) as [d|]; [|done]. simpl.
  rewrite <- sort_moves_wt.
  destruct (sort_moves _ mp3) as [mp4|]; [|done]. simpl.
  apply (case_GOOD_QUIET_wt false).
Qed.

Lemma case_REFUTATION_wt b mp :
  lift <$> case_REFUTATION b mp = case_REFUTATION b (wt mp).
Proof.
  unfold case_REFUTATION. rewrite <- (select_wt _ _ mp playable_refutation_wt).
  destruct (select Next playable_refutation mp) as [[m mp1]|]; [|done]. simpl.
  destruct (is_move m); [apply return_prev_wt|apply (case_QUIET_INIT_wt b)].
Qed.

Lemma case_GOOD_CAPTURE_wt b mp :
  lift <$> case_GOOD_CAPTURE b mp = case_GOOD_CAPTURE b (wt mp).
Proof.
  unfold case_GOOD_CAPTURE. rewrite <- (select_wt _ _ mp good_capture_wt).
  destruct (select Next good_capture mp) as [[m mp1]|]; [|done]. simpl.
  destruct (is_move m); [apply return_prev_wt|].
  destruct (refutations mp1 !! 0%nat); [|done]. simpl.
  destruct (refutations mp1 !! 1%nat); [|done]. simpl.
  destruct (refutations mp1 !! 2%nat); [|done]. simpl.
  apply (case_REFUTATION_wt b).
Qed.

Lemma capture_init_wt mp : wt <$> capture_init mp = capture_init (wt mp).
Proof.
  unfold capture_init.
  change (set_endBadCaptures (At Moves 0) (set_cur (At Moves 0) (wt mp)))
    with (wt (set_endBadCaptures (At Moves 0) (set_cur (At Moves 0) mp))).
  rewrite <- (generate_moves_wt CAPTURES
                (set_endBadCaptures (At Moves 0) (set_cur (At Moves 0) mp))).
  destruct (generate_moves CAPTURES _) as [[e mp1]|]; [|done]. simpl.
  change (set_endMoves e (wt mp1)) with (wt (set_endMoves e mp1)).
  rewrite <- (score_wt CAPTURES (set_endMoves e mp1)).
  destruct (score CAPTURES _) as [mp2|]; [|done]. simpl.
  rewrite <- sort_moves_wt.
  destruct (sort_moves _ mp2) as [mp3|]; done.
Qed.

Lemma case_EVASION_wt mp : lift <$> case_EVASION mp = case_EVASION (wt mp).
Proof. apply select_wt, accept_all_wt. Qed.

Lemma case_EVASION_INIT_wt mp :
  lift <$> case_EVASION_INIT mp = case_EVASION_INIT (wt mp).
Proof.
  unfold case_EVASION_INIT.
  change (set_cur (At Moves 0) (wt mp)) with (wt (set_cur (At Moves 0) mp)).
  rewrite <- (generate_moves_wt EVASIONS (set_cur (At Moves 0) mp)).
  destruct (generate_moves EVASIONS _) as [[e mp1]|]; [|done]. simpl.
  change (set_endMoves e (wt mp1)) with (wt (set_endMoves e mp1)).
  rewrite <- (score_wt EVASIONS (set_endMoves e mp1)).
  destruct (score EVASIONS _) as [mp2|]; [|done]. simpl.
  apply case_EVASION_wt.
Qed.

Lemma case_PROBCUT_wt mp : lift <$> case_PROBCUT mp = case_PROBCUT (wt mp).
Proof. apply select_wt, meets_threshold_wt. Qed.

Lemma case_QCHECK_wt mp : lift <$> case_QCHECK mp = case_QCHECK (wt mp).
Proof. apply select_wt, accept_all_wt. Qed.

Lemma case_QCHECK_INIT_wt mp :
  lift <$> case_QCHECK_INIT mp = case_QCHECK_INIT (wt mp).
Proof.
  unfold case_QCHECK_INIT.
  change (set_cur (At Moves 0) (wt mp)) with (wt (set_cur (At Moves 0) mp)).
  rewrite <- (generate_moves_wt QUIET_CHECKS (set_cur (At Moves 0) mp)).
  destruct (generate_moves QUIET_CHECKS _) as [[e mp1]|]; [|done]. simpl.
  apply case_QCHECK_wt.
Qed.

Lemma case_QCAPTURE_wt mp : lift <$> case_QCAPTURE mp = case_QCAPTURE (wt mp).
Proof.
  unfold case_QCAPTURE. rewrite <- (select_wt _ _ mp accept_all_wt).
  destruct (select Next accept_all mp) as [[m mp1]|]; [|done]. simpl.
  destruct (is_move m); [apply return_prev_wt|].
  destruct (depth mp1) as [d|]; [|done]. simpl.
  destruct (negb _); [done|]. apply case_QCHECK_INIT_wt.
Qed.

Lemma next_move_from_wt g b mp :
  lift <$> next_move_from g b mp = next_move_from g b (wt mp).
Proof.
  revert mp. induction g as [|g IH]; intros mp; simpl;
    destruct (stage mp); try done;
    try (rewrite <- capture_init_wt;
         destruct (capture_init mp) as [mp1|]; [|done]; apply IH);
    auto using case_GOOD_CAPTURE_wt, case_REFUTATION_wt, case_QUIET_INIT_wt,
      case_GOOD_QUIET_wt, case_BAD_CAPTURE_wt, case_BAD_QUIET_wt,
      case_EVASION_INIT_wt, case_EVASION_wt, case_PROBCUT_wt, case_QCAPTURE_wt,
      case_QCHECK_INIT_wt, case_QCHECK_wt.
Qed.

Lemma run_wt mp skips : run (wt mp) skips = run mp skips.
Proof.
  revert mp. induction skips as [|b skips IH]; intros mp; simpl; [done|].
  unfold next_move. rewrite <- next_move_from_wt.
  destruct (next_move_from 1 b mp) as [[m mp1]|]; [|done]. simpl.
  by rewrite IH.
Qed.
End tables.

Section tables_claim.
Context `{TypesH}.

Lemma construct_replace_tables p c cph' ph' :
  construct p (replace_tables cph' ph' c)
    = with_tables cph' (match c with ProbCut _ _ _ => None | _ => Some ph' end)
        (construct p c).
Proof. by destruct c. Qed.

(** C10: two pickers built in the same context except for the capture-
    history and the pawn-history tables yield the same moves, from the same
    stages, under any sequence of calls. *)
Theorem tables_never_read (p : Position) (c : Context)
    (cph' : CapturePieceToHistory) (ph' : PawnHistory) (skips : list bool) :
  run (construct p (replace_tables cph' ph' c)) skips = run (construct p c) skips ∧
  yielded (construct p (replace_tables cph' ph' c)) skips
    = yielded (construct p c) skips.
Proof.
  unfold yielded. rewrite construct_replace_tables, run_wt. done.
Qed.
End tables_claim.



(** ** The main-search path *)

Section capture_lists.
Context `{TypesH}.
Variable p : Position.
Variable tt : Move.
Implicit Types (l buf : list ExtMove) (x : ExtMove) (c e : nat).

Lemma bads_snoc_in l x :
  move x ≠ tt → good_see p x = false → bads p tt (l ++ [x]) = bads p tt l ++ [x].
Proof.
  intros. unfold bads. rewrite filter_app. f_equal. by rewrite filter_cons_True.
Qed.

Lemma bads_snoc_out l x :
  ¬ (move x ≠ tt ∧ good_see p x = false) → bads p tt (l ++ [x]) = bads p tt l.
Proof.
  intros. unfold bads. rewrite filter_app, filter_cons_False by done.
  apply app_nil_r.
Qed.

Lemma goods_drop_out l c x :
  l !! c = Some x → ¬ (move x ≠ tt ∧ good_see p x = true) →
  goods p tt (drop c l) = goods p tt (drop (S c) l).
Proof.
  intros Hx Hn. rewrite (drop_S l x c Hx). unfold goods. by rewrite filter_cons_False.
Qed.

Lemma goods_drop_in l c x :
  l !! c = Some x → move x ≠ tt → good_see p x = true →
  goods p tt (drop c l) = x :: goods p tt (drop (S c) l).
Proof.
  intros Hx ? ?. rewrite (drop_S l x c Hx). unfold goods. by rewrite filter_cons_True.
Qed.

Lemma length_bads_le l : (length (bads p tt l) ≤ length l)%nat.
Proof. apply length_filter. Qed.

Lemma capt_inv_lookup l c e buf x :
  capt_inv p tt l c e buf → buf !! c = Some x →
  l !! c = Some x ∧ (c < length l)%nat ∧ (e ≤ c)%nat ∧ (c < length buf)%nat.
Proof.
  intros (Hc & He & Ht & Hd) Hx.
  assert (l !! c = Some x) as Hl.
  { rewrite <- (Nat.add_0_r c), <- lookup_drop, <- Hd, lookup_drop, Nat.add_0_r. done. }
  split; [done|]. split; [by apply lookup_lt_Some in Hl|]. split.
  - subst e. etrans; [apply length_bads_le|]. rewrite length_take. lia.
  - by apply lookup_lt_Some in Hx.
Qed.

Lemma capt_inv_skip l c e buf x :
  capt_inv p tt l c e buf → l !! c = Some x →
  ¬ (move x ≠ tt ∧ good_see p x = false) →
  capt_inv p tt l (S c) e buf.
Proof.
  intros (Hc & He & Ht & Hd) Hx Hn.
  unfold capt_inv. rewrite (take_S_r l c x Hx), bads_snoc_out by done.
  split; [by apply lookup_lt_Some in Hx|]. split; [done|]. split; [done|].
  replace (S c) with (c + 1)%nat by lia. rewrite <- !drop_drop. by rewrite Hd.
Qed.

Lemma capt_inv_put l c e buf x :
  capt_inv p tt l c e buf → buf !! c = Some x →
  move x ≠ tt → good_see p x = false →
  capt_inv p tt l (S c) (S e) (<[e := x]> buf).
Proof.
  intros Hinv Hb Hne Hbad.
  destruct (capt_inv_lookup _ _ _ _ _ Hinv Hb) as (Hx & Hcl & Hec & Hcb).
  destruct Hinv as (Hc & He & Ht & Hd).
  unfold capt_inv. rewrite (take_S_r l c x Hx), bads_snoc_in by done.
  split; [lia|]. split; [rewrite length_app; simpl; lia|]. split.
  - rewrite (take_S_r _ e x).
    + rewrite take_insert_ge by lia. by rewrite Ht.
    + apply list_lookup_insert_eq. lia.
  - rewrite drop_insert_lt by lia.
    replace (S c) with (c + 1)%nat by lia. rewrite <- !drop_drop. by rewrite Hd.
Qed.

Lemma goods_bads_perm l :
  goods p tt l ++ bads p tt l ≡ₚ filter (λ x, move x ≠ tt) l.
Proof.
  unfold goods, bads. induction l as [|x l IH]; [done|].
  destruct (decide (move x ≠ tt)) as [Hne|He].
  - rewrite (filter_cons_True (λ x, move x ≠ tt)) by done.
    destruct (good_see p x) eqn:Hg.
    + rewrite filter_cons_True by done.
      rewrite filter_cons_False by (intros [_ ?]; congruence).
      simpl. by rewrite IH.
    + rewrite filter_cons_False by (intros [_ ?]; congruence).
      rewrite filter_cons_True by done.
      rewrite <- Permutation_middle. by rewrite IH.
  - rewrite !filter_cons_False by tauto. done.
Qed.

Lemma elem_of_bads l x : x ∈ bads p tt l → x ∈ l ∧ move x ≠ tt.
Proof. unfold bads. rewrite list_elem_of_filter. tauto. Qed.
End capture_lists.

Section good_captures.
Context `{TypesH}.
Variable p : Position.
Variable tt : Move.
Variable refs : list ExtMove.

Local Abbreviation S := (sorted_captures p).
Local Abbreviation clean := (Move_none ∉ generate p CAPTURES).

Lemma sorted_capture_is_move x : clean → x ∈ S → move x ≠ Move_none.
Proof.
  intros Hn Hx. apply elem_of_sorted_captures in Hx as [Hx _]. congruence.
Qed.

(** The scan of the good-capture stage from slot [c0]. *)
Lemma good_capture_scan k mp c0 e0 m mp' :
  base p tt refs GOOD_CAPTURE mp →
  cur mp = At Moves c0 → endMoves mp = At Moves (length S) →
  endBadCaptures mp = At Moves e0 →
  (clean → (c0 + k = length S)%nat ∧ capt_inv p tt S c0 e0 (moves mp)) →
  select_loop Next good_capture k mp = Some (m, mp') →
  ∃ c e,
    base p tt refs GOOD_CAPTURE mp' ∧
    cur mp' = At Moves c ∧ endMoves mp' = At Moves (length S) ∧
    endBadCaptures mp' = At Moves e ∧
    (clean → capt_inv p tt S c e (moves mp')) ∧
    ((m = Move_none ∧ (clean → c = length S ∧ goods p tt (drop c0 S) = [])) ∨
     (return_prev mp' = Some (m, mp') ∧
      (clean → ∃ x, move x = m ∧ m ≠ Move_none ∧
                    goods p tt (drop c0 S) = x :: goods p tt (drop c S)))).
Proof.
  intros Hbase Hcur Hend Hbad Hcond Hsel.
  pattern m, mp'.
  refine (select_loop_rule Next good_capture
    (λ k mp, ∃ c e,
       base p tt refs GOOD_CAPTURE mp ∧
       cur mp = At Moves c ∧ endMoves mp = At Moves (length S) ∧
       endBadCaptures mp = At Moves e ∧
       (clean → (c + k = length S)%nat ∧ capt_inv p tt S c e (moves mp) ∧
                goods p tt (drop c0 S) = goods p tt (drop c S)))
    _ _ _ k mp m mp' _ Hsel).
  - (* the range is exhausted *)
    intros mp0 (c & e & Hb & Hc & He & Hbd & Hcn). exists c, e.
    repeat (split; [done|]). split; [intros Hn; by apply Hcn|].
    left. split; [done|]. intros Hn. destruct (Hcn Hn) as (Hk & Hci & Hg).
    split; [lia|]. rewrite Hg. replace c with (length S) by lia.
    by rewrite drop_all.
  - (* one slot *)
    intros k0 mp0 mp1 x (c & e & Hb & Hc & He & Hbd & Hcn) [= <-] Hx.
    pose proof Hx as Hx'. rewrite Hc in Hx'. simpl in Hx'.
    destruct Hb as (Hp & Ht & Hr & Hl & Hs).
    split.
    + (* the hash move is passed over *)
      intros Htt. exists (Datatypes.S c), e. rewrite Hc. simpl.
      split; [done|]. repeat (split; [done|]).
      intros Hn. destruct (Hcn Hn) as (Hk & Hci & Hg).
      destruct (capt_inv_lookup p tt _ _ _ _ _ Hci Hx') as (HS & _).
      split; [lia|]. split.
      * apply (capt_inv_skip p tt _ _ _ _ x); [done|done|]. intros [? _]. congruence.
      * rewrite Hg. apply (goods_drop_out p tt _ _ x); [done|]. intros [? _]. congruence.
    + intros Hne ok mp2 Hf. unfold good_capture in Hf. rewrite Hx in Hf. simpl in Hf.
      rewrite Hp in Hf. fold (good_see p x) in Hf.
      destruct (good_see p x) eqn:Hgood.
      * (* a good capture is found *)
        injection Hf as <- <-. intros r Hr'. rewrite Hx in Hr'. injection Hr' as <-.
        exists (Datatypes.S c), e. rewrite Hc. simpl.
        split; [done|]. repeat (split; [done|]).
        split.
        -- intros Hn. destruct (Hcn Hn) as (Hk & Hci & Hg).
           destruct (capt_inv_lookup p tt _ _ _ _ _ Hci Hx') as (HS & _).
           apply (capt_inv_skip p tt _ _ _ _ x); [done|done|]. intros [_ ?]. congruence.
        -- right. split.
           ++ pose proof (return_prev_after mp0 Moves c x Hc Hx') as Hrp.
              rewrite Hc in Hrp. exact Hrp.
           ++ intros Hn. destruct (Hcn Hn) as (Hk & Hci & Hg).
              destruct (capt_inv_lookup p tt _ _ _ _ _ Hci Hx') as (HS & _).
              exists x. split; [done|]. split.
              ** apply sorted_capture_is_move; [done|].
                 by eapply list_elem_of_lookup_2.
              ** rewrite Hg. apply goods_drop_in; [done|congruence|done].
      * (* a bad capture is put aside *)
        rewrite Hbd in Hf. unfold store in Hf. simpl in Hf.
        destruct (decide (e < length (moves mp0))%nat) as [Hlt|]; [|done].
        simpl in Hf. injection Hf as <- <-.
        exists (Datatypes.S c), (Datatypes.S e). simpl. rewrite Hc, Hbd. simpl.
        split; [done|]. repeat (split; [done|]).
        intros Hn. destruct (Hcn Hn) as (Hk & Hci & Hg).
        destruct (capt_inv_lookup p tt _ _ _ _ _ Hci Hx') as (HS & _).
        split; [lia|]. split.
        -- apply capt_inv_put; [done|done|congruence|done].
        -- rewrite Hg. apply (goods_drop_out p tt _ _ x); [done|].
           intros [_ ?]. congruence.
  - exists c0, e0. repeat (split; [done|]). intros Hn.
    destruct (Hcond Hn). done.
Qed.
End good_captures.

(** ** Facts about lists used along the path *)

Section list_scans.
Context {A : Type} (P : A → Prop) `{∀ x, Decision (P x)}.
Implicit Types (l : list A).

Lemma filter_drop_skip l d i :
  (∀ k y, (i ≤ k < i + d)%nat → l !! k = Some y → ¬ P y) →
  filter P (drop i l) = filter P (drop (i + d) l).
Proof.
  revert i. induction d as [|d IH]; intros i Hrej.
  - by rewrite Nat.add_0_r.
  - destruct (l !! i) as [y|] eqn:Hy.
    + rewrite (drop_S l y i Hy), filter_cons_False by (apply (Hrej i); [lia|done]).
      replace (i + Datatypes.S d)%nat with (Datatypes.S i + d)%nat by lia.
      apply IH. intros k z Hk. apply Hrej. lia.
    + apply lookup_ge_None in Hy. by rewrite !drop_ge by lia.
Qed.

Lemma filter_drop_found l i j x :
  (i ≤ j)%nat →
  (∀ k y, (i ≤ k < j)%nat → l !! k = Some y → ¬ P y) →
  l !! j = Some x → P x →
  filter P (drop i l) = x :: filter P (drop (Datatypes.S j) l).
Proof.
  intros Hij Hrej Hx HP.
  rewrite (filter_drop_skip l (j - i) i).
  - replace (i + (j - i))%nat with j by lia.
    by rewrite (drop_S l x j Hx), filter_cons_True.
  - intros k y Hk. apply Hrej. lia.
Qed.

Lemma filter_drop_none l i :
  (∀ k y, (i ≤ k)%nat → l !! k = Some y → ¬ P y) → filter P (drop i l) = [].
Proof.
  intros Hrej. rewrite (filter_drop_skip l (length l) i).
  - by rewrite drop_ge by lia.
  - intros k y Hk. apply Hrej. lia.
Qed.
End list_scans.

Section main_path.
Context `{TypesH}.
Variable p : Position.
Variable tt : Move.
Variable refs : list ExtMove.

Local Abbreviation S := (sorted_captures p).
Local Abbreviation clean := (Move_none ∉ generate p CAPTURES).
Local Abbreviation post := (main_post p tt refs).

Implicit Types (mp : MovePicker) (m : Move) (pg pb pr : list ExtMove).

Lemma return_prev_state mp m mp' : return_prev mp = Some (m, mp') → mp' = mp.
Proof.
  unfold return_prev. intros Hr.
  apply bind_Some in Hr as (q & _ & Hr).
  apply bind_Some in Hr as (e & _ & [= _ <-]). done.
Qed.

(** A predicate that changes nothing leaves [select] with the cursor moved
    and nothing else. *)
Lemma select_readonly filter mp m mp' :
  (∀ mp0 ok mp2, filter mp0 = Some (ok, mp2) → mp2 = mp0) →
  select Next filter mp = Some (m, mp') → ∃ q, mp' = set_cur q mp.
Proof.
  intros Hro Hsel. unfold select in Hsel.
  apply bind_Some in Hsel as (n & _ & Hsel).
  pattern m, mp'.
  refine (select_loop_rule Next filter (λ _ mp0, ∃ q, mp0 = set_cur q mp)
            _ _ _ n mp m mp' _ Hsel).
  - done.
  - intros k mp0 mp1 c (q & ->) [= <-] Hc. split.
    + intros _. eexists. reflexivity.
    + intros _ ok mp2 Hf. apply Hro in Hf as ->. destruct ok.
      * intros r _. eexists. reflexivity.
      * eexists. reflexivity.
  - exists (cur mp). by destruct mp.
Qed.

Lemma not_refutation_readonly mp0 ok mp2 :
  not_refutation mp0 = Some (ok, mp2) → mp2 = mp0.
Proof.
  unfold not_refutation. intros Hf.
  apply bind_Some in Hf as (c & _ & Hf).
  apply bind_Some in Hf as (r0 & _ & Hf).
  apply bind_Some in Hf as (r1 & _ & Hf).
  apply bind_Some in Hf as (r2 & _ & [= _ <-]). done.
Qed.

Lemma bad_range_le mp e : bad_range mp e → (e ≤ length (moves mp))%nat.
Proof.
  intros [He Ht]. rewrite He, <- Ht, length_take. lia.
Qed.

Lemma bad_range_lookup mp e c :
  bad_range mp e → (c < e)%nat →
  ∃ x, moves mp !! c = Some x ∧
       bads (pos mp) (ttMove mp) (sorted_captures (pos mp)) !! c = Some x.
Proof.
  intros Hbr Hc. pose proof (bad_range_le mp e Hbr) as Hle.
  destruct Hbr as [He Ht].
  destruct (lookup_lt_is_Some_2 (moves mp) c ltac:(lia)) as [x Hx].
  exists x. split; [done|]. by rewrite <- Ht, lookup_take_lt.
Qed.

Lemma case_BAD_QUIET_main b mp pg pb pr m mp' :
  base p tt refs BAD_QUIET mp →
  pr = [] → (clean → pg = [] ∧ pb = []) →
  case_BAD_QUIET b mp = Some (m, mp') → post pg pb pr m mp'.
Proof.
  intros (Hp & Ht & Hr & Hl & Hs) Hpr Hpgb Hc.
  assert (∃ q, mp' = set_cur q mp) as [q ->].
  { unfold case_BAD_QUIET in Hc. destruct b; simpl in Hc.
    - injection Hc as <- <-. exists (cur mp). by destruct mp.
    - eapply select_readonly; [apply not_refutation_readonly|exact Hc]. }
  split.
  - unfold main_inv. simpl. rewrite Hs. done.
  - unfold main_step. simpl. rewrite Hs. done.
Qed.
(** [select<Next>] over [cur, endMoves) with a predicate that only reads. *)
Lemma select_scan filter (P : ExtMove → option bool) mp r i0 j m mp' :
  cur mp = At r i0 → endMoves mp = At r j →
  (∀ i c, region_of mp r !! i = Some c →
          filter (set_cur (At r i) mp) = (ok ← P c; Some (ok, set_cur (At r i) mp))) →
  select Next filter mp = Some (m, mp') →
  let rejected c := move c = ttMove mp ∨ P c = Some false in
  (m = Move_none ∧ mp' = set_cur (At r (i0 + (j - i0))) mp ∧
   ∀ k c, (i0 ≤ k < i0 + (j - i0))%nat → region_of mp r !! k = Some c → rejected c)
  ∨
  (∃ i c, (i0 ≤ i < i0 + (j - i0))%nat ∧ region_of mp r !! i = Some c ∧
          m = move c ∧ move c ≠ ttMove mp ∧ P c = Some true ∧
          mp' = set_cur (At r (Datatypes.S i)) mp ∧
          ∀ k c', (i0 ≤ k < i)%nat → region_of mp r !! k = Some c' → rejected c').
Proof.
  intros Hcur Hend Hf Hsel. unfold select in Hsel. rewrite Hcur, Hend in Hsel.
  simpl in Hsel. rewrite decide_True in Hsel by done. simpl in Hsel.
  assert (mp = set_cur (At r i0) mp) as Heq.
  { rewrite <- Hcur. symmetry. apply set_cur_cur. }
  rewrite Heq in Hsel.
  exact (select_loop_scan filter P mp r i0 (j - i0) m mp' Hf Hsel).
Qed.

Lemma accept_all_reads mp r i c :
  region_of mp r !! i = Some c →
  accept_all (set_cur (At r i) mp)
    = (ok ← (λ _ : ExtMove, Some true) c; Some (ok, set_cur (At r i) mp)).
Proof. done. Qed.

Lemma case_BAD_CAPTURE_main b mp c e pg pb pr m mp' :
  base p tt refs BAD_CAPTURE mp →
  cur mp = At Moves c → endMoves mp = At Moves e → (c ≤ e)%nat →
  (clean → bad_range mp e) →
  pr = [] →
  (clean → pg = [] ∧ pb = drop c (bads p tt S)) →
  case_BAD_CAPTURE b mp = Some (m, mp') → post pg pb pr m mp'.
Proof.
  intros (Hp & Ht & Hr & Hl & Hs) Hcur Hend Hce Hbr Hpr Hpgb Hc.
  unfold case_BAD_CAPTURE in Hc.
  destruct (select Next accept_all mp) as [[m1 mp1]|] eqn:Hsel; [|done].
  simpl in Hc.
  apply (select_scan accept_all (λ _, Some true) mp Moves c e) in Hsel;
    [|done|done|apply accept_all_reads].
  simpl in Hsel. replace (c + (e - c))%nat with e in Hsel by lia.
  (* no slot of the bad captures is passed over *)
  assert (clean → ∀ k x, (c ≤ k < e)%nat → moves mp !! k = Some x →
                         ¬ (move x = ttMove mp ∨ Some true = Some false)) as Hkeep.
  { intros Hn k x Hk Hx [Hx'|?]; [|done].
    destruct (bad_range_lookup mp e k (Hbr Hn) ltac:(lia)) as (y & Hy & Hby).
    rewrite Hx in Hy. injection Hy as <-.
    apply list_elem_of_lookup_2, elem_of_bads in Hby as [_ Hne]. done. }
  destruct Hsel as [(-> & -> & Hrej)|(i & x & Hi & Hx & -> & Hne & _ & -> & Hrej)].
  - (* exhausted *)
    simpl in Hc. apply (case_BAD_QUIET_main b _ pg pb pr) in Hc; [done| |done|].
    + repeat split; simpl; try done. by rewrite Hs.
    + intros Hn. destruct (Hpgb Hn) as [-> ->]. split; [done|].
      destruct (decide (c < e)%nat) as [Hlt|Hge].
      * destruct (bad_range_lookup mp e c (Hbr Hn) Hlt) as (y & Hy & _).
        destruct (Hkeep Hn c y ltac:(lia) Hy). apply (Hrej c); [lia|done].
      * destruct (Hbr Hn) as [He _]. rewrite Hp, Ht in He.
        apply drop_ge. lia.
  - destruct (is_move (move x)) eqn:Hm.
    + (* a bad capture is yielded *)
      unfold return_prev in Hc. simpl in Hc. rewrite Hx in Hc. simpl in Hc.
      injection Hc as <- <-. split.
      * unfold main_inv. simpl. rewrite Hs.
        repeat (split; [done|]). exists (Datatypes.S i), e.
        repeat (split; [done|]). split; [lia|done].
      * unfold main_step, pending_bad. simpl. rewrite Hs, Hp, Ht.
        split; [by apply is_move_true|]. split; [done|].
        intros Hn. destruct (Hpgb Hn) as [-> ->]. split; [done|].
        assert (i = c) as ->.
        { destruct (decide (i = c)) as [|Hic]; [done|]. exfalso.
          destruct (bad_range_lookup mp e c (Hbr Hn) ltac:(lia)) as (y & Hy & _).
          destruct (Hkeep Hn c y ltac:(lia) Hy). apply (Hrej c); [lia|done]. }
        exists x. split; [done|]. apply drop_S.
        destruct (bad_range_lookup mp e c (Hbr Hn) ltac:(lia)) as (y & Hy & Hby).
        rewrite Hp, Ht in Hby. congruence.
    + (* a none-sentinel among the bad captures ends the stage *)
      apply (case_BAD_QUIET_main b _ pg pb pr) in Hc; [done| |done|].
      * repeat split; simpl; try done. by rewrite Hs.
      * intros Hn. exfalso.
        destruct (bad_range_lookup mp e i (Hbr Hn) ltac:(lia)) as (y & Hy & Hby).
        rewrite Hx in Hy. injection Hy as <-.
        apply list_elem_of_lookup_2, elem_of_bads in Hby as [Hin _].
        rewrite Hp in Hin.
        apply (sorted_capture_is_move p x Hn Hin). by apply is_move_false.
Qed.

Lemma to_bad_captures_main b mp e pg pb pr m mp' :
  base p tt refs GOOD_QUIET mp →
  endBadCaptures mp = At Moves e →
  (clean → bad_range mp e) →
  pr = [] →
  (clean → pg = [] ∧ pb = bads p tt S) →
  to_bad_captures b mp = Some (m, mp') → post pg pb pr m mp'.
Proof.
  intros (Hp & Ht & Hr & Hl & Hs) Hbad Hbr Hpr Hpgb Hc.
  unfold to_bad_captures in Hc.
  apply (case_BAD_CAPTURE_main b _ 0 e pg pb pr) in Hc; try done.
  - repeat split; simpl; try done. by rewrite Hs.
  - lia.
Qed.
Lemma case_GOOD_QUIET_main b mp e pg pb pr m mp' :
  base p tt refs GOOD_QUIET mp →
  endBadCaptures mp = At Moves e →
  (clean → bad_range mp e) →
  pr = [] →
  (clean → pg = [] ∧ pb = bads p tt S) →
  case_GOOD_QUIET b mp = Some (m, mp') → post pg pb pr m mp'.
Proof.
  intros Hb Hbad Hbr Hpr Hpgb Hc.
  unfold case_GOOD_QUIET in Hc. destruct b; simpl in Hc.
  { by apply (to_bad_captures_main true mp e pg pb pr). }
  destruct (select Next not_refutation mp) as [[m1 mp1]|] eqn:Hsel; [|done].
  simpl in Hc.
  destruct (select_yield _ _ _ _ _ not_refutation_mild Hsel) as (_ & _ & Hy).
  apply (select_readonly _ _ _ _ not_refutation_readonly) in Hsel as [q ->].
  destruct Hb as (Hp & Ht & Hr & Hl & Hs).
  destruct (is_move m1) eqn:Hm.
  - apply bind_Some in Hc as (p0 & _ & Hc).
    apply bind_Some in Hc as (e0 & _ & Hc).
    apply bind_Some in Hc as (d & _ & Hc).
    destruct (_ || _).
    + (* a good quiet move is yielded *)
      destruct Hy as [->|[_ Hret]]; [done|].
      rewrite Hret in Hc. injection Hc as <- <-. split.
      * unfold main_inv. simpl. rewrite Hs. repeat (split; [done|]).
        exists e. done.
      * unfold main_step, pending_bad. simpl. rewrite Hs, Hp, Ht.
        split; [by apply is_move_true|]. done.
    + by apply (to_bad_captures_main false _ e pg pb pr) in Hc.
  - by apply (to_bad_captures_main false _ e pg pb pr) in Hc.
Qed.

Lemma splice_length_ge b e (new buf : list ExtMove) :
  (b ≤ length buf)%nat → (b ≤ length (splice b e new buf))%nat.
Proof. intros. unfold splice. rewrite !length_app, length_take. lia. Qed.

(** The generation, scoring and sorting of the quiet moves leave the slots
    before [endBadCaptures] alone. *)
Lemma quiet_init_buffer mp e mp4 :
  endBadCaptures mp = At Moves e →
  (let mp0 := set_cur (endBadCaptures mp) mp in
   '(e1, mp1) ← generate_moves QUIETS mp0;
   let mp2 := set_endMoves e1 (set_beginBadQuiets e1 (set_endBadQuiets e1 mp1)) in
   mp3 ← score QUIETS mp2;
   d ← depth mp3;
   sort_moves (quiet_threshold d) mp3) = Some mp4 →
  ∃ buf q1 q2 q3 q4,
    mp4 = set_moves buf
            (set_endMoves q1 (set_beginBadQuiets q2 (set_endBadQuiets q3 (set_cur q4 mp)))) ∧
    ((e ≤ length (moves mp))%nat → take e buf = take e (moves mp)).
Proof.
  intros Hbad Hq. rewrite Hbad in Hq. simpl in Hq.
  unfold generate_moves in Hq. simpl in Hq.
  set (ms := generate (pos mp) QUIETS) in *.
  unfold score in Hq. simpl in Hq.
  apply bind_Some in Hq as (mp3 & Hsc & Hq).
  apply bind_Some in Hsc as (scored & _ & [= <-]).
  apply bind_Some in Hq as (d & _ & Hso).
  unfold sort_moves in Hso. simpl in Hso. injection Hso as <-.
  eexists _, (At Moves (e + length ms)), (At Moves (e + length ms)),
    (At Moves (e + length ms)), (At Moves e).
  split; [reflexivity|].
  intros Hle.
  pose proof (length_generate_at ms e (moves mp) Hle) as Hg.
  assert (e ≤ length (generate_at ms e (moves mp)))%nat as Hg' by lia.
  rewrite take_splice by (by apply splice_length_ge).
  rewrite take_splice by done.
  by apply take_generate_at.
Qed.

Lemma case_QUIET_INIT_main b mp e pg pb pr m mp' :
  base p tt refs QUIET_INIT mp →
  endBadCaptures mp = At Moves e →
  (clean → bad_range mp e) →
  pr = [] →
  (clean → pg = [] ∧ pb = bads p tt S) →
  case_QUIET_INIT b mp = Some (m, mp') → post pg pb pr m mp'.
Proof.
  intros (Hp & Ht & Hr & Hl & Hs) Hbad Hbr Hpr Hpgb Hc.
  unfold case_QUIET_INIT in Hc.
  apply bind_Some in Hc as (mp4 & Hq & Hc).
  destruct b; simpl in Hq.
  - injection Hq as <-.
    apply (case_GOOD_QUIET_main true _ e pg pb pr) in Hc; try done.
    repeat split; simpl; try done. by rewrite Hs.
  - apply (quiet_init_buffer mp e) in Hq as (buf & q1 & q2 & q3 & q4 & -> & Htake);
      [|done].
    apply (case_GOOD_QUIET_main false _ e pg pb pr) in Hc; try done.
    + repeat split; simpl; try done. by rewrite Hs.
    + intros Hn. pose proof (Hbr Hn) as Hbr'. pose proof (bad_range_le _ _ Hbr') as Hle.
      destruct Hbr' as [He Hbt]. split; [done|]. simpl.
      by rewrite (Htake Hle).
Qed.

Lemma playable_refutation_reads mp r i c :
  region_of mp r !! i = Some c →
  playable_refutation (set_cur (At r i) mp)
    = (ok ← (λ c : ExtMove,
               Some (is_move (move c) && negb (capture_stage (pos mp) (move c))
                       && pseudo_legal (pos mp) (move c))) c;
       Some (ok, set_cur (At r i) mp)).
Proof.
  intros Hc. unfold playable_refutation. simpl.
  change (region_of (set_cur (At r i) mp) r) with (region_of mp r). by rewrite Hc.
Qed.

Lemma case_REFUTATION_main b mp i e pg pb pr m mp' :
  base p tt refs REFUTATION mp →
  cur mp = At Refutations i → endMoves mp = At Refutations (ref_count refs) →
  (i ≤ ref_count refs)%nat →
  endBadCaptures mp = At Moves e →
  (clean → bad_range mp e) →
  pr = filter (playable p tt) (drop i (ref_range refs)) →
  (clean → pg = [] ∧ pb = bads p tt S) →
  case_REFUTATION b mp = Some (m, mp') → post pg pb pr m mp'.
Proof.
  intros (Hp & Ht & Hr & Hl & Hs) Hcur Hend Hik Hbad Hbr Hpr Hpgb Hc.
  unfold case_REFUTATION in Hc.
  destruct (select Next playable_refutation mp) as [[m1 mp1]|] eqn:Hsel; [|done].
  simpl in Hc.
  apply (select_scan playable_refutation
           (λ c, Some (is_move (move c) && negb (capture_stage (pos mp) (move c))
                         && pseudo_legal (pos mp) (move c)))
           mp Refutations i (ref_count refs)) in Hsel;
    [|done|done|apply playable_refutation_reads].
  simpl in Hsel. rewrite Hp, Ht, Hr in Hsel.
  replace (i + (ref_count refs - i))%nat with (ref_count refs) in Hsel by lia.
  assert (∀ k c, (k < ref_count refs)%nat → ref_range refs !! k = Some c →
                 refs !! k = Some c) as Hrange.
  { intros k c Hk. unfold ref_range. by rewrite lookup_take_lt. }
  assert (∀ c, move c = tt ∨
               Some (is_move (move c) && negb (capture_stage p (move c))
                       && pseudo_legal p (move c)) = Some false →
               ¬ playable p tt c) as Hnot.
  { intros c [Hc'|Hc'] [Hne Hok]; [done|]. congruence. }
  destruct Hsel as [(-> & -> & Hrej)|(j & x & Hj & Hx & -> & Hne & HP & -> & Hrej)].
  - (* no refutation is left *)
    simpl in Hc. apply (case_QUIET_INIT_main b _ e pg pb pr) in Hc; try done.
    + repeat split; simpl; try done. by rewrite Hs.
    + rewrite Hpr. apply filter_drop_none. intros k y Hk Hy.
      assert (k < ref_count refs)%nat as Hlt.
      { apply lookup_lt_Some in Hy. unfold ref_range in Hy.
        rewrite length_take in Hy. lia. }
      apply Hnot, (Hrej k); [lia|]. by apply Hrange.
  - injection HP as HP.
    assert (is_move (move x) = true) as Hm.
    { apply andb_prop in HP as [HP _]. by apply andb_prop in HP as [HP _]. }
    rewrite Hm in Hc.
    unfold return_prev in Hc. simpl in Hc. rewrite Hr, Hx in Hc. simpl in Hc.
    injection Hc as <- <-. split.
    + unfold main_inv. simpl. rewrite Hs. repeat (split; [done|]).
      exists (Datatypes.S j), e. repeat (split; [done|]). split; [lia|done].
    + unfold main_step, pending_ref, pending_bad. simpl. rewrite Hs, Hp, Ht, Hr.
      split; [by apply is_move_true|]. split; [|done].
      exists x. split; [done|]. rewrite Hpr.
      apply filter_drop_found; [lia| | |done].
      * intros k y Hk Hy. apply Hnot, (Hrej k); [lia|]. apply Hrange; [lia|done].
      * unfold ref_range. rewrite lookup_take_lt by lia. done.
Qed.
Lemma ref_count_lookup (l : list ExtMove) r0 r1 r2 :
  length l = 3%nat →
  l !! 0%nat = Some r0 → l !! 1%nat = Some r1 → l !! 2%nat = Some r2 →
  ref_count l = if (move r0 =? move r2) || (move r1 =? move r2) then 2%nat else 3%nat.
Proof.
  destruct l as [|x0 [|x1 [|x2 [|]]]]; try done. simpl.
  by intros _ [= ->] [= ->] [= ->].
Qed.

(** The end of the good-capture stage: on to the refutations. *)
Lemma to_refutations_main b mp e pg pb pr m mp' :
  base p tt refs GOOD_CAPTURE mp →
  endBadCaptures mp = At Moves e →
  (clean → bad_range mp e) →
  pr = filter (playable p tt) (ref_range refs) →
  (clean → pg = [] ∧ pb = bads p tt S) →
  (r0 ← refutations mp !! 0%nat;
   r1 ← refutations mp !! 1%nat;
   r2 ← refutations mp !! 2%nat;
   let e := if (move r0 =? move r2) || (move r1 =? move r2)
            then 2%nat else 3%nat in
   case_REFUTATION b
     (incr_stage
        (set_endMoves (At Refutations e) (set_cur (At Refutations 0) mp))))
    = Some (m, mp') →
  post pg pb pr m mp'.
Proof.
  intros (Hp & Ht & Hr & Hl & Hs) Hbad Hbr Hpr Hpgb Hc.
  rewrite Hr in Hc.
  apply bind_Some in Hc as (r0 & H0 & Hc).
  apply bind_Some in Hc as (r1 & H1 & Hc).
  apply bind_Some in Hc as (r2 & H2 & Hc).
  simpl in Hc. rewrite <- (ref_count_lookup refs r0 r1 r2 Hl H0 H1 H2) in Hc.
  apply (case_REFUTATION_main b _ 0 e pg pb pr) in Hc; try done.
  - repeat split; simpl; try done. by rewrite Hs.
  - lia.
Qed.

Lemma case_GOOD_CAPTURE_main b mp c e pg pb pr m mp' :
  base p tt refs GOOD_CAPTURE mp →
  cur mp = At Moves c → endMoves mp = At Moves (length S) →
  endBadCaptures mp = At Moves e →
  (clean → capt_inv p tt S c e (moves mp)) →
  pr = filter (playable p tt) (ref_range refs) →
  (clean → pg = goods p tt (drop c S) ∧ pb = bads p tt S) →
  case_GOOD_CAPTURE b mp = Some (m, mp') → post pg pb pr m mp'.
Proof.
  intros Hb Hcur Hend Hbad Hci Hpr Hpgb Hc.
  unfold case_GOOD_CAPTURE in Hc.
  destruct (select Next good_capture mp) as [[m1 mp1]|] eqn:Hsel; [|done].
  simpl in Hc. unfold select in Hsel. rewrite Hcur, Hend in Hsel. simpl in Hsel.
  apply (good_capture_scan p tt refs _ mp c e) in Hsel; try done.
  2:{ intros Hn. split; [|by apply Hci]. destruct (Hci Hn) as [Hle _]. lia. }
  destruct Hsel as (c' & e' & Hb' & Hc' & He' & Hbd' & Hci' & Hres).
  assert (clean → c' = length S → bad_range mp1 e') as Hrange.
  { intros Hn ->. destruct Hb' as (Hp & Ht & _).
    destruct (Hci' Hn) as (_ & He1 & Ht1 & _).
    rewrite (take_ge S (length S)) in He1, Ht1 by lia. split; by rewrite Hp, Ht. }
  destruct Hres as [(-> & Hex)|(Hret & Hfound)].
  - (* no good capture is left *)
    simpl in Hc. apply (to_refutations_main b mp1 e' pg pb pr) in Hc; try done.
    + intros Hn. apply Hrange; [done|]. by destruct (Hex Hn).
    + intros Hn. destruct (Hpgb Hn) as [-> ->]. by destruct (Hex Hn) as [_ ->].
  - destruct (is_move m1) eqn:Hm.
    + (* a good capture is yielded *)
      rewrite Hret in Hc. injection Hc as <- <-.
      destruct Hb' as (Hp & Ht & Hr & Hl & Hs). split.
      * unfold main_inv. rewrite Hs. repeat (split; [done|]). exists c', e'. done.
      * unfold main_step, pending_ref, pending_bad, pending_good.
        rewrite Hs, Hp, Ht, Hr, Hc'.
        split; [by apply is_move_true|]. split; [done|].
        intros Hn. destruct (Hpgb Hn) as [-> ->]. split; [done|].
        destruct (Hfound Hn) as (x & Hx & _ & Hg). by exists x.
    + (* a none-sentinel among the captures ends the stage *)
      apply is_move_false in Hm as ->.
      apply (to_refutations_main b mp1 e' pg pb pr) in Hc; try done.
      * intros Hn. by destruct (Hfound Hn) as (x & _ & ? & _).
      * intros Hn. by destruct (Hfound Hn) as (x & _ & ? & _).
Qed.

Lemma length_sorted_captures : length S = length (generate p CAPTURES).
Proof.
  rewrite (Permutation_length (sorted_captures_perm p)).
  unfold scored_captures. by rewrite length_map.
Qed.

(** One call, from a picker between two calls. *)
Lemma next_move_main b mp m mp' :
  main_inv p tt refs mp →
  next_move b mp = Some (m, mp') →
  main_inv p tt refs mp' ∧
  if is_tt_stage (stage mp)
  then m = tt ∧ m ≠ Move_none ∧
       pending_good mp' = pending_good mp ∧ pending_bad mp' = pending_bad mp ∧
       pending_ref mp' = pending_ref mp
  else main_step p (pending_good mp) (pending_bad mp) (pending_ref mp) m mp'.
Proof.
  intros (Hp & Ht & Hr & Hl & Hst) Hn.
  unfold next_move in Hn. simpl in Hn.
  destruct (stage mp) eqn:Hs; try done; simpl.
  - (* MAIN_TT *)
    injection Hn as <- <-. destruct Hst as [Hmv Hne]. split.
    + unfold main_inv. simpl. rewrite Hs. done.
    + unfold pending_good, pending_bad, pending_ref. simpl. rewrite Hs, Ht.
      simpl. done.
  - (* CAPTURE_INIT *)
    rewrite (capture_init_fresh mp Hst) in Hn. simpl in Hn. rewrite Hs in Hn.
    simpl in Hn.
    apply (case_GOOD_CAPTURE_main b _ 0 0 (pending_good mp) (pending_bad mp)
             (pending_ref mp)) in Hn; try done.
    + repeat split; simpl; try done. by rewrite Hs.
    + simpl. by rewrite Hp, length_sorted_captures.
    + intros _. simpl. rewrite Hp. repeat split; simpl; try done. lia.
    + unfold pending_ref. by rewrite Hs, Hp, Ht, Hr.
    + intros _. unfold pending_good, pending_bad. by rewrite Hs, Hp, Ht.
  - (* GOOD_CAPTURE *)
    destruct Hst as (c & e & Hc & He & Hbd & Hci).
    apply (case_GOOD_CAPTURE_main b _ c e (pending_good mp) (pending_bad mp)
             (pending_ref mp)) in Hn; try done.
    + unfold pending_ref. by rewrite Hs, Hp, Ht, Hr.
    + intros _. unfold pending_good, pending_bad. by rewrite Hs, Hp, Ht, Hc.
  - (* REFUTATION *)
    destruct Hst as (i & e & Hc & He & Hi & Hbd & Hbr).
    apply (case_REFUTATION_main b _ i e (pending_good mp) (pending_bad mp)
             (pending_ref mp)) in Hn; try done.
    + unfold pending_ref. by rewrite Hs, Hp, Ht, Hr, Hc.
    + intros _. unfold pending_good, pending_bad. by rewrite Hs, Hp, Ht.
  - (* GOOD_QUIET *)
    destruct Hst as (e & Hbd & Hbr).
    apply (case_GOOD_QUIET_main b _ e (pending_good mp) (pending_bad mp)
             (pending_ref mp)) in Hn; try done.
    + unfold pending_ref. by rewrite Hs.
    + intros _. unfold pending_good, pending_bad. by rewrite Hs, Hp, Ht.
  - (* BAD_CAPTURE *)
    destruct Hst as (c & e & Hc & He & Hce & Hbr).
    apply (case_BAD_CAPTURE_main b _ c e (pending_good mp) (pending_bad mp)
             (pending_ref mp)) in Hn; try done.
    + unfold pending_ref. by rewrite Hs.
    + intros _. unfold pending_good, pending_bad. by rewrite Hs, Hp, Ht, Hc.
  - (* BAD_QUIET *)
    apply (case_BAD_QUIET_main b _ (pending_good mp) (pending_bad mp)
             (pending_ref mp)) in Hn; try done.
    + unfold pending_ref. by rewrite Hs.
    + intros _. unfold pending_good, pending_bad. by rewrite Hs.
Qed.
Lemma stage_moves_cons s s' m tr :
  stage_moves s ((s', m) :: tr) =
    if decide (s' = s) then m :: stage_moves s tr else stage_moves s tr.
Proof.
  unfold stage_moves. rewrite filter_cons. simpl. by case_decide.
Qed.

(** A run, from a picker between two calls: what the three stages yield
    are the heads of the three pending lists, and all of the captures once
    the none-sentinel has been returned. *)
Lemma main_run mp skips :
  main_inv p tt refs mp →
  (∃ rr, ext_moves (pending_ref mp) = stage_moves REFUTATION (run mp skips) ++ rr) ∧
  (clean →
   ∃ rg rb,
     ext_moves (pending_good mp) = stage_moves GOOD_CAPTURE (run mp skips) ++ rg ∧
     ext_moves (pending_bad mp) = stage_moves BAD_CAPTURE (run mp skips) ++ rb ∧
     (Move_none ∈ yielded mp skips → rg = [] ∧ rb = [])).
Proof.
  revert mp. induction skips as [|b skips IH]; intros mp Hinv.
  { split; [by eexists|]. intros _.
    exists (ext_moves (pending_good mp)), (ext_moves (pending_bad mp)).
    split; [done|]. split; [done|]. intros Hin. by apply elem_of_nil in Hin. }
  unfold yielded. simpl.
  destruct (next_move b mp) as [[m mp']|] eqn:Hn.
  2:{ split; [by eexists|]. intros _.
      exists (ext_moves (pending_good mp)), (ext_moves (pending_bad mp)).
      split; [done|]. split; [done|]. intros Hin. by apply elem_of_nil in Hin. }
  destruct (next_move_main b mp m mp' Hinv Hn) as [Hinv' Hstep].
  destruct (IH mp' Hinv') as [[rr Hrr] Hcap]. clear IH.
  unfold yield_stage. simpl.
  destruct (is_tt_stage (stage mp)) eqn:Htt.
  - (* the hash move *)
    destruct Hstep as (-> & Hne & Hg & Hb & Hr).
    rewrite !stage_moves_cons, !decide_False by (by destruct (stage mp)).
    rewrite <- Hg, <- Hb, <- Hr. split; [by exists rr|].
    intros Hcl. destruct (Hcap Hcl) as (rg & rb & Hrg & Hrb & Hex).
    exists rg, rb. repeat (split; [done|]).
    intros Hin. apply elem_of_cons in Hin as [?|Hin]; [done|]. by apply Hex.
  - unfold main_step in Hstep. rewrite !stage_moves_cons.
    destruct (stage mp') eqn:Hs'; try done; simpl.
    + (* GOOD_CAPTURE *)
      destruct Hstep as (Hne & Hpr & Hstep). rewrite Hpr.
      split; [by exists rr|].
      intros Hcl. destruct (Hcap Hcl) as (rg & rb & Hrg & Hrb & Hex).
      destruct (Hstep Hcl) as (Hpb & x & Hx & Hpg).
      exists rg, rb. rewrite Hpb, Hpg. simpl. rewrite Hx, Hrg.
      repeat (split; [done|]).
      intros Hin. apply elem_of_cons in Hin as [?|Hin]; [done|]. by apply Hex.
    + (* REFUTATION *)
      destruct Hstep as (Hne & (x & Hx & Hpr) & Hstep). rewrite Hpr.
      split; [exists rr; simpl; by rewrite Hx, Hrr|].
      intros Hcl. destruct (Hcap Hcl) as (rg & rb & Hrg & Hrb & Hex).
      destruct (Hstep Hcl) as (Hpg & Hpb).
      exists rg, rb. rewrite Hpb, Hpg.
      unfold pending_good in Hrg. rewrite Hs' in Hrg.
      split; [done|]. split; [done|].
      intros Hin. apply elem_of_cons in Hin as [?|Hin]; [done|]. by apply Hex.
    + (* GOOD_QUIET *)
      destruct Hstep as (Hne & Hpr & Hstep). rewrite Hpr.
      unfold pending_ref in Hrr. rewrite Hs' in Hrr.
      split; [by exists rr|].
      intros Hcl. destruct (Hcap Hcl) as (rg & rb & Hrg & Hrb & Hex).
      destruct (Hstep Hcl) as (Hpg & Hpb).
      exists rg, rb. rewrite Hpb, Hpg.
      unfold pending_good in Hrg. rewrite Hs' in Hrg.
      split; [done|]. split; [done|].
      intros Hin. apply elem_of_cons in Hin as [?|Hin]; [done|]. by apply Hex.
    + (* BAD_CAPTURE *)
      destruct Hstep as (Hne & Hpr & Hstep). rewrite Hpr.
      unfold pending_ref in Hrr. rewrite Hs' in Hrr.
      split; [by exists rr|].
      intros Hcl. destruct (Hcap Hcl) as (rg & rb & Hrg & Hrb & Hex).
      destruct (Hstep Hcl) as (Hpg & x & Hx & Hpb).
      exists rg, rb. rewrite Hpb, Hpg. simpl. rewrite Hx, Hrb.
      unfold pending_good in Hrg. rewrite Hs' in Hrg.
      split; [done|]. split; [done|].
      intros Hin. apply elem_of_cons in Hin as [?|Hin]; [done|]. by apply Hex.
    + (* BAD_QUIET *)
      destruct Hstep as (Hpr & Hstep). rewrite Hpr.
      unfold pending_ref in Hrr. rewrite Hs' in Hrr.
      split; [by exists rr|].
      intros Hcl. destruct (Hcap Hcl) as (rg & rb & Hrg & Hrb & Hex).
      destruct (Hstep Hcl) as (Hpg & Hpb).
      unfold pending_good in Hrg. unfold pending_bad in Hrb.
      rewrite Hs' in Hrg, Hrb. simpl in Hrg, Hrb.
      symmetry in Hrg, Hrb.
      apply app_eq_nil in Hrg as [Hg1 ->]. apply app_eq_nil in Hrb as [Hb1 ->].
      exists [], []. rewrite Hpb, Hpg, Hg1, Hb1. done.
Qed.
End main_path.

Section evasion_path.
Context `{TypesH}.

(** A picker on the evasion path stays on it. *)
Lemma next_move_evasion b mp m mp' :
  is_evasion_stage (stage mp) = true →
  next_move b mp = Some (m, mp') →
  is_evasion_stage (stage mp') = true ∧
  is_evasion_stage (yield_stage mp mp') = true.
Proof.
  intros Hev Hn. unfold next_move in Hn. simpl in Hn. unfold yield_stage.
  destruct (stage mp) eqn:Hs; try done; simpl.
  - injection Hn as <- <-. simpl. by rewrite Hs.
  - unfold case_EVASION_INIT in Hn.
    apply bind_Some in Hn as ([e mp1] & Hg & Hn).
    apply bind_Some in Hn as (mp2 & Hsc & Hn).
    apply generate_moves_shape in Hg as (b1 & ->).
    apply score_shape in Hsc as (b2 & ->).
    destruct (select_yield _ _ _ _ _ accept_all_mild Hn) as (_ & Hs1 & _).
    simpl in Hs1. rewrite Hs in Hs1. by rewrite Hs1.
  - destruct (select_yield _ _ _ _ _ accept_all_mild Hn) as (_ & Hs1 & _).
    by rewrite Hs1, Hs.
Qed.

Lemma run_evasion mp skips s m :
  is_evasion_stage (stage mp) = true →
  (s, m) ∈ run mp skips → is_evasion_stage s = true.
Proof.
  revert mp. induction skips as [|b skips IH]; intros mp Hev Hin.
  { by apply elem_of_nil in Hin. }
  simpl in Hin.
  destruct (next_move b mp) as [[m1 mp1]|] eqn:Hn; [|by apply elem_of_nil in Hin].
  destruct (next_move_evasion b mp m1 mp1 Hev Hn) as [Hev1 Hy].
  apply elem_of_cons in Hin as [[= -> ->]|Hin]; [done|]. by apply (IH mp1).
Qed.

Lemma stage_moves_none s tr :
  (∀ s' m, (s', m) ∈ tr → s' ≠ s) → stage_moves s tr = [].
Proof.
  intros Hno. induction tr as [|[s' m] tr IH]; [done|].
  rewrite stage_moves_cons, decide_False.
  - apply IH. intros s'' m' Hin. apply (Hno s'' m'). by right.
  - apply (Hno s' m). by left.
Qed.
End evasion_path.

Section main_claims.
Context `{TypesH}.

Lemma main_inv_construct p ttm d mh cph ch ph cm k0 k1 :
  checkers p = false →
  main_inv p ttm [mkExtMove k0 0; mkExtMove k1 0; mkExtMove cm 0]
    (MovePicker_main p ttm d mh cph ch ph cm k0 k1).
Proof.
  intros Hck. unfold main_inv. simpl. rewrite Hck.
  repeat (split; [done|]).
  destruct (is_move ttm) eqn:Hm; simpl; [|done].
  destruct (pseudo_legal p ttm); simpl; [|done].
  split; [done|]. by apply is_move_true.
Qed.

Lemma ext_moves_filter_scored p tt (l : list Move) :
  ext_moves (filter (λ x, move x ≠ tt)
               (map (λ m, mkExtMove m (capture_value p m)) l))
    = filter (λ m, m ≠ tt) l.
Proof.
  unfold ext_moves. induction l as [|m l IH]; [done|]. simpl.
  destruct (decide (m ≠ tt)).
  - rewrite !filter_cons_True by done. simpl. by rewrite IH.
  - by rewrite !filter_cons_False.
Qed.

(** C7: in the run of a main-search picker (side to move not in check,
    no none-sentinel among the generated captures) the good-capture stage
    yields, in order, sorted captures that pass its static-exchange test and
    the bad-capture stage yields, unfiltered and in the order they were put
    aside, captures that failed it, the hash move being in neither; once the
    run has gone on until the none-sentinel was returned, every capture put
    aside has been yielded by the bad-capture stage, and the moves of the
    two stages together are the generated captures without the hash move. *)
Theorem captures_all_yielded (p : Position) (ttm : Move) (d : Depth)
    (mh : ButterflyHistory) (cph : CapturePieceToHistory)
    (ch : nat → PieceToHistory) (ph : PawnHistory) (cm k0 k1 : Move)
    (skips : list bool) :
  checkers p = false →
  Move_none ∉ generate p CAPTURES →
  let tr := run (MovePicker_main p ttm d mh cph ch ph cm k0 k1) skips in
  stage_moves GOOD_CAPTURE tr
    `prefix_of` ext_moves (goods p ttm (sorted_captures p)) ∧
  stage_moves BAD_CAPTURE tr
    `prefix_of` ext_moves (bads p ttm (sorted_captures p)) ∧
  (Move_none ∈ tr.*2 →
   stage_moves GOOD_CAPTURE tr = ext_moves (goods p ttm (sorted_captures p)) ∧
   stage_moves BAD_CAPTURE tr = ext_moves (bads p ttm (sorted_captures p)) ∧
   stage_moves GOOD_CAPTURE tr ++ stage_moves BAD_CAPTURE tr
     ≡ₚ filter (λ m, m ≠ ttm) (generate p CAPTURES)).
Proof.
  intros Hck Hcl tr.
  pose proof (main_inv_construct p ttm d mh cph ch ph cm k0 k1 Hck) as Hinv.
  destruct (main_run p ttm _ _ skips Hinv) as [_ Hcap].
  destruct (Hcap Hcl) as (rg & rb & Hrg & Hrb & Hend).
  fold tr in Hrg, Hrb.
  assert (pending_good (MovePicker_main p ttm d mh cph ch ph cm k0 k1)
          = goods p ttm (sorted_captures p)) as Hpg.
  { unfold pending_good. simpl. rewrite Hck.
    by destruct (negb (is_move ttm && pseudo_legal p ttm)). }
  assert (pending_bad (MovePicker_main p ttm d mh cph ch ph cm k0 k1)
          = bads p ttm (sorted_captures p)) as Hpb.
  { unfold pending_bad. simpl. rewrite Hck.
    by destruct (negb (is_move ttm && pseudo_legal p ttm)). }
  rewrite Hpg in Hrg. rewrite Hpb in Hrb.
  split; [by exists rg|]. split; [by exists rb|].
  intros Hex. destruct (Hend Hex) as [-> ->]. rewrite !app_nil_r in Hrg, Hrb.
  split; [done|]. split; [done|].
  rewrite <- Hrg, <- Hrb. unfold ext_moves. rewrite <- map_app.
  rewrite goods_bads_perm, (sorted_captures_perm p).
  by rewrite <- (ext_moves_filter_scored p ttm).
Qed.

Lemma filter_eq_not_in (x : Move) (l : list Move) :
  x ∉ l → filter (λ m, m = x) l = [].
Proof.
  induction l as [|y l IH]; [done|]. intros Hn.
  apply not_elem_of_cons in Hn as [Hne Hn].
  rewrite filter_cons_False by congruence. by apply IH.
Qed.

Lemma filter_eq_NoDup (x : Move) (l : list Move) :
  NoDup l → (length (filter (λ m, m = x) l) ≤ 1)%nat.
Proof.
  induction 1 as [|y l Hy Hnd IH]; [simpl; lia|].
  destruct (decide (y = x)) as [->|Hne].
  - rewrite filter_cons_True by done. rewrite filter_eq_not_in by done. simpl. lia.
  - by rewrite filter_cons_False.
Qed.

Lemma playable_facts p tt x :
  playable p tt x →
  move x ≠ tt ∧ move x ≠ Move_none ∧
  capture_stage p (move x) = false ∧ pseudo_legal p (move x) = true.
Proof.
  intros [Hne Hok]. apply andb_prop in Hok as [Hok Hpl].
  apply andb_prop in Hok as [Hm Hcs]. apply negb_true_iff in Hcs.
  split; [done|]. split; [by apply is_move_true|]. done.
Qed.

End main_claims.

(** ** Calls that skip the quiet moves *)

Section skip_quiets.
Context `{TypesH}.
Variable p : Position.
Hypothesis captures_capture_class :
  ∀ m, m ∈ generate p CAPTURES → capture_stage p m = true.

Implicit Types (mp : MovePicker) (m : Move) (filter : Pred).

Local Abbreviation cc := (λ e : ExtMove, capture_stage p (move e) = true).






























End skip_quiets.

Section skip_claim.
Context `{TypesH}.

End skip_claim.

(** ** More about the sort *)

Section sort_steps.
Implicit Types (a s t m r : list ExtMove) (x y tmp : ExtMove).

Local Arguments shift_insert : simpl never.

(** One turn of the outer loop on an element below the limit. *)
Lemma pis_loop_step_out limit s m x r se :
  value x < limit →
  pis_loop (S (length r)) (s ++ m ++ x :: r) se (length s + length m) limit
    = pis_loop (length r) (s ++ (m ++ [x]) ++ r) se
        (length s + length (m ++ [x])) limit.
Proof.
  intros Hlt. simpl pis_loop.
  rewrite app_assoc, (lookup_app_r (s ++ m)) by (rewrite length_app; lia).
  rewrite length_app, Nat.sub_diag. simpl.
  destruct (Z.leb_spec limit (value x)) as [Hge|_]; [lia|].
  rewrite !length_app. simpl.
  replace (length s + (length m + 1))%nat with (S (length s + length m)) by lia.
  f_equal. by rewrite <- !app_assoc.
Qed.

(** One turn of the outer loop on an element that meets the limit: it goes
    into the sorted part [s] before the trailing elements of smaller score;
    the passed-over elements [m] are rotated by one. *)
Lemma pis_loop_step_in limit s m x r :
  s ≠ [] → limit <= value x →
  ∃ s1 s2 m1,
    s = s1 ++ s2 ∧
    Forall (λ e, value e < value x) s2 ∧
    (∀ e, last s1 = Some e → value x <= value e) ∧
    m1 ≡ₚ m ∧
    pis_loop (S (length r)) (s ++ m ++ x :: r) (length s - 1)
        (length s + length m) limit
      = pis_loop (length r) ((s1 ++ x :: s2) ++ m1 ++ r)
          (length (s1 ++ x :: s2) - 1) (length (s1 ++ x :: s2) + length m1) limit.
Proof.
  intros Hne Hge. simpl pis_loop.
  rewrite app_assoc, (lookup_app_r (s ++ m)) by (rewrite length_app; lia).
  rewrite length_app, Nat.sub_diag. simpl.
  assert (S (length s - 1) = length s) as -> by (destruct s; [done|simpl; lia]).
  destruct (Z.leb_spec limit (value x)) as [_|Hlt]; [|lia].
  set (m1 := tail m ++ from_option (λ e, [e]) [] (head m)).
  assert (match ((s ++ m) ++ x :: r) !! length s with
          | Some e => <[(length s + length m)%nat := e]> ((s ++ m) ++ x :: r)
          | None => (s ++ m) ++ x :: r
          end
          = s ++ default x (head m) :: m1 ++ r) as ->.
  { unfold m1. destruct m as [|y m]; simpl.
    - rewrite app_nil_r. rewrite lookup_app_r by lia. rewrite Nat.sub_diag. simpl.
      rewrite Nat.add_0_r. rewrite insert_app_r_alt by lia.
      rewrite Nat.sub_diag. done.
    - rewrite <- app_assoc. rewrite lookup_app_r by lia. rewrite Nat.sub_diag. simpl.
      rewrite insert_app_r_alt by lia.
      replace (length s + S (length m) - length s)%nat with (S (length m)) by lia.
      simpl. f_equal. f_equal.
      rewrite insert_app_r_alt by lia. rewrite Nat.sub_diag. simpl.
      by rewrite <- app_assoc. }
  destruct (shift_insert_split s (default x (head m)) (m1 ++ r) x)
    as (s1 & s2 & Hs & H2 & Hl & Heq).
  rewrite Heq.
  assert (m1 ≡ₚ m) as Hm1.
  { unfold m1. destruct m as [|y m]; simpl; [done|].
    by rewrite <- Permutation_cons_append. }
  exists s1, s2, m1. repeat (split; [done|]).
  assert (length (s1 ++ x :: s2) = S (length s)) as Hlen.
  { rewrite Hs, !length_app. simpl. lia. }
  rewrite Hlen. replace (S (length s) - 1)%nat with (length s) by lia.
  replace (S (length s) + length m1)%nat with (S (length s + length m)).
  2:{ apply Permutation_length in Hm1. lia. }
  f_equal. by rewrite <- !app_assoc.
Qed.

Lemma filter_score_below v (l : list ExtMove) (b : Z) :
  b <= v → Forall (λ e, value e < b) l → filter (λ e, value e = v) l = [].
Proof.
  intros Hb Hl. induction Hl as [|e l He _ IH]; [done|].
  rewrite filter_cons_False by (simpl in He; lia). done.
Qed.

(** The outer loop keeps the order in which the elements of one score at or
    above the limit stand. *)
Lemma pis_loop_stable limit v r s m :
  limit <= v → s ≠ [] → Forall (λ e, value e < limit) m →
  filter (λ e, value e = v)
    (pis_loop (length r) (s ++ m ++ r) (length s - 1) (length s + length m) limit)
  = filter (λ e, value e = v) s ++ filter (λ e, value e = v) r.
Proof.
  intros Hv. revert s m. induction r as [|x r IH]; intros s m Hne Hm.
  - simpl. rewrite app_nil_r, filter_app, (filter_score_below v m limit) by done.
    done.
  - change (length (x :: r)) with (S (length r)).
    destruct (Z.le_gt_cases limit (value x)) as [Hge|Hlt].
    + destruct (pis_loop_step_in limit s m x r Hne Hge)
        as (s1 & s2 & m1 & -> & H2 & _ & Hm1 & ->).
      rewrite IH.
      * rewrite !filter_app, <- !app_assoc.
        apply (f_equal (app (filter (λ e, value e = v) s1))).
        destruct (decide (value x = v)) as [Hx|Hx].
        -- rewrite !filter_cons_True by done.
           rewrite (filter_score_below v s2 (value x)) by (done || lia). done.
        -- rewrite !filter_cons_False by done. done.
      * by destruct s1.
      * by rewrite Hm1.
    + rewrite pis_loop_step_out by done. rewrite IH.
      * rewrite filter_cons_False by lia. done.
      * done.
      * apply Forall_app. split; [done|]. by constructor.
Qed.

(** Elements below the limit are passed over. *)
Lemma pis_loop_below limit pre r se :
  Forall (λ e, value e < limit) r →
  pis_loop (length r) (pre ++ r) se (length pre) limit = pre ++ r.
Proof.
  intros Hr. revert pre. induction Hr as [|x r Hx _ IH]; intros pre; [done|].
  change (length (x :: r)) with (S (length r)).
  pose proof (pis_loop_step_out limit pre [] x r se Hx) as Hstep.
  cbn [app length] in Hstep. rewrite Nat.add_0_r in Hstep. rewrite Hstep.
  replace (length pre + 1)%nat with (length (pre ++ [x])) by (by rewrite length_app).
  replace (pre ++ x :: r) with ((pre ++ [x]) ++ r) by (by rewrite <- app_assoc).
  apply IH.
Qed.

(** A range already in order is left as it is. *)
Lemma pis_loop_fix limit r1 r2 s :
  s ≠ [] → StronglySorted ge_value (s ++ r1) →
  Forall (meets limit) r1 → Forall (λ e, value e < limit) r2 →
  pis_loop (length (r1 ++ r2)) (s ++ r1 ++ r2) (length s - 1) (length s) limit
    = s ++ r1 ++ r2.
Proof.
  intros Hne Hs H1 H2. revert s Hne Hs.
  induction H1 as [|x r1 Hx _ IH]; intros s Hne Hs.
  - simpl. by apply pis_loop_below.
  - destruct (pis_loop_step_in limit s [] x (r1 ++ r2) Hne Hx)
      as (s1 & s2 & m1 & Heq & Hlt & _ & Hm1 & Hstep).
    apply Permutation_nil_r in Hm1. subst m1.
    cbn [app length] in Hstep. rewrite Nat.add_0_r in Hstep.
    cbn [app length]. rewrite Hstep. clear Hstep.
    assert (s2 = []) as ->.
    { destruct s2 as [|z s2]; [done|]. exfalso.
      apply Forall_cons in Hlt as [Hz _]. simpl in Hz.
      apply StronglySorted_app in Hs as (Hall & _ & _).
      specialize (Hall z x). unfold ge_value in Hall.
      assert (value x <= value z); [|lia].
      apply Hall; [|by left]. rewrite Heq. apply elem_of_app. right. by left. }
    rewrite app_nil_r in Heq. subst s1.
    rewrite Nat.add_0_r.
    replace (s ++ x :: r1 ++ r2) with ((s ++ [x]) ++ r1 ++ r2)
      by (by rewrite <- app_assoc).
    apply IH.
    + by destruct s.
    + by rewrite <- app_assoc.
Qed.
End sort_steps.

Section sort_more.
Implicit Types (l s t : list ExtMove).

(** The result is a non-increasing run of elements that meet the limit,
    followed by elements below it. *)
Lemma partial_insertion_sort_shape l limit :
  ∃ s t, partial_insertion_sort l limit = s ++ t ∧
         StronglySorted ge_value s ∧ Forall (meets limit) s ∧
         Forall (λ e, value e < limit) t.
Proof.
  destruct (partial_insertion_sort_prefix l limit) as (k & Hs & Hp).
  pose proof (partial_insertion_sort_perm l limit) as Hperm.
  exists (take k (partial_insertion_sort l limit)),
         (drop k (partial_insertion_sort l limit)).
  rewrite take_drop. split; [done|]. split; [done|]. split.
  - rewrite Hp. apply Forall_forall. intros e He.
    by apply list_elem_of_filter in He as [? _].
  - assert (drop k (partial_insertion_sort l limit)
              ≡ₚ filter (λ e, ¬ meets limit e) l) as Hd.
    { apply (Permutation_app_inv_l (take k (partial_insertion_sort l limit))).
      trans l; [by rewrite take_drop|].
      rewrite Hp. symmetry. apply filter_app_complement. }
    rewrite Hd. apply Forall_forall. intros e He.
    apply list_elem_of_filter in He as [He _]. unfold meets in He. lia.
Qed.
End sort_more.

(** Ties keep their order: for every score [v] at or above the limit, the
    elements of score [v] stand in the result in the order in which they
    stood in the range. *)
Theorem partial_insertion_sort_stable (l : list ExtMove) (limit v : Z) :
  limit <= v →
  filter (λ e, value e = v) (partial_insertion_sort l limit)
    = filter (λ e, value e = v) l.
Proof.
  intros Hv. destruct l as [|x0 r]; [done|].
  unfold partial_insertion_sort.
  replace (length (x0 :: r) - 1)%nat with (length r) by (simpl; lia).
  pose proof (pis_loop_stable limit v r [x0] [] Hv ltac:(done) ltac:(constructor))
    as Hst.
  cbn [app length Nat.sub Nat.add] in Hst. rewrite Hst.
  change (x0 :: r) with ([x0] ++ r). by rewrite filter_app.
Qed.

(** When every element meets the limit, as with the limit [INT_MIN] of the
    capture stages, the whole range ends up in non-increasing score order. *)
Theorem partial_insertion_sort_sorts_all (l : list ExtMove) (limit : Z) :
  Forall (meets limit) l →
  StronglySorted ge_value (partial_insertion_sort l limit) ∧
  partial_insertion_sort l limit ≡ₚ l.
Proof.
  intros Hall. split; [|apply partial_insertion_sort_perm].
  destruct (partial_insertion_sort_shape l limit) as (s & t & Heq & Hs & _ & Ht).
  assert (t = []) as ->.
  { destruct t as [|e t]; [done|]. exfalso.
    apply Forall_cons in Ht as [He _].
    assert (e ∈ l) as Hin.
    { rewrite <- (partial_insertion_sort_perm l limit), Heq.
      apply elem_of_app. right. by left. }
    rewrite Forall_forall in Hall. specialize (Hall e Hin).
    unfold meets in Hall. simpl in He. lia. }
  by rewrite Heq, app_nil_r.
Qed.

Lemma partial_insertion_sort_fixed (s t : list ExtMove) (limit : Z) :
  StronglySorted ge_value s → Forall (meets limit) s →
  Forall (λ e, value e < limit) t →
  partial_insertion_sort (s ++ t) limit = s ++ t.
Proof.
  intros Hs Hm Ht. unfold partial_insertion_sort.
  destruct s as [|z s].
  - destruct t as [|x t]; [done|]. cbn [app length].
    replace (S (length t) - 1)%nat with (length t) by lia.
    apply Forall_cons in Ht as [_ Ht].
    exact (pis_loop_below limit [x] t 0 Ht).
  - cbn [app length].
    replace (S (length (s ++ t)) - 1)%nat with (length (s ++ t)) by lia.
    apply Forall_cons in Hm as [_ Hm].
    exact (pis_loop_fix limit s t [z] ltac:(done) Hs Hm Ht).
Qed.

(** A range that is already a non-increasing run of elements meeting the
    limit followed by elements below it is left unchanged. *)
Theorem partial_insertion_sort_keeps_ordered (s t : list ExtMove) (limit : Z) :
  StronglySorted ge_value s → Forall (meets limit) s →
  Forall (λ e, value e < limit) t →
  partial_insertion_sort (s ++ t) limit = s ++ t.
Proof.
  intros Hs Hm Ht. unfold partial_insertion_sort.
  destruct s as [|z s].
  - (* nothing meets the limit: every element is passed over *)
    destruct t as [|x t]; [done|]. cbn [app length].
    replace (S (length t) - 1)%nat with (length t) by lia.
    apply Forall_cons in Ht as [_ Ht].
    exact (pis_loop_below limit [x] t 0 Ht).
  - (* each element of the run is put back where it stands *)
    cbn [app length].
    replace (S (length (s ++ t)) - 1)%nat with (length (s ++ t)) by lia.
    apply Forall_cons in Hm as [_ Hm].
    exact (pis_loop_fix limit s t [z] ltac:(done) Hs Hm Ht).
Qed.

(** Sorting a second time with the same limit changes nothing. *)
Theorem partial_insertion_sort_idempotent (l : list ExtMove) (limit : Z) :
  partial_insertion_sort (partial_insertion_sort l limit) limit
    = partial_insertion_sort l limit.
Proof.
  destruct (partial_insertion_sort_shape l limit) as (s & t & -> & Hs & Hm & Ht).
  by apply partial_insertion_sort_fixed.
Qed.

(** ** The stages are walked in order *)

Section stage_order.
Context `{TypesH}.
Implicit Types (mp : MovePicker) (m : Move).

Lemma onward_refl s : onward s s.
Proof. split; [done|]. unfold stage_le. lia. Qed.

Lemma onward_trans s t u : onward s t → onward t u → onward s u.
Proof.
  unfold onward, stage_le. intros [H1 H2] [H3 H4]. split; [congruence|lia].
Qed.

Ltac step_onward :=
  repeat match goal with
         | H : stage _ = _ |- _ => rewrite H in *; clear H
         end;
  first [ apply onward_refl
        | split; [reflexivity|unfold stage_le; simpl; lia] ].

Ltac selected_stage m1 mp1 Hs :=
  match goal with
  | Hc : context [select ?T ?f ?mp] |- _ =>
      let Hsel := fresh "Hsel" in
      destruct (select T f mp) as [[m1 mp1]|] eqn:Hsel; simpl in Hc; [|done];
      destruct (select_yield T f mp m1 mp1 ltac:(auto with mild) Hsel)
        as (_ & Hs & _)
  end.

Lemma case_BAD_QUIET_stage b mp m mp' :
  case_BAD_QUIET b mp = Some (m, mp') → stage mp' = stage mp.
Proof.
  unfold case_BAD_QUIET. destruct b; simpl.
  - by intros [= _ <-].
  - intros Hc. by destruct (select_yield _ _ _ _ _ not_refutation_mild Hc) as (_ & ? & _).
Qed.

Lemma case_BAD_CAPTURE_stage b mp m mp' :
  stage mp = BAD_CAPTURE → case_BAD_CAPTURE b mp = Some (m, mp') →
  onward BAD_CAPTURE (stage mp').
Proof.
  intros Hst Hc. unfold case_BAD_CAPTURE in Hc. selected_stage m1 mp1 Hs.
  destruct (is_move m1).
  - apply return_prev_state in Hc as ->. step_onward.
  - apply case_BAD_QUIET_stage in Hc. simpl in Hc. step_onward.
Qed.

Lemma to_bad_captures_stage b mp m mp' :
  stage mp = GOOD_QUIET → to_bad_captures b mp = Some (m, mp') →
  onward GOOD_QUIET (stage mp').
Proof.
  intros Hst Hc. unfold to_bad_captures in Hc.
  apply case_BAD_CAPTURE_stage in Hc; [|simpl; by rewrite Hst].
  eapply onward_trans; [|exact Hc]. step_onward.
Qed.

Lemma case_GOOD_QUIET_stage b mp m mp' :
  stage mp = GOOD_QUIET → case_GOOD_QUIET b mp = Some (m, mp') →
  onward GOOD_QUIET (stage mp').
Proof.
  intros Hst Hc. unfold case_GOOD_QUIET in Hc. destruct b; simpl in Hc.
  { by apply (to_bad_captures_stage true mp m). }
  selected_stage m1 mp1 Hs.
  destruct (is_move m1).
  - apply bind_Some in Hc as (q & _ & Hc).
    apply bind_Some in Hc as (e & _ & Hc).
    apply bind_Some in Hc as (d & _ & Hc).
    destruct (_ || _).
    + apply return_prev_state in Hc as ->. step_onward.
    + apply to_bad_captures_stage in Hc; [done|]. simpl. by rewrite Hs.
  - apply to_bad_captures_stage in Hc; [done|]. by rewrite Hs.
Qed.

Lemma case_QUIET_INIT_stage b mp m mp' :
  stage mp = QUIET_INIT → case_QUIET_INIT b mp = Some (m, mp') →
  onward QUIET_INIT (stage mp').
Proof.
  intros Hst Hc. unfold case_QUIET_INIT in Hc.
  apply bind_Some in Hc as (mp4 & Hq & Hc).
  assert (stage mp4 = stage mp) as Hs.
  { destruct b; simpl in Hq.
    - by injection Hq as <-.
    - apply bind_Some in Hq as ([e mp1] & Hg & Hq).
      apply bind_Some in Hq as (mp3 & Hsc & Hq).
      apply bind_Some in Hq as (d & _ & Hso).
      apply generate_moves_shape in Hg as (b1 & ->).
      apply score_shape in Hsc as (b2 & ->).
      apply sort_moves_shape in Hso as (b3 & ->). done. }
  apply case_GOOD_QUIET_stage in Hc; [|simpl; by rewrite Hs, Hst].
  eapply onward_trans; [|exact Hc]. step_onward.
Qed.

Lemma case_REFUTATION_stage b mp m mp' :
  stage mp = REFUTATION → case_REFUTATION b mp = Some (m, mp') →
  onward REFUTATION (stage mp').
Proof.
  intros Hst Hc. unfold case_REFUTATION in Hc. selected_stage m1 mp1 Hs.
  destruct (is_move m1).
  - apply return_prev_state in Hc as ->. step_onward.
  - apply case_QUIET_INIT_stage in Hc; [|simpl; by rewrite Hs, Hst].
    eapply onward_trans; [|exact Hc]. step_onward.
Qed.

Lemma case_GOOD_CAPTURE_stage b mp m mp' :
  stage mp = GOOD_CAPTURE → case_GOOD_CAPTURE b mp = Some (m, mp') →
  onward GOOD_CAPTURE (stage mp').
Proof.
  intros Hst Hc. unfold case_GOOD_CAPTURE in Hc. selected_stage m1 mp1 Hs.
  destruct (is_move m1).
  - apply return_prev_state in Hc as ->. step_onward.
  - apply bind_Some in Hc as (r0 & _ & Hc).
    apply bind_Some in Hc as (r1 & _ & Hc).
    apply bind_Some in Hc as (r2 & _ & Hc).
    apply case_REFUTATION_stage in Hc; [|simpl; by rewrite Hs, Hst].
    eapply onward_trans; [|exact Hc]. step_onward.
Qed.

Lemma case_EVASION_INIT_stage mp m mp' :
  stage mp = EVASION_INIT → case_EVASION_INIT mp = Some (m, mp') →
  stage mp' = EVASION.
Proof.
  intros Hst Hc. unfold case_EVASION_INIT in Hc.
  apply bind_Some in Hc as ([e mp1] & Hg & Hc).
  apply bind_Some in Hc as (mp2 & Hsc & Hc).
  apply generate_moves_shape in Hg as (b1 & ->).
  apply score_shape in Hsc as (b2 & ->).
  destruct (select_yield _ _ _ _ _ accept_all_mild Hc) as (_ & Hs & _).
  simpl in Hs. by rewrite Hs, Hst.
Qed.

Lemma case_QCHECK_INIT_stage mp m mp' :
  stage mp = QCHECK_INIT → case_QCHECK_INIT mp = Some (m, mp') →
  stage mp' = QCHECK.
Proof.
  intros Hst Hc. unfold case_QCHECK_INIT in Hc.
  apply bind_Some in Hc as ([e mp1] & Hg & Hc).
  apply generate_moves_shape in Hg as (b1 & ->).
  destruct (select_yield _ _ _ _ _ accept_all_mild Hc) as (_ & Hs & _).
  simpl in Hs. by rewrite Hs, Hst.
Qed.

Lemma case_QCAPTURE_stage mp m mp' :
  stage mp = QCAPTURE → case_QCAPTURE mp = Some (m, mp') →
  onward QCAPTURE (stage mp').
Proof.
  intros Hst Hc. unfold case_QCAPTURE in Hc. selected_stage m1 mp1 Hs.
  destruct (is_move m1).
  - apply return_prev_state in Hc as ->. step_onward.
  - apply bind_Some in Hc as (d & _ & Hc). destruct (negb _).
    + injection Hc as _ <-. step_onward.
    + apply case_QCHECK_INIT_stage in Hc; [|simpl; by rewrite Hs, Hst].
      step_onward.
Qed.

(** A call never goes back to an earlier stage, and never leaves its path. *)
Lemma next_move_onward b mp m mp' :
  next_move b mp = Some (m, mp') → onward (stage mp) (stage mp').
Proof.
  intros Hn. unfold next_move in Hn. simpl in Hn.
  destruct (stage mp) eqn:Hst;
    try (injection Hn as _ <-; simpl; rewrite Hst; step_onward);
    try (apply bind_Some in Hn as (mp1 & Hi & Hn);
         apply capture_init_shape in Hi as (b1 & e1 & ->);
         simpl in Hn; rewrite Hst in Hn; simpl in Hn).
  - apply case_GOOD_CAPTURE_stage in Hn; [|simpl; by rewrite Hst].
    eapply onward_trans; [|exact Hn]. step_onward.
  - by apply case_GOOD_CAPTURE_stage in Hn.
  - by apply case_REFUTATION_stage in Hn.
  - by apply case_QUIET_INIT_stage in Hn.
  - by apply case_GOOD_QUIET_stage in Hn.
  - by apply case_BAD_CAPTURE_stage in Hn.
  - apply case_BAD_QUIET_stage in Hn. rewrite Hn, Hst. step_onward.
  - apply case_EVASION_INIT_stage in Hn; [|done]. step_onward.
  - destruct (select_yield _ _ _ _ _ accept_all_mild Hn) as (_ & Hs & _).
    step_onward.
  - destruct (select_yield _ _ _ _ _ meets_threshold_mild Hn) as (_ & Hs & _).
    simpl in Hs. step_onward.
  - destruct (select_yield _ _ _ _ _ meets_threshold_mild Hn) as (_ & Hs & _).
    step_onward.
  - apply case_QCAPTURE_stage in Hn; [|simpl; by rewrite Hst].
    eapply onward_trans; [|exact Hn]. step_onward.
  - by apply case_QCAPTURE_stage in Hn.
  - apply case_QCHECK_INIT_stage in Hn; [|done]. step_onward.
  - destruct (select_yield _ _ _ _ _ accept_all_mild Hn) as (_ & Hs & _).
    step_onward.
Qed.

Lemma yield_stage_between b mp m mp' :
  next_move b mp = Some (m, mp') →
  onward (stage mp) (yield_stage mp mp') ∧ onward (yield_stage mp mp') (stage mp').
Proof.
  intros Hn. pose proof (next_move_onward b mp m mp' Hn) as Ho.
  unfold yield_stage. destruct (is_tt_stage (stage mp)).
  - split; [apply onward_refl|done].
  - split; [done|apply onward_refl].
Qed.

Lemma run_onward mp skips :
  Forall (onward (stage mp)) (run mp skips).*1 ∧
  StronglySorted stage_le (run mp skips).*1.
Proof.
  revert mp. induction skips as [|b skips IH]; intros mp; simpl.
  { split; constructor. }
  destruct (next_move b mp) as [[m mp']|] eqn:Hn; simpl; [|split; constructor].
  destruct (yield_stage_between b mp m mp' Hn) as [H1 H2].
  destruct (IH mp') as [Hall Hsorted].
  split.
  - constructor; [done|]. eapply Forall_impl; [exact Hall|].
    intros s Hs. simpl in Hs. eapply onward_trans; [|exact Hs].
    eapply onward_trans; [exact H1|exact H2].
  - constructor; [done|]. eapply Forall_impl; [exact Hall|].
    intros s Hs. simpl in Hs. destruct (onward_trans _ _ _ H2 Hs) as [_ Hle]. done.
Qed.

(** Off the main-search path [skipQuiets] is not looked at. *)
Lemma next_move_skip_blind b b' mp :
  stage_path (stage mp) ≠ MainPath → next_move b mp = next_move b' mp.
Proof.
  intros Hp. unfold next_move. simpl.
  destruct (stage mp) eqn:Hst; try done;
    destruct (capture_init mp) as [mp1|] eqn:Hi; try done; simpl;
    apply capture_init_shape in Hi as (b1 & e1 & ->); simpl; by rewrite Hst.
Qed.

Lemma run_skip_blind mp skips skips' :
  stage_path (stage mp) ≠ MainPath → length skips = length skips' →
  run mp skips = run mp skips'.
Proof.
  intros Hp. revert mp skips' Hp.
  induction skips as [|b skips IH]; intros mp [|b' skips'] Hp Hlen; try done.
  simpl. rewrite (next_move_skip_blind b b' mp Hp).
  destruct (next_move b' mp) as [[m mp']|] eqn:Hn; [|done].
  f_equal. apply IH; [|by injection Hlen].
  destruct (next_move_onward b' mp m mp' Hn) as [Hpath _]. congruence.
Qed.
End stage_order.

Section stage_claims.
Context `{TypesH}.

(** The moves of a run come out in the order of the stages: no call yields
    from a stage before the stage of an earlier call, and every stage is on
    the path the picker started on. *)
Theorem stages_in_order (mp : MovePicker) (skips : list bool) :
  StronglySorted stage_le (run mp skips).*1 ∧
  Forall (λ s, stage_path s = stage_path (stage mp)) (run mp skips).*1.
Proof.
  destruct (run_onward mp skips) as [Hall Hs]. split; [done|].
  eapply Forall_impl; [exact Hall|]. by intros s [? _].
Qed.

(** [skipQuiets] matters to the main-search path only: a quiescence or
    probing picker, and any picker of a position in check, makes the same
    run whatever the flags passed. *)
Theorem skip_quiets_ignored_off_main_path (p : Position) (c : Context)
    (skips skips' : list bool) :
  checkers p = true ∨ is_main_search c = false →
  length skips = length skips' →
  run (construct p c) skips = run (construct p c) skips'.
Proof.
  intros Hc Hlen. apply run_skip_blind; [|done].
  rewrite construct_stage.
  destruct c, (checkers p), (negb _); simpl; try done; by destruct Hc.
Qed.
End stage_claims.

(** ** Whole runs of the stages that only read the buffer *)

Section padding.
Implicit Types (l : list Move) (n : nat).

Lemma pads_0 l : pads 0 l = [].
Proof. done. Qed.

Lemma take_pad n k l :
  (n ≤ k)%nat →
  take n (l ++ replicate k Move_none) = take n (l ++ replicate n Move_none).
Proof.
  intros Hk. rewrite !take_app, !take_replicate. f_equal. f_equal. lia.
Qed.

Lemma pads_cons n x l : pads (S n) (x :: l) = x :: pads n l.
Proof.
  unfold pads. simpl. f_equal.
  change (Move_none :: replicate n Move_none) with (replicate (S n) Move_none).
  apply take_pad. lia.
Qed.

Lemma pads_nil n : pads (S n) [] = Move_none :: pads n [].
Proof. unfold pads. simpl. by rewrite !take_replicate, !Nat.min_id. Qed.

Lemma pads_nil_nil n : pads n ([] ++ []) = pads n [].
Proof. done. Qed.

Lemma length_pads n l : length (pads n l) = n.
Proof.
  unfold pads. rewrite length_take, length_app, length_replicate. lia.
Qed.
End padding.

Section finding.
Context {A : Type} (P : A → Prop) `{∀ x, Decision (P x)}.

Lemma filter_find_Some (l : list A) k x :
  list_find P l = Some (k, x) →
  filter P l = x :: filter P (drop (S k) l) ∧ l !! k = Some x ∧ P x.
Proof.
  revert k. induction l as [|y l IH]; intros k; [done|]. simpl.
  destruct (decide (P y)) as [Hy|Hy].
  - intros [= <- <-]. rewrite filter_cons_True by done. by rewrite drop_0.
  - intros Hf. apply fmap_Some in Hf as ([k' x'] & Hf & [= -> ->]).
    rewrite filter_cons_False by done. simpl. by apply IH.
Qed.

Lemma filter_find_None (l : list A) : list_find P l = None → filter P l = [].
Proof.
  induction l as [|y l IH]; [done|]. simpl.
  destruct (decide (P y)) as [Hy|Hy]; [done|].
  intros Hf. apply fmap_None in Hf. rewrite filter_cons_False by done. by apply IH.
Qed.
End finding.

Section scans.
Context `{TypesH}.
Implicit Types (mp : MovePicker) (m : Move) (test : Pred).

(** [select<Next>] with a test that reads the slot under the cursor and
    changes nothing returns the first slot it lets through and leaves the
    cursor behind it, or the none-sentinel with the cursor at the end. *)
Lemma select_loop_find test (P : ExtMove → bool) mp0 r :
  (∀ i c, region_of mp0 r !! i = Some c →
          test (set_cur (At r i) mp0) = Some (P c, set_cur (At r i) mp0)) →
  ∀ n i0, (i0 + n ≤ length (region_of mp0 r))%nat →
  select_loop Next test n (set_cur (At r i0) mp0) =
    Some match list_find (accepts (ttMove mp0) P)
                 (take n (drop i0 (region_of mp0 r))) with
         | Some (k, c) => (move c, set_cur (At r (S (i0 + k))) mp0)
         | None => (Move_none, set_cur (At r (i0 + n)) mp0)
         end.
Proof.
  intros Hf. induction n as [|n IH]; intros i0 Hlen.
  { simpl. by rewrite Nat.add_0_r. }
  destruct (lookup_lt_is_Some_2 (region_of mp0 r) i0 ltac:(lia)) as [c Hc].
  rewrite (drop_S _ _ _ Hc). cbn [take list_find].
  assert (deref (set_cur (At r i0) mp0) (cur (set_cur (At r i0) mp0)) = Some c)
    as Hd by (by destruct r).
  cbn [select_loop]. cbn [mbind option_bind]. rewrite Hd. cbn [mbind option_bind].
  change (ttMove (set_cur (At r i0) mp0)) with (ttMove mp0).
  rewrite (Hf i0 c Hc). cbn [mbind option_bind].
  change (set_cur (ptr_succ (cur (set_cur (At r i0) mp0))) (set_cur (At r i0) mp0))
    with (set_cur (At r (S i0)) mp0).
  rewrite Hd. cbn [mbind option_bind].
  assert (select_loop Next test n (set_cur (At r (S i0)) mp0) =
          Some match prod_map S id <$> list_find (accepts (ttMove mp0) P)
                       (take n (drop (S i0) (region_of mp0 r))) with
               | Some (k, c) => (move c, set_cur (At r (S (i0 + k))) mp0)
               | None => (Move_none, set_cur (At r (i0 + S n)) mp0)
               end) as Hrec.
  { rewrite IH by lia.
    destruct (list_find _ _) as [[k c']|]; simpl.
    - by rewrite Nat.add_succ_r.
    - by rewrite Nat.add_succ_r. }
  destruct (decide (accepts (ttMove mp0) P c)) as [[Hne HP]|Hna].
  - apply Z.eqb_neq in Hne. rewrite Hne, HP. simpl. by rewrite Nat.add_0_r.
  - destruct (Z.eqb_spec (move c) (ttMove mp0)) as [Heq|Hne]; simpl; [exact Hrec|].
    destruct (P c) eqn:HP; [|exact Hrec]. by destruct Hna.
Qed.

(** The same, from [cur] to [endMoves]. *)
Lemma select_find test (P : ExtMove → bool) mp0 r i j :
  (∀ i c, region_of mp0 r !! i = Some c →
          test (set_cur (At r i) mp0) = Some (P c, set_cur (At r i) mp0)) →
  endMoves mp0 = At r j → (i ≤ j ≤ length (region_of mp0 r))%nat →
  select Next test (set_cur (At r i) mp0) =
    Some match list_find (accepts (ttMove mp0) P) (slice i j (region_of mp0 r)) with
         | Some (k, c) => (move c, set_cur (At r (S (i + k))) mp0)
         | None => (Move_none, set_cur (At r j) mp0)
         end.
Proof.
  intros Hf He Hij. unfold select. simpl. rewrite He. simpl.
  rewrite decide_True by done. simpl.
  rewrite (select_loop_find test P mp0 r Hf) by lia.
  unfold slice. replace (i + (j - i))%nat with j by lia. done.
Qed.

Lemma drop_slice k i j (l : list ExtMove) :
  drop k (slice i j l) = slice (i + k) j l.
Proof.
  unfold slice. rewrite !take_drop_commute, drop_drop.
  destruct (decide (i + k ≤ j)%nat).
  - do 2 f_equal. lia.
  - rewrite !drop_ge; [done|rewrite length_take; lia..].
Qed.

Lemma lookup_slice k i j (l : list ExtMove) x :
  slice i j l !! k = Some x → l !! (i + k)%nat = Some x ∧ (i + k < j)%nat.
Proof.
  unfold slice. intros Hl. apply lookup_take_Some in Hl as [Hl Hk].
  rewrite lookup_drop in Hl. split; [done|lia].
Qed.

Lemma yielded_step b mp m mp' skips :
  next_move b mp = Some (m, mp') →
  yielded mp (b :: skips) = m :: yielded mp' skips.
Proof. intros Hn. unfold yielded. simpl. by rewrite Hn. Qed.

Lemma yielded_same b mp mp2 skips :
  next_move b mp = next_move b mp2 →
  yielded mp (b :: skips) = yielded mp2 (b :: skips).
Proof. intros Hn. unfold yielded. simpl. rewrite Hn. by destruct (next_move b mp2) as [[]|]. Qed.

Lemma return_prev_at mp r i c :
  region_of mp r !! i = Some c →
  return_prev (set_cur (At r (S i)) mp) = Some (move c, set_cur (At r (S i)) mp).
Proof.
  intros Hc. unfold return_prev. simpl.
  assert (region_of (set_cur (At r (S i)) mp) r !! i = Some c) as -> by (by destruct r).
  done.
Qed.

(** A stage that returns what [select] gives, as PROBCUT, QCHECK and
    BAD_QUIET do: its run yields the slots let through, in order, and the
    none-sentinel from then on. *)
Lemma yielded_scan (ok : bool → Prop) test (P : ExtMove → bool) mp0 r j :
  (∀ b i, ok b → next_move b (set_cur (At r i) mp0)
                 = select Next test (set_cur (At r i) mp0)) →
  (∀ i c, region_of mp0 r !! i = Some c →
          test (set_cur (At r i) mp0) = Some (P c, set_cur (At r i) mp0)) →
  endMoves mp0 = At r j → (j ≤ length (region_of mp0 r))%nat →
  ∀ skips i, Forall ok skips → (i ≤ j)%nat →
    yielded (set_cur (At r i) mp0) skips =
      pads (length skips)
        (ext_moves (filter (accepts (ttMove mp0) P) (slice i j (region_of mp0 r)))).
Proof.
  intros Hn Hf He Hj. induction skips as [|b skips IH]; intros i Hok Hi; [done|].
  apply Forall_cons in Hok as [Hb Hok].
  pose proof (select_find test P mp0 r i j Hf He ltac:(lia)) as Hsel.
  rewrite <- (Hn b i Hb) in Hsel.
  destruct (list_find _ _) as [[k c]|] eqn:Hfind.
  - apply filter_find_Some in Hfind as (Hfil & Hk & Hacc).
    apply lookup_slice in Hk as [Hk Hlt].
    rewrite (yielded_step _ _ _ _ _ Hsel), Hfil. simpl. rewrite pads_cons. f_equal.
    rewrite IH by (done || lia). rewrite drop_slice.
    by rewrite Nat.add_succ_r.
  - apply filter_find_None in Hfind.
    rewrite (yielded_step _ _ _ _ _ Hsel), Hfind. simpl. rewrite pads_nil. f_equal.
    rewrite IH by (done || lia).
    unfold slice. by rewrite Nat.sub_diag.
Qed.

(** A stage that returns [*(cur - 1)] when [select] gives a move and goes on
    as [K] when it gives the none-sentinel, as REFUTATION, BAD_CAPTURE and
    QCAPTURE do. *)
Lemma yielded_segment (ok : bool → Prop) test (P : ExtMove → bool) mp0 r i0 j
    (K : bool → MovePicker → option (Move * MovePicker)) mpN (lnext : list Move) :
  (∀ b i, ok b →
     next_move b (set_cur (At r i) mp0)
       = ('(m, mp1) ← select Next test (set_cur (At r i) mp0);
          if is_move m then return_prev mp1 else K b mp1)) →
  (∀ i c, region_of mp0 r !! i = Some c →
          test (set_cur (At r i) mp0) = Some (P c, set_cur (At r i) mp0)) →
  endMoves mp0 = At r j → (j ≤ length (region_of mp0 r))%nat →
  (∀ i c, (i0 ≤ i < j)%nat → region_of mp0 r !! i = Some c →
          accepts (ttMove mp0) P c → move c ≠ Move_none) →
  (∀ b, ok b → K b (set_cur (At r j) mp0) = next_move b mpN) →
  (∀ skips, Forall ok skips → yielded mpN skips = pads (length skips) lnext) →
  ∀ skips i, Forall ok skips → (i0 ≤ i ≤ j)%nat →
    yielded (set_cur (At r i) mp0) skips =
      pads (length skips)
        (ext_moves (filter (accepts (ttMove mp0) P) (slice i j (region_of mp0 r)))
         ++ lnext).
Proof.
  intros Hn Hf He Hj Hclean HK1 HK2.
  induction skips as [|b skips IH]; intros i Hok Hi; [done|].
  pose proof Hok as Hok'. apply Forall_cons in Hok as [Hb Hok].
  pose proof (select_find test P mp0 r i j Hf He ltac:(lia)) as Hsel.
  pose proof (Hn b i Hb) as Hnext. rewrite Hsel in Hnext. simpl in Hnext.
  destruct (list_find _ _) as [[k c]|] eqn:Hfind.
  - apply filter_find_Some in Hfind as (Hfil & Hk & Hacc).
    apply lookup_slice in Hk as [Hk Hlt].
    assert (is_move (move c) = true) as Hm.
    { unfold is_move. apply negb_true_iff, Z.eqb_neq.
      apply (Hclean (i + k)%nat); [lia|done|done]. }
    rewrite Hm, (return_prev_at mp0 r (i + k) c Hk) in Hnext.
    rewrite (yielded_step _ _ _ _ _ Hnext), Hfil. simpl. rewrite pads_cons. f_equal.
    rewrite IH by (done || lia). rewrite drop_slice.
    by rewrite Nat.add_succ_r.
  - apply filter_find_None in Hfind. rewrite Hfind. simpl.
    change (is_move Move_none) with false in Hnext.
    rewrite (HK1 b Hb) in Hnext.
    rewrite (yielded_same _ _ _ _ Hnext). by apply HK2.
Qed.

(** A picker whose calls all return the none-sentinel and leave it as it
    is. *)
Lemma yielded_exhausted (ok : bool → Prop) mp :
  (∀ b, ok b → next_move b mp = Some (Move_none, mp)) →
  ∀ skips, Forall ok skips → yielded mp skips = pads (length skips) [].
Proof.
  intros Hn. induction skips as [|b skips IH]; intros Hok; [done|].
  apply Forall_cons in Hok as [Hb Hok].
  rewrite (yielded_step _ _ _ _ _ (Hn b Hb)). cbn [length].
  rewrite pads_nil. f_equal. by apply IH.
Qed.
End scans.

(** ** Whole runs of the probing and quiescence pickers *)

Section whole_runs.
Context `{TypesH}.
Implicit Types (mp : MovePicker) (m : Move).

Lemma yielded_same_all mp mp2 skips :
  (∀ b, next_move b mp = next_move b mp2) → yielded mp skips = yielded mp2 skips.
Proof. intros Hn. destruct skips as [|b skips]; [done|]. by apply yielded_same. Qed.

(** The hash-move stage in front of a run. *)
Lemma yielded_construct p c (l : list Move) :
  (∀ skips, yielded (set_stage (stage_succ (first_stage p c)) (construct p c)) skips
            = pads (length skips) l) →
  ∀ skips, yielded (construct p c) skips = pads (length skips) (hash_first p c ++ l).
Proof.
  intros Hl skips. unfold hash_first.
  pose proof (construct_stage p c) as Hst. fold (first_stage p c) in Hst.
  destruct (tt_valid p c) eqn:Hv; simpl in Hst.
  - destruct skips as [|b skips]; [done|].
    assert (next_move b (construct p c)
            = Some (hash_move c, set_stage (stage_succ (first_stage p c)) (construct p c)))
      as Hn.
    { unfold next_move. simpl. rewrite Hst, <- (construct_ttMove p c).
      unfold incr_stage. rewrite Hst.
      unfold first_stage. by destruct c, (checkers p). }
    rewrite (yielded_step _ _ _ _ _ Hn). simpl. rewrite pads_cons. f_equal. apply Hl.
  - simpl. rewrite <- Hl. f_equal. rewrite <- Hst. by destruct c.
Qed.

(** After the captures are generated the picker stands at the head of the
    sorted captures. *)
Lemma capture_init_next b mp :
  moves mp = [] →
  stage mp = CAPTURE_INIT ∨ stage mp = PROBCUT_INIT ∨ stage mp = QCAPTURE_INIT →
  next_move b mp =
    next_move b
      (incr_stage
         (set_moves (sorted_captures (pos mp))
            (set_endMoves (At Moves (length (sorted_captures (pos mp))))
               (set_endBadCaptures (At Moves 0) (set_cur (At Moves 0) mp))))).
Proof.
  intros Hm Hst. rewrite length_sorted_captures.
  unfold next_move, next_move_from.
  destruct Hst as [Hst|[Hst|Hst]]; rewrite Hst; cbv beta iota;
    rewrite (capture_init_fresh mp Hm); cbn [mbind option_bind];
    change (stage (incr_stage _)) with (stage_succ (stage mp));
    rewrite Hst; reflexivity.
Qed.

Lemma meets_threshold_test mp0 th i c :
  threshold mp0 = Some th →
  region_of mp0 Moves !! i = Some c →
  meets_threshold (set_cur (At Moves i) mp0)
    = Some (see_test (pos mp0) th c, set_cur (At Moves i) mp0).
Proof. intros Hth Hc. by rewrite (meets_threshold_reads mp0 th i c Hth Hc). Qed.

Lemma accept_all_test mp0 r i c :
  region_of mp0 r !! i = Some c →
  accept_all (set_cur (At r i) mp0) = Some (any_test c, set_cur (At r i) mp0).
Proof. done. Qed.

Lemma probcut_init_run mp th skips :
  stage mp = PROBCUT_INIT → moves mp = [] → threshold mp = Some th →
  yielded mp skips =
    pads (length skips)
      (ext_moves (filter (accepts (ttMove mp) (see_test (pos mp) th))
                    (sorted_captures (pos mp)))).
Proof.
  intros Hst Hm Hth.
  rewrite (yielded_same_all mp _ skips (λ b, capture_init_next b mp Hm ltac:(auto))).
  set (S := sorted_captures (pos mp)).
  set (mp0 := incr_stage _).
  change mp0 with (set_cur (At Moves 0) mp0).
  rewrite (yielded_scan (λ _, True) meets_threshold (see_test (pos mp) th)
             mp0 Moves (length S)).
  - simpl. by rewrite slice_all.
  - intros b i _. unfold next_move. simpl. by rewrite Hst.
  - intros i c Hc. by apply (meets_threshold_test mp0 th i c).
  - done.
  - done.
  - by apply Forall_true.
  - lia.
Qed.
End whole_runs.

Section probcut_run.
Context `{TypesH}.

(** The whole run of a probing picker: the hash move when it passed the
    constructor's test, then the generated captures in the order the sort
    left them, without the hash move and without those that fail the
    static-exchange test against the threshold, then the none-sentinel for
    ever; every call has defined behaviour. *)
Theorem probcut_yields (p : Position) (ttm : Move) (th : Z)
    (cph : CapturePieceToHistory) (skips : list bool) :
  yielded (MovePicker_probcut p ttm th cph) skips =
    pads (length skips)
      (hash_first p (ProbCut ttm th cph)
       ++ ext_moves (filter (accepts ttm (see_test p th)) (sorted_captures p))).
Proof.
  apply (yielded_construct p (ProbCut ttm th cph)). clear skips. intros skips.
  by apply probcut_init_run.
Qed.
End probcut_run.

Section qsearch_run.
Context `{TypesH}.
Implicit Types (mp : MovePicker) (m : Move).

Lemma ext_moves_accepts_any tt (l : list ExtMove) :
  ext_moves (filter (accepts tt any_test) l) = filter (λ m, m ≠ tt) (ext_moves l).
Proof.
  unfold ext_moves. induction l as [|x l IH]; [done|]. simpl.
  destruct (decide (move x ≠ tt)) as [Hx|Hx].
  - rewrite filter_cons_True by done. rewrite filter_cons_True by done.
    simpl. by rewrite IH.
  - rewrite filter_cons_False by (by intros [? _]).
    by rewrite filter_cons_False.
Qed.

Lemma ext_moves_fresh (l : list Move) :
  ext_moves (map (λ m, mkExtMove m 0) l) = l.
Proof. unfold ext_moves. rewrite map_map. simpl. apply map_id. Qed.

(** QCHECK_INIT and QCHECK: the quiet checks, as generated. *)
Lemma qcheck_init_run mp skips :
  stage mp = QCHECK_INIT →
  yielded mp skips =
    pads (length skips)
      (filter (λ m, m ≠ ttMove mp) (generate (pos mp) QUIET_CHECKS)).
Proof.
  intros Hst.
  set (qc := generate (pos mp) QUIET_CHECKS).
  set (mp0 := incr_stage
                (set_endMoves (At Moves (length qc))
                   (set_moves (generate_at qc 0 (moves mp))
                      (set_cur (At Moves 0) mp)))).
  assert (∀ b, next_move b mp = next_move b mp0) as Hn.
  { intros b. unfold next_move. simpl. rewrite Hst. simpl.
    unfold case_QCHECK_INIT, generate_moves. simpl. done. }
  rewrite (yielded_same_all mp mp0 skips Hn).
  change mp0 with (set_cur (At Moves 0) mp0).
  pose proof (length_generate_at qc 0 (moves mp) ltac:(lia)) as Hlen.
  pose proof (slice_generate_at qc 0 (moves mp) ltac:(lia)) as Hsl.
  simpl in Hlen, Hsl.
  rewrite (yielded_scan (λ _, True) accept_all any_test mp0 Moves (length qc)).
  - simpl. rewrite Hsl, ext_moves_accepts_any, ext_moves_fresh. done.
  - intros b i _. unfold next_move. simpl. by rewrite Hst.
  - intros i c Hc. by apply accept_all_test.
  - done.
  - done.
  - by apply Forall_true.
  - lia.
Qed.

Lemma qcapture_init_run mp d skips :
  stage mp = QCAPTURE_INIT → moves mp = [] → depth mp = Some d →
  Move_none ∉ generate (pos mp) CAPTURES →
  yielded mp skips =
    pads (length skips)
      (filter (λ m, m ≠ ttMove mp) (ext_moves (sorted_captures (pos mp)))
       ++ (if d =? DEPTH_QS_CHECKS
           then filter (λ m, m ≠ ttMove mp) (generate (pos mp) QUIET_CHECKS)
           else [])).
Proof.
  intros Hst Hm Hd Hclean.
  rewrite (yielded_same_all mp _ skips (λ b, capture_init_next b mp Hm ltac:(auto))).
  set (S := sorted_captures (pos mp)).
  set (mp0 := incr_stage _).
  set (K := λ (b : bool) mp1,
         d ← depth mp1;
         if negb (d =? DEPTH_QS_CHECKS) then Some (Move_none, mp1)
         else case_QCHECK_INIT (incr_stage mp1)).
  assert (∀ b i, True →
            next_move b (set_cur (At Moves i) mp0)
              = ('(m, mp1) ← select Next accept_all (set_cur (At Moves i) mp0);
                 if is_move m then return_prev mp1 else K b mp1)) as Hn.
  { intros b i _. unfold next_move. simpl. by rewrite Hst. }
  assert (∀ i c, region_of mp0 Moves !! i = Some c →
                 accept_all (set_cur (At Moves i) mp0)
                   = Some (any_test c, set_cur (At Moves i) mp0)) as Hf by done.
  set (mpE := set_cur (At Moves (length S)) mp0).
  change mp0 with (set_cur (At Moves 0) mp0).
  rewrite <- ext_moves_accepts_any.
  assert (Move_none ∉ generate (pos mp) CAPTURES →
          ∀ i c, (0 ≤ i < length S)%nat → region_of mp0 Moves !! i = Some c →
                 accepts (ttMove mp0) any_test c → move c ≠ Move_none) as Hcl.
  { intros Hc i c _ Hic _. apply (sorted_capture_is_move (pos mp)); [done|].
    by apply list_elem_of_lookup_2 in Hic. }
  specialize (Hcl Hclean).
  set (lnext := if d =? DEPTH_QS_CHECKS
                then filter (λ m, m ≠ ttMove mp) (generate (pos mp) QUIET_CHECKS)
                else []).
  trans (pads (length skips)
           (ext_moves (filter (accepts (ttMove mp0) any_test)
                         (slice 0 (length S) (region_of mp0 Moves))) ++ lnext));
    [|simpl; by rewrite slice_all].
  unfold lnext. clear lnext.
  destruct (d =? DEPTH_QS_CHECKS) eqn:Hdq.
  - apply (yielded_segment (λ _, True) accept_all any_test mp0 Moves 0 (length S) K
             (incr_stage mpE)); try done.
    + intros b _. unfold K. simpl. rewrite Hd. simpl. rewrite Hdq. simpl.
      unfold next_move. simpl. by rewrite Hst.
    + intros sk _. apply (qcheck_init_run (incr_stage mpE) sk). simpl. by rewrite Hst.
    + by apply Forall_true.
    + lia.
  - apply (yielded_segment (λ _, True) accept_all any_test mp0 Moves 0 (length S) K
             mpE); try done.
    + intros b _. unfold mpE. rewrite (Hn b (length S) I).
      rewrite (select_find accept_all any_test mp0 Moves (length S) (length S))
        by (done || (simpl; lia)).
      unfold slice. rewrite Nat.sub_diag. done.
    + intros sk _. apply (yielded_exhausted (λ _, True)); [|by apply Forall_true].
      intros b _. unfold mpE. rewrite (Hn b (length S) I).
      rewrite (select_find accept_all any_test mp0 Moves (length S) (length S))
        by (done || (simpl; lia)).
      unfold slice. rewrite Nat.sub_diag. simpl.
      unfold K. simpl. rewrite Hd. simpl. by rewrite Hdq.
    + by apply Forall_true.
    + lia.
Qed.

(** The whole run of a quiescence picker whose side to move is not in
    check (the capture generator emits no none-sentinel): the hash move when
    it is present and pseudo-legal, then the generated captures in the order
    the sort left them, then, when the depth is [DEPTH_QS_CHECKS], the
    quiet checks in the order they were generated, the hash move left out of
    both, then the none-sentinel for ever; the [skipQuiets] flags play no
    part and every call has defined behaviour. *)
Theorem qsearch_yields (p : Position) (ttm : Move) (d : Depth)
    (mh : ButterflyHistory) (cph : CapturePieceToHistory)
    (ch : nat → PieceToHistory) (ph : PawnHistory) (skips : list bool) :
  checkers p = false →
  Move_none ∉ generate p CAPTURES →
  yielded (MovePicker_qsearch p ttm d mh cph ch ph) skips =
    pads (length skips)
      (hash_first p (QSearch ttm d mh cph ch ph)
       ++ filter (λ m, m ≠ ttm) (ext_moves (sorted_captures p))
       ++ (if d =? DEPTH_QS_CHECKS
           then filter (λ m, m ≠ ttm) (generate p QUIET_CHECKS)
           else [])).
Proof.
  intros Hck Hclean.
  apply (yielded_construct p (QSearch ttm d mh cph ch ph)). clear skips. intros skips.
  set (c := QSearch ttm d mh cph ch ph).
  apply (qcapture_init_run (set_stage (stage_succ (first_stage p c)) (construct p c)) d);
    simpl; try done. by rewrite Hck.
Qed.
End qsearch_run.

(** ** Whole runs of a picker in check *)

Section best_first.
Implicit Types (a : list ExtMove).

(** [std::max_element] gives a slot of greatest score. *)
Lemma max_element_loop_max a lo n :
  ∀ largest first,
  (lo ≤ largest < first)%nat → (first + n ≤ length a)%nat →
  (∀ j y x, (lo ≤ j < first)%nat → a !! j = Some y → a !! largest = Some x →
            value y <= value x) →
  ∃ i x, max_element_loop a largest first n = Some i ∧
         (lo ≤ i < first + n)%nat ∧ a !! i = Some x ∧
         ∀ j y, (lo ≤ j < first + n)%nat → a !! j = Some y → value y <= value x.
Proof.
  induction n as [|n IH]; intros largest first Hl Hlen Hmax.
  - destruct (lookup_lt_is_Some_2 a largest ltac:(lia)) as [x Hx].
    exists largest, x. simpl. split; [done|]. split; [lia|]. split; [done|].
    intros j y Hj Hy. apply (Hmax j y x); [lia|done|done].
  - destruct (lookup_lt_is_Some_2 a largest ltac:(lia)) as [l Hlg].
    destruct (lookup_lt_is_Some_2 a first ltac:(lia)) as [f Hf].
    simpl. rewrite Hlg, Hf. simpl.
    destruct (IH (if ext_lt l f then first else largest) (S first))
      as (i & x & Hi & Hr & Hx & Hall).
    + destruct (ext_lt l f); lia.
    + lia.
    + intros j y x Hj Hy Hx. unfold ext_lt in *.
      destruct (Z.ltb_spec (value l) (value f)) as [Hlt|Hge].
      * rewrite Hf in Hx. injection Hx as <-.
        destruct (decide (j = first)) as [->|Hne].
        -- rewrite Hf in Hy. injection Hy as <-. lia.
        -- pose proof (Hmax j y l ltac:(lia) Hy Hlg). lia.
      * rewrite Hlg in Hx. injection Hx as <-.
        destruct (decide (j = first)) as [->|Hne].
        -- rewrite Hf in Hy. injection Hy as <-. lia.
        -- apply (Hmax j y l); [lia|done|done].
    + exists i, x. split; [done|]. split; [lia|]. split; [done|].
      intros j y Hj. apply Hall. lia.
Qed.

Lemma max_element_max a first last :
  (first < last ≤ length a)%nat →
  ∃ i x, max_element a first last = Some i ∧ (first ≤ i < last)%nat ∧
         a !! i = Some x ∧
         ∀ j y, (first ≤ j < last)%nat → a !! j = Some y → value y <= value x.
Proof.
  intros Hfl. unfold max_element. rewrite decide_False by lia.
  destruct (max_element_loop_max a first (last - first - 1) first (S first))
    as (i & x & Hi & Hr & Hx & Hall).
  - lia.
  - lia.
  - intros j y x Hj Hy Hx. assert (j = first) as -> by lia.
    rewrite Hy in Hx. injection Hx as <-. lia.
  - exists i, x. split; [done|]. split; [lia|]. split; [done|].
    intros j y Hj. apply Hall. lia.
Qed.

Lemma slice_cons a b e x :
  a !! b = Some x → (b < e)%nat → slice b e a = x :: slice (S b) e a.
Proof.
  intros Hx Hbe. unfold slice. rewrite (drop_S _ _ _ Hx).
  replace (e - b)%nat with (S (e - S b)) by lia. done.
Qed.

Lemma slice_parts a b e :
  (b ≤ e)%nat → a = take b a ++ slice b e a ++ drop e a.
Proof.
  intros Hbe. unfold slice.
  rewrite <- (take_drop b a) at 1. f_equal.
  rewrite <- (take_drop (e - b) (drop b a)) at 1. f_equal.
  rewrite drop_drop. f_equal. lia.
Qed.

(** Swapping two slots of [b, e) permutes that range. *)
Lemma slice_swap a b e i x y :
  (b ≤ i < e)%nat → a !! b = Some x → a !! i = Some y →
  slice b e (<[i := x]> (<[b := y]> a)) ≡ₚ slice b e a.
Proof.
  intros Hi Hx Hy.
  set (a1 := <[i := x]> (<[b := y]> a)).
  assert (a1 ≡ₚ a) as Hp by (by apply Permutation_insert_swap).
  assert (take b a1 = take b a) as Ht.
  { unfold a1. rewrite !take_insert_ge by lia. done. }
  assert (drop e a1 = drop e a) as Hd.
  { unfold a1. rewrite !drop_insert_lt by lia. done. }
  rewrite (slice_parts a1 b e), (slice_parts a b e) in Hp at 1 by lia.
  rewrite Ht, Hd in Hp.
  apply Permutation_app_inv_l in Hp. by apply Permutation_app_inv_r in Hp.
Qed.
End best_first.

Section evasion_run.
Context `{TypesH}.
Variable tt : Move.
Variable e : nat.

(** A picker at EVASION with the buffer [buf] and the cursor at [b]. *)
Local Abbreviation at_ mp0 buf b := (set_moves buf (set_cur (At Moves b) mp0)).

Lemma swap_best_at mp0 buf b i x y :
  endMoves mp0 = At Moves e →
  max_element buf b e = Some i → buf !! b = Some x → buf !! i = Some y →
  swap_best (at_ mp0 buf b) = Some (at_ mp0 (<[i := x]> (<[b := y]> buf)) b).
Proof.
  intros He Hmax Hx Hy. unfold swap_best. simpl. rewrite He.
  rewrite decide_True by done. simpl. rewrite Hmax. simpl. rewrite Hx. simpl.
  rewrite Hy. simpl. unfold store. simpl.
  rewrite decide_True by (by apply lookup_lt_Some in Hx). simpl.
  rewrite decide_True
    by (rewrite length_insert; by apply lookup_lt_Some in Hy).
  done.
Qed.

(** From the cursor on, [select<Best>] yields the moves of the buffer that
    are not the hash move, each time one of greatest score among those
    left. *)
Lemma evasion_stage_run n :
  ∀ buf b, (b + n = e)%nat → (e ≤ length buf)%nat →
  ∃ l, l ≡ₚ filter (λ x, move x ≠ tt) (slice b e buf) ∧
       StronglySorted ge_value l ∧
       ∀ mp0 skips,
         stage mp0 = EVASION → endMoves mp0 = At Moves e → ttMove mp0 = tt →
         yielded (at_ mp0 buf b) skips = pads (length skips) (ext_moves l).
Proof.
  induction n as [|n IH]; intros buf b Hbn Hlen.
  - exists []. assert (b = e) as -> by lia.
    unfold slice. rewrite Nat.sub_diag. split; [done|]. split; [constructor|].
    intros mp0 skips Hst He Htt.
    apply (yielded_exhausted (λ _, True)); [|by apply Forall_true].
    intros bb _. unfold next_move. simpl. rewrite Hst.
    unfold case_EVASION, select. simpl. rewrite He. simpl.
    by rewrite Nat.sub_diag.
  - destruct (max_element_max buf b e ltac:(lia)) as (i & y & Hmax & Hi & Hy & Hall).
    destruct (lookup_lt_is_Some_2 buf b ltac:(lia)) as [x Hx].
    set (buf1 := <[i := x]> (<[b := y]> buf)).
    assert (length buf1 = length buf) as Hl1 by (unfold buf1; by rewrite !length_insert).
    assert (slice b e buf1 ≡ₚ slice b e buf) as Hp by (by apply slice_swap).
    assert (buf1 !! b = Some y) as Hb1.
    { unfold buf1. destruct (decide (i = b)) as [->|Hne].
      - rewrite list_lookup_insert_eq by (rewrite length_insert; lia). congruence.
      - rewrite list_lookup_insert_ne by done.
        apply list_lookup_insert_eq. lia. }
    assert (slice b e buf1 = y :: slice (S b) e buf1) as Hcons
      by (apply slice_cons; [done|lia]).
    destruct (IH buf1 (S b) ltac:(lia) ltac:(lia)) as (l' & Hp' & Hs' & Hrun).
    assert (∀ mp0 bb, stage mp0 = EVASION → endMoves mp0 = At Moves e →
              ttMove mp0 = tt →
              next_move bb (at_ mp0 buf b) =
                if negb (move y =? tt) then Some (move y, at_ mp0 buf1 (S b))
                else next_move bb (at_ mp0 buf1 (S b))) as Hnext.
    { intros mp0 bb Hst He Htt. unfold next_move. simpl. rewrite Hst.
      unfold case_EVASION, select. simpl. rewrite He. simpl.
      replace (e - b)%nat with (S (e - S b)) by lia.
      cbn [select_loop]. rewrite (swap_best_at mp0 buf b i x y He Hmax Hx Hy).
      fold buf1. simpl. rewrite Hb1. simpl. rewrite Htt.
      done. }
    destruct (Z.eqb_spec (move y) tt) as [Heq|Hne].
    + exists l'. split; [|split; [done|]].
      * rewrite Hp', <- Hp, Hcons. by rewrite filter_cons_False by (by intros ?).
      * intros mp0 skips Hst He Htt. rewrite <- (Hrun mp0 skips Hst He Htt).
        apply yielded_same_all. intros bb.
        rewrite (Hnext mp0 bb Hst He Htt). done.
    + exists (y :: l'). split; [|split].
      * rewrite <- Hp, Hcons. rewrite filter_cons_True by done. by rewrite Hp'.
      * constructor; [done|]. apply Forall_forall. intros z Hz.
        rewrite Hp' in Hz. apply list_elem_of_filter in Hz as [_ Hz].
        assert (z ∈ slice b e buf) as Hz'.
        { rewrite <- Hp, Hcons. by right. }
        apply list_elem_of_lookup in Hz' as [k Hk].
        apply lookup_slice in Hk as [Hk Hlt].
        unfold ge_value. apply (Hall (b + k)%nat); [lia|done].
      * intros mp0 skips Hst He Htt. destruct skips as [|bb skips]; [done|].
        pose proof (Hnext mp0 bb Hst He Htt) as Hn. simpl in Hn.
        rewrite (yielded_step _ _ _ _ _ Hn). simpl. rewrite pads_cons. f_equal.
        by apply Hrun.
Qed.
End evasion_run.

Section evasion_claim.
Context `{TypesH}.

(** EVASION_INIT on a picker whose buffer has not been written. *)
Lemma evasion_init_next bb mp mh :
  stage mp = EVASION_INIT → moves mp = [] → mainHistory mp = Some mh →
  next_move bb mp =
    next_move bb
      (set_moves (scored_evasions (pos mp) mh)
         (set_cur (At Moves 0)
            (incr_stage
               (set_endMoves (At Moves (length (scored_evasions (pos mp) mh))) mp)))).
Proof.
  intros Hst Hm Hmh. unfold next_move. simpl. rewrite Hst. simpl.
  unfold case_EVASION_INIT, generate_moves. simpl. rewrite Hm, generate_at_nil.
  set (ms := generate (pos mp) EVASIONS).
  set (l0 := map (λ m, mkExtMove m 0) ms).
  assert (length l0 = length ms) as Hl by (unfold l0; by rewrite length_map).
  set (f := λ m, if capture (pos mp) m then evasion_capture_value (pos mp) m
                 else evasion_quiet_value mh (pos mp) m).
  rewrite (score_defined EVASIONS _ 0 (length l0) f);
    [|done|simpl; by rewrite Hl|].
  2:{ intros x _. simpl. unfold f. destruct (capture (pos mp) (move x)); [done|].
      by rewrite Hmh. }
  simpl. rewrite slice_all, splice_all.
  assert (map (λ x, mkExtMove (move x) (f (move x))) l0 = scored_evasions (pos mp) mh)
    as ->.
  { unfold l0, scored_evasions. by rewrite map_map. }
  assert (length (scored_evasions (pos mp) mh) = length ms) as ->.
  { unfold scored_evasions. by rewrite length_map. }
  done.
Qed.

(** The whole run of a main-search or quiescence picker whose side to move
    is in check: the hash move when it is present and pseudo-legal, then
    every generated evasion other than the hash move, each once and in
    non-increasing order of score, then the none-sentinel for ever; every
    call has defined behaviour. *)
Theorem evasion_yields (p : Position) (ttm : Move) (d d' : Depth)
    (mh : ButterflyHistory) (cph : CapturePieceToHistory)
    (ch : nat → PieceToHistory) (ph : PawnHistory) (cm k0 k1 : Move) :
  checkers p = true →
  ∃ l, l ≡ₚ filter (λ x, move x ≠ ttm) (scored_evasions p mh) ∧
       StronglySorted ge_value l ∧
       ∀ skips,
         yielded (MovePicker_main p ttm d mh cph ch ph cm k0 k1) skips
           = pads (length skips)
               (hash_first p (MainSearch ttm d mh cph ch ph cm k0 k1) ++ ext_moves l) ∧
         yielded (MovePicker_qsearch p ttm d' mh cph ch ph) skips
           = pads (length skips)
               (hash_first p (QSearch ttm d' mh cph ch ph) ++ ext_moves l).
Proof.
  intros Hck.
  set (ev := scored_evasions p mh).
  destruct (evasion_stage_run ttm (length ev) (length ev) ev 0 ltac:(lia) ltac:(lia))
    as (l & Hp & Hs & Hrun).
  rewrite slice_all in Hp. exists l. split; [done|]. split; [done|].
  assert (∀ mp skips, stage mp = EVASION_INIT → moves mp = [] →
            mainHistory mp = Some mh → pos mp = p → ttMove mp = ttm →
            yielded mp skips = pads (length skips) (ext_moves l)) as Hinit.
  { intros mp skips Hst Hm Hmh Hpos Htt.
    rewrite (yielded_same_all mp _ skips (λ bb, evasion_init_next bb mp mh Hst Hm Hmh)).
    rewrite Hpos. fold ev. apply Hrun; simpl; [by rewrite Hst|done|done]. }
  intros skips. split.
  - apply (yielded_construct p (MainSearch ttm d mh cph ch ph cm k0 k1)).
    intros sk. apply Hinit; simpl; try done. by rewrite Hck.
  - apply (yielded_construct p (QSearch ttm d' mh cph ch ph)).
    intros sk. apply Hinit; simpl; try done. by rewrite Hck.
Qed.
End evasion_claim.

(** ** Whole runs of a main-search picker *)

Section main_order.
Context `{TypesH}.
Variable p : Position.
Variable tt : Move.
Variables k0 k1 cm : Move.
Variable d : Depth.
Variable mh : ButterflyHistory.
Variable ch : nat → PieceToHistory.

Local Abbreviation refs := [mkExtMove k0 0; mkExtMove k1 0; mkExtMove cm 0].
Local Abbreviation quiet := (accepts tt (quiet_test k0 k1 cm)).
Local Abbreviation same b := (λ x : bool, x = b).

Lemma not_refutation_test mp0 r i c :
  refutations mp0 = refs → region_of mp0 r !! i = Some c →
  not_refutation (set_cur (At r i) mp0)
    = Some (quiet_test k0 k1 cm c, set_cur (At r i) mp0).
Proof.
  intros Hr Hc. unfold not_refutation. simpl.
  assert (region_of (set_cur (At r i) mp0) r !! i = Some c) as -> by (by destruct r).
  simpl. rewrite Hr. done.
Qed.

Lemma same_replicate b n : Forall (same b) (replicate n b).
Proof. by apply Forall_replicate. Qed.

(** BAD_QUIET *)
Lemma bad_quiet_run b mp i j n :
  stage mp = BAD_QUIET → ttMove mp = tt → refutations mp = refs →
  (b = false → cur mp = At Moves i ∧ endMoves mp = At Moves j ∧
               (i ≤ j ≤ length (moves mp))%nat) →
  yielded mp (replicate n b) =
    pads n (if b then [] else ext_moves (filter quiet (slice i j (moves mp)))).
Proof.
  intros Hst Htt Hr Hb.
  rewrite <- (length_replicate n b) at 2.
  destruct b eqn:Eb.
  - apply (yielded_exhausted (same true)); [|by apply Forall_replicate].
    intros bb ->. unfold next_move. simpl. by rewrite Hst.
  - destruct (Hb eq_refl) as (Hc & He & Hij).
    rewrite <- (set_cur_cur mp) at 1. rewrite Hc.
    pose proof (yielded_scan (λ x, x = false) not_refutation (quiet_test k0 k1 cm)
                  mp Moves j) as Hscan.
    rewrite Htt in Hscan. apply Hscan.
    + intros bb i' ->. unfold next_move. simpl. by rewrite Hst.
    + intros i' c Hic. by apply not_refutation_test.
    + done.
    + simpl. lia.
    + by apply Forall_replicate.
    + lia.
Qed.

(** BAD_CAPTURE, and BAD_QUIET behind it *)
Lemma bad_capture_run b mp c e i j n :
  stage mp = BAD_CAPTURE → ttMove mp = tt → refutations mp = refs →
  cur mp = At Moves c → endMoves mp = At Moves e →
  (c ≤ e ≤ length (moves mp))%nat →
  (∀ x, x ∈ slice c e (moves mp) → move x ≠ Move_none) →
  (b = false → beginBadQuiets mp = At Moves i ∧ endBadQuiets mp = At Moves j ∧
               (i ≤ j ≤ length (moves mp))%nat) →
  yielded mp (replicate n b) =
    pads n (ext_moves (filter (accepts tt any_test) (slice c e (moves mp)))
            ++ (if b then [] else ext_moves (filter quiet (slice i j (moves mp))))).
Proof.
  intros Hst Htt Hr Hc He Hce Hclean Hb.
  rewrite <- (length_replicate n b) at 2.
  rewrite <- (set_cur_cur mp) at 1. rewrite Hc.
  set (K := λ (bb : bool) mp1,
         case_BAD_QUIET bb
           (incr_stage
              (set_endMoves (endBadQuiets mp1) (set_cur (beginBadQuiets mp1) mp1)))).
  set (mpN := incr_stage
                (set_endMoves (endBadQuiets mp) (set_cur (beginBadQuiets mp) mp))).
  pose proof (yielded_segment (same b) accept_all any_test mp Moves c e K mpN
                (if b then [] else ext_moves (filter quiet (slice i j (moves mp)))))
    as Hseg.
  rewrite Htt in Hseg. apply Hseg.
  - intros bb i' _. unfold next_move. simpl. by rewrite Hst.
  - done.
  - done.
  - simpl. lia.
  - intros i' x Hi Hx _. apply Hclean. apply list_elem_of_lookup.
    exists (i' - c)%nat. unfold slice. rewrite lookup_take_lt by lia.
    rewrite lookup_drop. by replace (c + (i' - c))%nat with i' by lia.
  - intros bb _. unfold K, mpN, next_move. simpl. by rewrite Hst.
  - intros skips Hsk.
    assert (skips = replicate (length skips) b) as ->.
    { clear -Hsk. induction Hsk as [|x l -> _ IH]; [done|]. simpl. by rewrite <- IH. }
    rewrite length_replicate.
    apply (bad_quiet_run b mpN i j); try done.
    unfold mpN. simpl. by rewrite Hst.
  - apply same_replicate.
  - lia.
Qed.

Lemma yielded_same_replicate b mp mp2 n :
  next_move b mp = next_move b mp2 →
  yielded mp (replicate n b) = yielded mp2 (replicate n b).
Proof. intros Hn. destruct n as [|n]; [done|]. by apply yielded_same. Qed.

Lemma set_beginBadQuiets_same mp q :
  beginBadQuiets mp = q → set_beginBadQuiets q mp = mp.
Proof. intros <-. by destruct mp. Qed.

(** GOOD_QUIET, and the bad captures and bad quiets behind it.  The quiet
    moves stand in the slots [i0, E); [i] is the cursor. *)
Lemma good_quiet_run b mp0 e0 i0 E n :
  stage mp0 = GOOD_QUIET → ttMove mp0 = tt → refutations mp0 = refs →
  depth mp0 = Some d →
  endBadCaptures mp0 = At Moves e0 → (e0 ≤ length (moves mp0))%nat →
  (∀ x, x ∈ slice 0 e0 (moves mp0) → move x ≠ Move_none) →
  (b = false →
     endMoves mp0 = At Moves E ∧ beginBadQuiets mp0 = At Moves E ∧
     endBadQuiets mp0 = At Moves E ∧ (E ≤ length (moves mp0))%nat ∧
     ∀ x, x ∈ slice i0 E (moves mp0) → move x ≠ Move_none) →
  ∀ i, (i0 ≤ i ≤ E)%nat →
  yielded (set_cur (At Moves i) mp0) (replicate n b) =
    pads n
      ((if b then []
        else ext_moves (take_while (good_quiet d)
                          (filter quiet (slice i E (moves mp0)))))
       ++ ext_moves (filter (accepts tt any_test) (slice 0 e0 (moves mp0)))
       ++ (if b then []
           else ext_moves (drop_while (good_quiet d)
                             (filter quiet (slice i E (moves mp0)))))).
Proof.
  intros Hst Htt Hr Hd Hbc He0 Hcl0 Hb.
  set (mpB := λ q, incr_stage
                     (set_endMoves (At Moves e0)
                        (set_cur (At Moves 0) (set_beginBadQuiets q mp0)))).
  assert (∀ q k j m, (b = false → q = At Moves k ∧ endBadQuiets mp0 = At Moves j ∧
                                  (k ≤ j ≤ length (moves mp0))%nat) →
            yielded (mpB q) (replicate m b) =
              pads m (ext_moves (filter (accepts tt any_test) (slice 0 e0 (moves mp0)))
                      ++ (if b then []
                          else ext_moves (filter quiet (slice k j (moves mp0))))))
    as Hbad.
  { intros q k j m Hq.
    apply (bad_capture_run b (mpB q) 0 e0 k j m); unfold mpB; simpl; try done.
    - by rewrite Hst.
    - lia. }
  destruct b.
  - (* the quiet moves are skipped *)
    intros i Hi. simpl.
    rewrite <- (Hbad (beginBadQuiets mp0) 0%nat 0%nat n) by done.
    apply yielded_same_replicate.
    unfold mpB, next_move. simpl. rewrite Hst. simpl.
    unfold case_GOOD_QUIET. simpl.
    rewrite (set_beginBadQuiets_same mp0) by done.
    unfold to_bad_captures. simpl. by rewrite Hbc.
  - destruct (Hb eq_refl) as (He & Hbq & Heq & HE & Hclq). clear Hb.
    induction n as [|n IH]; intros i Hi; [done|].
    set (A := filter quiet (slice i E (moves mp0))).
    assert (next_move false (set_cur (At Moves i) mp0) =
              match list_find quiet (slice i E (moves mp0)) with
              | Some (k, c) =>
                  if good_quiet d c
                  then Some (move c, set_cur (At Moves (S (i + k))) mp0)
                  else next_move false (mpB (At Moves (i + k)%nat))
              | None => next_move false (mpB (At Moves E))
              end) as Hnext.
    { unfold next_move at 1. simpl. rewrite Hst. unfold case_GOOD_QUIET. simpl.
      pose proof (select_find not_refutation (quiet_test k0 k1 cm) mp0 Moves i E)
        as Hsel.
      rewrite Htt in Hsel. rewrite Hsel; [|by intros; apply not_refutation_test|done|simpl; lia].
      simpl.
      destruct (list_find _ _) as [[k c]|] eqn:Hfind; simpl.
      - apply filter_find_Some in Hfind as (_ & Hk & Hacc).
        pose proof Hk as Hin. apply list_elem_of_lookup_2 in Hin.
        apply lookup_slice in Hk as [Hk Hlt].
        assert (is_move (move c) = true) as ->.
        { unfold is_move. apply negb_true_iff, Z.eqb_neq. apply Hclq.
          apply list_elem_of_lookup. exists (i + k - i0)%nat.
          unfold slice. rewrite lookup_take_lt by lia. rewrite lookup_drop.
          by replace (i0 + (i + k - i0))%nat with (i + k)%nat by lia. }
        simpl in Hk. simpl. rewrite Hk. simpl. rewrite Hd. simpl.
        fold (good_quiet d c). destruct (good_quiet d c).
        + exact (return_prev_at mp0 Moves (i + k) c Hk).
        + unfold to_bad_captures, mpB, next_move. simpl. rewrite Hbc, Hst. done.
      - change (is_move Move_none) with false. simpl.
        unfold to_bad_captures, mpB, next_move. simpl. rewrite Hbc, Hst. simpl.
        rewrite (set_beginBadQuiets_same mp0) by done. done. }
    destruct (list_find _ _) as [[k c]|] eqn:Hfind.
    + apply filter_find_Some in Hfind as (Hfil & Hk & Hacc).
      apply lookup_slice in Hk as [Hk Hlt].
      rewrite drop_slice in Hfil. fold A in Hfil.
      replace (i + S k)%nat with (S (i + k)) in Hfil by lia.
      rewrite Hfil. simpl.
      destruct (good_quiet d c) eqn:Hgq.
      * rewrite (yielded_step _ _ _ _ _ Hnext).
        change (ext_moves (c :: ?l)) with (move c :: ext_moves l).
        cbn [app]. rewrite pads_cons. f_equal.
        apply IH. lia.
      * rewrite (yielded_same _ _ _ _ Hnext).
        change (false :: replicate n false) with (replicate (S n) false).
        rewrite (Hbad (At Moves (i + k)%nat) (i + k)%nat E (S n))
          by (intros _; repeat split; (done || lia)).
        change (ext_moves [] ++ ?l) with l. do 3 f_equal.
        rewrite (slice_cons _ _ _ _ Hk) by lia.
        by rewrite filter_cons_True.
    + apply filter_find_None in Hfind. fold A in Hfind. rewrite Hfind. simpl.
      rewrite (yielded_same _ _ _ _ Hnext).
      change (false :: replicate n false) with (replicate (S n) false).
      rewrite (Hbad (At Moves E) E E (S n))
        by (intros _; repeat split; (done || lia)).
      change (ext_moves [] ++ ?l) with l. do 3 f_equal.
      unfold slice. by rewrite Nat.sub_diag.
Qed.

Lemma slice_0 (l : list ExtMove) e : slice 0 e l = take e l.
Proof. unfold slice. by rewrite Nat.sub_0_r. Qed.

Lemma elem_of_sorted_quiets x :
  x ∈ sorted_quiets p mh ch d → move x ∈ generate p QUIETS.
Proof.
  unfold sorted_quiets. rewrite partial_insertion_sort_perm.
  unfold scored_quiets. intros Hx.
  apply list_elem_of_fmap in Hx as (m & -> & Hm). done.
Qed.

(** QUIET_INIT with [skipQuiets] false, as a computation on the buffer. *)
Lemma quiet_init_compute mp e0 :
  stage mp = QUIET_INIT → pos mp = p → depth mp = Some d →
  mainHistory mp = Some mh → contHistory mp = Some ch →
  endBadCaptures mp = At Moves e0 →
  let E := (e0 + length (generate p QUIETS))%nat in
  let b1 := generate_at (generate p QUIETS) e0 (moves mp) in
  let b2 := splice e0 E
              (map (λ x : ExtMove, mkExtMove (move x) (quiet_value mh ch p (move x)))
                 (slice e0 E b1)) b1 in
  let b3 := splice e0 E
              (partial_insertion_sort (slice e0 E b2) (quiet_threshold d)) b2 in
  next_move false mp =
    next_move false
      (set_cur (At Moves e0)
         (incr_stage
            (set_moves b3
               (set_endMoves (At Moves E)
                  (set_beginBadQuiets (At Moves E)
                     (set_endBadQuiets (At Moves E) mp)))))).
Proof.
  intros Hst Hpos Hd Hmh Hch Hbc E b1 b2 b3.
  unfold next_move, next_move_from. rewrite Hst.
  change (stage (set_cur _ _)) with (stage_succ (stage mp)). rewrite Hst.
  cbn [stage_succ]. cbv beta iota.
  unfold case_QUIET_INIT. cbn [negb].
  rewrite Hbc. unfold generate_moves.
  change (cur (set_cur (At Moves e0) mp)) with (At Moves e0). cbv beta iota zeta.
  change (pos (set_cur (At Moves e0) mp)) with (pos mp). rewrite Hpos.
  cbn [mbind option_bind].
  fold b1. fold E.
  rewrite (score_defined QUIETS _ e0 E (quiet_value mh ch p));
    [|reflexivity|reflexivity|].
  2:{ intros x _. cbn [score_value].
      change (mainHistory _) with (mainHistory mp).
      change (contHistory _) with (contHistory mp).
      change (pos _) with (pos mp).
      rewrite Hmh, Hch, Hpos. reflexivity. }
  cbn [mbind option_bind].
  change (depth _) with (depth mp) at 1. rewrite Hd. cbn [mbind option_bind].
  unfold sort_moves. reflexivity.
Qed.

(** The quiet moves are written behind the bad captures, scored and
    sorted. *)
Lemma quiet_init_next mp e0 :
  stage mp = QUIET_INIT → pos mp = p → depth mp = Some d →
  mainHistory mp = Some mh → contHistory mp = Some ch →
  endBadCaptures mp = At Moves e0 → (e0 ≤ length (moves mp))%nat →
  let E := (e0 + length (generate p QUIETS))%nat in
  ∃ buf,
    next_move false mp =
      next_move false
        (set_cur (At Moves e0)
           (incr_stage
              (set_moves buf
                 (set_endMoves (At Moves E)
                    (set_beginBadQuiets (At Moves E)
                       (set_endBadQuiets (At Moves E) mp)))))) ∧
    take e0 buf = take e0 (moves mp) ∧
    slice e0 E buf = sorted_quiets p mh ch d ∧
    (E ≤ length buf)%nat.
Proof.
  intros Hst Hpos Hd Hmh Hch Hbc He0 E.
  pose proof (quiet_init_compute mp e0 Hst Hpos Hd Hmh Hch Hbc) as Hnext.
  cbv zeta in Hnext. fold E in Hnext.
  set (q := generate p QUIETS) in *.
  set (b1 := generate_at q e0 (moves mp)) in *.
  set (sc := λ x : ExtMove, mkExtMove (move x) (quiet_value mh ch p (move x))) in *.
  set (b2 := splice e0 E (map sc (slice e0 E b1)) b1) in *.
  set (b3 := splice e0 E (partial_insertion_sort (slice e0 E b2) (quiet_threshold d)) b2)
    in *.
  assert (slice e0 E b1 = map (λ m, mkExtMove m 0) q) as Hs1
    by (by apply slice_generate_at).
  assert (E ≤ length b1)%nat as Hl1 by (by apply length_generate_at).
  assert (slice e0 E b2 = scored_quiets p mh ch) as Hs2.
  { unfold b2. rewrite slice_splice; [|lia|].
    - rewrite Hs1, map_map. done.
    - rewrite Hs1, !length_map. unfold E. lia. }
  assert (length b2 = length b1) as Hl2.
  { unfold b2. apply length_splice; [unfold E; lia|done|].
    rewrite Hs1, !length_map. unfold E. lia. }
  assert (length (sorted_quiets p mh ch d) = (E - e0)%nat) as Hlq.
  { unfold sorted_quiets.
    rewrite (Permutation_length (partial_insertion_sort_perm _ _)).
    unfold scored_quiets. rewrite length_map. unfold E, q. lia. }
  exists b3. split; [exact Hnext|split; [|split]].
  - unfold b3. rewrite take_splice by lia. unfold b2. rewrite take_splice by lia.
    by apply take_generate_at.
  - unfold b3. rewrite slice_splice; [|lia|].
    + by rewrite Hs2.
    + rewrite Hs2. exact Hlq.
  - unfold b3. rewrite length_splice; [lia|unfold E; lia|lia|].
    rewrite Hs2. exact Hlq.
Qed.

(** QUIET_INIT and what follows it. *)
Lemma quiet_init_run b mp e0 n :
  stage mp = QUIET_INIT → pos mp = p → ttMove mp = tt → refutations mp = refs →
  depth mp = Some d → mainHistory mp = Some mh → contHistory mp = Some ch →
  endBadCaptures mp = At Moves e0 → (e0 ≤ length (moves mp))%nat →
  (∀ x, x ∈ take e0 (moves mp) → move x ≠ Move_none) →
  (b = false → Move_none ∉ generate p QUIETS) →
  yielded mp (replicate n b) =
    pads n
      ((if b then []
        else ext_moves (take_while (good_quiet d)
                          (quiets_to_yield p tt d mh ch cm k0 k1)))
       ++ ext_moves (filter (accepts tt any_test) (take e0 (moves mp)))
       ++ (if b then []
           else ext_moves (drop_while (good_quiet d)
                             (quiets_to_yield p tt d mh ch cm k0 k1)))).
Proof.
  intros Hst Hpos Htt Hr Hd Hmh Hch Hbc He0 Hcl0 Hq.
  destruct b.
  - assert (next_move true mp = next_move true (set_cur (At Moves 0) (incr_stage mp)))
      as Hnext.
    { unfold next_move. simpl. rewrite Hst. simpl. done. }
    rewrite (yielded_same_replicate _ _ _ n Hnext).
    pose proof (good_quiet_run true (incr_stage mp) e0 0 0 n) as Hg.
    change (moves (incr_stage mp)) with (moves mp) in Hg.
    rewrite slice_0 in Hg. apply Hg; simpl; try done; try lia.
    by rewrite Hst.
  - destruct (quiet_init_next mp e0 Hst Hpos Hd Hmh Hch Hbc He0)
      as (buf & Hnext & Htake & Hslice & Hlen).
    set (E := (e0 + length (generate p QUIETS))%nat) in *.
    rewrite (yielded_same_replicate _ _ _ n Hnext).
    set (mpG := incr_stage _).
    pose proof (good_quiet_run false mpG e0 e0 E n) as Hg.
    change (moves mpG) with buf in Hg.
    rewrite slice_0, Htake in Hg.
    unfold quiets_to_yield. rewrite <- Hslice. apply Hg; try done; try lia.
    + unfold mpG. simpl. by rewrite Hst.
    + intros _. repeat (split; [done|]). rewrite Hslice.
      intros x Hx Hn.
      apply elem_of_sorted_quiets in Hx. rewrite Hn in Hx. by apply Hq.
Qed.

Lemma playable_refutation_test mp0 r i c :
  pos mp0 = p → region_of mp0 r !! i = Some c →
  playable_refutation (set_cur (At r i) mp0)
    = Some (refutation_test p c, set_cur (At r i) mp0).
Proof.
  intros Hp Hc. rewrite (playable_refutation_reads mp0 r i c Hc). simpl.
  by rewrite Hp.
Qed.

Lemma ref_count_le : (ref_count refs ≤ 3)%nat.
Proof. unfold ref_count. destruct (_ || _); lia. Qed.

Lemma replicate_same b (skips : list bool) :
  Forall (same b) skips → skips = replicate (length skips) b.
Proof. induction 1 as [|x l -> _ IH]; [done|]. simpl. by rewrite <- IH. Qed.

(** The moves that follow the refutations, with the bad captures [bl]. *)
Local Abbreviation after_refutations b bl :=
  ((if b : bool then []
    else ext_moves (take_while (good_quiet d)
                      (quiets_to_yield p tt d mh ch cm k0 k1)))
   ++ ext_moves (filter (accepts tt any_test) bl)
   ++ (if b : bool then []
       else ext_moves (drop_while (good_quiet d)
                         (quiets_to_yield p tt d mh ch cm k0 k1)))).

(** REFUTATION and what follows it. *)
Lemma refutation_run b mp0 e0 n :
  stage mp0 = REFUTATION → pos mp0 = p → ttMove mp0 = tt → refutations mp0 = refs →
  depth mp0 = Some d → mainHistory mp0 = Some mh → contHistory mp0 = Some ch →
  endMoves mp0 = At Refutations (ref_count refs) →
  endBadCaptures mp0 = At Moves e0 → (e0 ≤ length (moves mp0))%nat →
  (∀ x, x ∈ take e0 (moves mp0) → move x ≠ Move_none) →
  (b = false → Move_none ∉ generate p QUIETS) →
  ∀ i, (i ≤ ref_count refs)%nat →
  yielded (set_cur (At Refutations i) mp0) (replicate n b) =
    pads n
      (ext_moves (filter (accepts tt (refutation_test p))
                    (slice i (ref_count refs) refs))
       ++ after_refutations b (take e0 (moves mp0))).
Proof.
  intros Hst Hpos Htt Hr Hd Hmh Hch He Hbc He0 Hcl0 Hq i Hi.
  rewrite <- (length_replicate n b) at 2.
  set (K := λ (bb : bool) mp1, case_QUIET_INIT bb (incr_stage mp1)).
  set (mpN := incr_stage (set_cur (At Refutations (ref_count refs)) mp0)).
  pose proof (yielded_segment (same b) playable_refutation (refutation_test p)
                mp0 Refutations 0 (ref_count refs) K mpN
                (after_refutations b (take e0 (moves mp0)))) as Hseg.
  rewrite Htt in Hseg. simpl region_of in Hseg. rewrite Hr in Hseg.
  apply Hseg.
  - intros bb i' _. unfold next_move. simpl. by rewrite Hst.
  - intros i' c Hc. apply playable_refutation_test; [done|]. simpl. by rewrite Hr.
  - done.
  - pose proof ref_count_le as Hle. cbn [length]. exact Hle.
  - intros i' c _ _ [_ Hc]. unfold refutation_test in Hc.
    apply andb_prop in Hc as [Hc _]. apply andb_prop in Hc as [Hc _].
    unfold is_move in Hc. by apply negb_true_iff, Z.eqb_neq in Hc.
  - intros bb _. unfold K, mpN, next_move. simpl. by rewrite Hst.
  - intros skips Hsk. rewrite (replicate_same b skips Hsk), length_replicate.
    apply (quiet_init_run b mpN e0); try done.
    unfold mpN. simpl. by rewrite Hst.
  - apply same_replicate.
  - lia.
Qed.

Local Abbreviation S := (sorted_captures p).

Lemma restate_cursor mp q e :
  endBadCaptures mp = At Moves e →
  set_cur q mp = set_cur q (set_endBadCaptures (At Moves e) (set_moves (moves mp) mp)).
Proof. intros He. destruct mp. simpl in *. by rewrite He. Qed.

(** [select<Next>] with the test of GOOD_CAPTURE, which puts the losing
    captures aside at the head of the buffer. *)
Lemma select_good_capture k :
  ∀ mp c e,
  pos mp = p → ttMove mp = tt → cur mp = At Moves c →
  endBadCaptures mp = At Moves e →
  capt_inv p tt S c e (moves mp) → (c + k = length S)%nat →
  Move_none ∉ generate p CAPTURES →
  ∃ m c' e' buf',
    select_loop Next good_capture k mp
      = Some (m, set_cur (At Moves c')
                   (set_endBadCaptures (At Moves e') (set_moves buf' mp))) ∧
    capt_inv p tt S c' e' buf' ∧
    ((m = Move_none ∧ c' = length S ∧ goods p tt (drop c S) = []) ∨
     (∃ x c'', m = move x ∧ move x ≠ Move_none ∧ c' = Datatypes.S c'' ∧
               buf' !! c'' = Some x ∧
               goods p tt (drop c S) = x :: goods p tt (drop c' S))).
Proof.
  induction k as [|k IH]; intros mp c e Hpos Htt Hcur Hbc Hinv Hck Hclean.
  - exists Move_none, c, e, (moves mp). split; [|split; [done|]].
    + simpl. do 2 f_equal. rewrite <- (set_cur_cur mp) at 1. rewrite Hcur.
      by apply restate_cursor.
    + left. split; [done|]. split; [lia|].
      replace c with (length S) by lia. by rewrite drop_all.
  - destruct (lookup_lt_is_Some_2 S c ltac:(lia)) as [x HS].
    assert (moves mp !! c = Some x) as Hx.
    { destruct Hinv as (_ & _ & _ & Hd).
      rewrite <- (Nat.add_0_r c), <- lookup_drop, Hd, lookup_drop, Nat.add_0_r.
      done. }
    destruct (capt_inv_lookup p tt _ _ _ _ _ Hinv Hx) as (_ & Hc1 & Hec & Hc2).
    assert (move x ≠ Move_none) as Hxm.
    { apply (sorted_capture_is_move p); [done|]. by eapply list_elem_of_lookup_2. }
    cbn [select_loop]. cbn [mbind option_bind].
    assert (deref mp (cur mp) = Some x) as Hd by (by rewrite Hcur).
    rewrite Hd. cbn [mbind option_bind]. rewrite Htt.
    destruct (Z.eqb_spec (move x) tt) as [Heq|Hne]; cbn [negb].
    + (* the hash move is passed over *)
      destruct (IH (set_cur (ptr_succ (cur mp)) mp) (Datatypes.S c) e)
        as (m & c' & e' & buf' & Hsel & Hinv' & Hres); try done.
      * simpl. by rewrite Hcur.
      * apply (capt_inv_skip p tt _ _ _ _ x); [done|done|]. intros [? _]. congruence.
      * lia.
      * exists m, c', e', buf'. split; [exact Hsel|]. split; [done|].
        rewrite (goods_drop_out p tt _ _ x HS) by (intros [? _]; congruence).
        done.
    + assert (good_capture mp =
                if good_see p x then Some (true, mp)
                else Some (false,
                           set_endBadCaptures (At Moves (Datatypes.S e))
                             (set_moves (<[e := x]> (moves mp)) mp))) as Hgc.
      { unfold good_capture. rewrite Hd. simpl. rewrite Hpos. fold (good_see p x).
        destruct (good_see p x); [done|].
        rewrite Hbc. unfold store. simpl. rewrite decide_True by lia.
        simpl. by rewrite Hbc. }
      rewrite Hgc. clear Hgc.
      destruct (good_see p x) eqn:Hgood; cbn [mbind option_bind].
      * (* a good capture *)
        rewrite Hd. cbn [mbind option_bind].
        exists (move x), (Datatypes.S c), e, (moves mp). split; [|split].
        -- do 2 f_equal. rewrite Hcur. simpl. by apply restate_cursor.
        -- apply (capt_inv_skip p tt _ _ _ _ x); [done|done|].
           intros [_ ?]. congruence.
        -- right. exists x, c. repeat (split; [done|]).
           by apply goods_drop_in.
      * (* a losing capture is put aside *)
        destruct (IH (set_cur (ptr_succ (cur mp))
                        (set_endBadCaptures (At Moves (Datatypes.S e))
                           (set_moves (<[e := x]> (moves mp)) mp)))
                     (Datatypes.S c) (Datatypes.S e))
          as (m & c' & e' & buf' & Hsel & Hinv' & Hres); try done.
        -- simpl. by rewrite Hcur.
        -- simpl. by apply capt_inv_put.
        -- lia.
        -- exists m, c', e', buf'. split; [exact Hsel|]. split; [done|].
           rewrite (goods_drop_out p tt _ _ x HS) by (intros [_ ?]; congruence).
           done.
Qed.

Lemma accepts_any_bads l : filter (accepts tt any_test) (bads p tt l) = bads p tt l.
Proof.
  unfold bads. induction l as [|x l IH]; [done|].
  destruct (decide (move x ≠ tt ∧ good_see p x = false)) as [Hx|Hx].
  - rewrite filter_cons_True by exact Hx.
    rewrite filter_cons_True by (by destruct Hx). by rewrite IH.
  - by rewrite filter_cons_False by exact Hx.
Qed.

(** GOOD_CAPTURE and what follows it. *)
Lemma good_capture_run b n :
  ∀ mp c e,
  stage mp = GOOD_CAPTURE → pos mp = p → ttMove mp = tt → refutations mp = refs →
  depth mp = Some d → mainHistory mp = Some mh → contHistory mp = Some ch →
  cur mp = At Moves c → endMoves mp = At Moves (length S) →
  endBadCaptures mp = At Moves e →
  capt_inv p tt S c e (moves mp) →
  Move_none ∉ generate p CAPTURES →
  (b = false → Move_none ∉ generate p QUIETS) →
  yielded mp (replicate n b) =
    pads n
      (ext_moves (goods p tt (drop c S))
       ++ ext_moves (filter (accepts tt (refutation_test p)) (ref_range refs))
       ++ after_refutations b (bads p tt S)).
Proof.
  induction n as [|n IH];
    intros mp c e Hst Hpos Htt Hr Hd Hmh Hch Hcur Hend Hbc Hinv Hclean Hq; [done|].
  assert (c ≤ length S)%nat as Hc by (by destruct Hinv).
  destruct (select_good_capture (length S - c) mp c e)
    as (m & c' & e' & buf' & Hsel & Hinv' & Hres); try done; [lia|].
  set (mp' := set_cur (At Moves c')
                (set_endBadCaptures (At Moves e') (set_moves buf' mp))) in *.
  assert (next_move b mp =
            '(m, mp1) ← Some (m, mp');
            if is_move m then return_prev mp1
            else case_REFUTATION b
                   (incr_stage
                      (set_endMoves (At Refutations (ref_count refs))
                         (set_cur (At Refutations 0) mp1)))) as Hnext.
  { unfold next_move. simpl. rewrite Hst. unfold case_GOOD_CAPTURE, select.
    rewrite Hcur, Hend. simpl. rewrite Hsel. simpl.
    destruct (is_move m); [done|]. rewrite Hr. done. }
  simpl in Hnext.
  destruct Hres as [(-> & -> & Hg)|(x & c'' & -> & Hxm & -> & Hx & Hg)].
  - (* the captures are exhausted *)
    change (is_move Move_none) with false in Hnext.
    set (mpR := incr_stage (set_endMoves (At Refutations (ref_count refs)) mp')).
    assert (next_move b mp = next_move b (set_cur (At Refutations 0) mpR)) as Hn2.
    { rewrite Hnext. unfold mpR, next_move. simpl. by rewrite Hst. }
    rewrite (yielded_same_replicate _ _ _ (Datatypes.S n) Hn2).
    assert (take e' buf' = bads p tt S) as Hbads.
    { destruct Hinv' as (_ & _ & Ht & _). rewrite Ht. by rewrite take_ge. }
    pose proof (refutation_run b mpR e' (Datatypes.S n)) as Hrun.
    change (moves mpR) with buf' in Hrun. rewrite Hbads in Hrun.
    rewrite Hg. change (ext_moves [] ++ ?l) with l.
    unfold ref_range. rewrite <- (slice_0 refs (ref_count refs)).
    apply Hrun; try done.
    + unfold mpR. simpl. by rewrite Hst.
    + destruct Hinv' as (_ & He' & Ht & _).
      rewrite take_ge in He' by lia. rewrite <- Hbads, length_take in He'. lia.
    + intros y Hy. apply elem_of_bads in Hy as [Hy _].
      by apply (sorted_capture_is_move p).
    + lia.
  - (* a good capture is returned *)
    assert (is_move (move x) = true) as Hm.
    { unfold is_move. by apply negb_true_iff, Z.eqb_neq. }
    rewrite Hm in Hnext.
    assert (return_prev mp' = Some (move x, mp')) as Hret.
    { exact (return_prev_at
               (set_endBadCaptures (At Moves e') (set_moves buf' mp)) Moves c'' x Hx). }
    rewrite Hret in Hnext.
    change (replicate (Datatypes.S n) b) with (b :: replicate n b).
    rewrite (yielded_step _ _ _ _ _ Hnext), Hg.
    change (ext_moves (x :: ?l)) with (move x :: ext_moves l).
    cbn [app]. rewrite pads_cons. f_equal.
    apply (IH mp' (Datatypes.S c'') e'); done.
Qed.

Lemma yielded_construct_same b c (l : list Move) :
  (∀ n, yielded (set_stage (stage_succ (first_stage p c)) (construct p c))
          (replicate n b) = pads n l) →
  ∀ n, yielded (construct p c) (replicate n b) = pads n (hash_first p c ++ l).
Proof.
  intros Hl n. unfold hash_first.
  pose proof (construct_stage p c) as Hst. fold (first_stage p c) in Hst.
  destruct (tt_valid p c) eqn:Hv; simpl in Hst.
  - destruct n as [|n]; [done|].
    assert (next_move b (construct p c)
            = Some (hash_move c, set_stage (stage_succ (first_stage p c)) (construct p c)))
      as Hn.
    { unfold next_move. simpl. rewrite Hst, <- (construct_ttMove p c).
      unfold incr_stage. rewrite Hst.
      unfold first_stage. by destruct c, (checkers p). }
    simpl replicate. rewrite (yielded_step _ _ _ _ _ Hn). simpl.
    rewrite pads_cons. f_equal. apply Hl.
  - simpl. rewrite <- Hl. f_equal. rewrite <- Hst. by destruct c.
Qed.
End main_order.

Section main_order_claim.
Context `{TypesH}.

(** From the constructor to the end, with the tests of the stages. *)
Lemma main_search_run p ttm d mh cph ch ph cm k0 k1 (skip : bool) n :
  checkers p = false →
  Move_none ∉ generate p CAPTURES →
  (skip = false → Move_none ∉ generate p QUIETS) →
  yielded (MovePicker_main p ttm d mh cph ch ph cm k0 k1) (replicate n skip) =
    pads n
      (hash_first p (MainSearch ttm d mh cph ch ph cm k0 k1)
       ++ ext_moves (goods p ttm (sorted_captures p))
       ++ ext_moves (filter (accepts ttm (refutation_test p))
                       (ref_range [mkExtMove k0 0; mkExtMove k1 0; mkExtMove cm 0]))
       ++ (if skip then []
           else ext_moves (take_while (good_quiet d)
                             (quiets_to_yield p ttm d mh ch cm k0 k1)))
       ++ ext_moves (filter (accepts ttm any_test) (bads p ttm (sorted_captures p)))
       ++ (if skip then []
           else ext_moves (drop_while (good_quiet d)
                             (quiets_to_yield p ttm d mh ch cm k0 k1)))).
Proof.
  intros Hck Hclean Hq.
  set (c := MainSearch ttm d mh cph ch ph cm k0 k1).
  apply (yielded_construct_same p skip c). clear n. intros n.
  set (mpI := set_stage (stage_succ (first_stage p c)) (construct p c)).
  assert (stage mpI = CAPTURE_INIT) as Hst by (simpl; by rewrite Hck).
  rewrite (yielded_same_replicate _ _ _ n
             (capture_init_next skip mpI eq_refl ltac:(auto))).
  rewrite <- (drop_0 (sorted_captures p)) at 2.
  apply (good_capture_run p ttm k0 k1 cm d mh ch skip n _ 0 0); simpl; try done.
  - by rewrite Hck.
  - unfold capt_inv. simpl. repeat split; (done || lia).
Qed.


Lemma good_quiet_shallow d c : 0 < d <= 2 → good_quiet d c = true.
Proof.
  intros Hd. unfold good_quiet, quiet_threshold, mul32.
  rewrite wrap32_small by lia.
  destruct (Z.ltb_spec (-8000) (value c)) as [|Hle]; [done|].
  simpl. apply Z.leb_le. lia.
Qed.

Lemma take_while_all {A} (f : A → bool) (l : list A) :
  (∀ x, f x = true) → take_while f l = l ∧ drop_while f l = [].
Proof.
  intros Hf. induction l as [|x l [IH1 IH2]]; [done|]. simpl.
  rewrite Hf, IH1, IH2. done.
Qed.

(** At depth 1 and 2 the sort limit [-3330 * depth] is above -8000, so
    GOOD_QUIET returns every quiet move it finds: all the quiet moves come
    before the captures put aside and BAD_QUIET yields nothing. *)
Theorem shallow_depth_no_bad_quiets (p : Position) (ttm : Move) (d : Depth)
    (mh : ButterflyHistory) (cph : CapturePieceToHistory)
    (ch : nat → PieceToHistory) (ph : PawnHistory) (cm k0 k1 : Move) (n : nat) :
  0 < d <= 2 →
  checkers p = false →
  Move_none ∉ generate p CAPTURES →
  Move_none ∉ generate p QUIETS →
  yielded (MovePicker_main p ttm d mh cph ch ph cm k0 k1) (replicate n false) =
    pads n
      (hash_first p (MainSearch ttm d mh cph ch ph cm k0 k1)
       ++ ext_moves (goods p ttm (sorted_captures p))
       ++ ext_moves (filter (playable p ttm)
                       (ref_range [mkExtMove k0 0; mkExtMove k1 0; mkExtMove cm 0]))
       ++ ext_moves (quiets_to_yield p ttm d mh ch cm k0 k1)
       ++ ext_moves (bads p ttm (sorted_captures p))).
Proof.
  intros Hd Hck Hclean Hq.
  rewrite (main_search_run p ttm d mh cph ch ph cm k0 k1 false n Hck Hclean
             (λ _, Hq)).
  destruct (take_while_all (good_quiet d) (quiets_to_yield p ttm d mh ch cm k0 k1)
              (λ c, good_quiet_shallow d c Hd)) as [-> ->].
  rewrite (accepts_any_bads p ttm (sorted_captures p)).
  change (ext_moves []) with (@nil Move). rewrite app_nil_r.
  reflexivity.
Qed.
End main_order_claim.

(** ** The contract of select, and of the capture stages' set-up *)

Section contracts.
Context `{TypesH}.

(** [select<Next>] with a test that reads the slot under the cursor and
    changes nothing: the call is defined; it returns the move of the first
    slot of [cur, endMoves) that is not the hash move and passes the test,
    with the cursor just behind that slot, so that [*(cur - 1)] is the move
    returned; when there is no such slot it returns the none-sentinel with
    the cursor at [endMoves]. *)
Theorem select_returns_first_accepted (test : Pred) (P : ExtMove → bool)
    (mp : MovePicker) (r : Region) (i j : nat) :
  (∀ k c, region_of mp r !! k = Some c →
          test (set_cur (At r k) mp) = Some (P c, set_cur (At r k) mp)) →
  cur mp = At r i → endMoves mp = At r j →
  (i ≤ j ≤ length (region_of mp r))%nat →
  ∃ m mp',
    select Next test mp = Some (m, mp') ∧
    ((∃ k c, (i ≤ k < j)%nat ∧ region_of mp r !! k = Some c ∧
             accepts (ttMove mp) P c ∧
             (∀ k' c', (i ≤ k' < k)%nat → region_of mp r !! k' = Some c' →
                       ¬ accepts (ttMove mp) P c') ∧
             m = move c ∧ mp' = set_cur (At r (S k)) mp ∧
             return_prev mp' = Some (m, mp'))
     ∨
     ((∀ k c, (i ≤ k < j)%nat → region_of mp r !! k = Some c →
              ¬ accepts (ttMove mp) P c) ∧
      m = Move_none ∧ mp' = set_cur (At r j) mp)).
Proof.
  intros Htest Hcur Hend Hij.
  pose proof (select_find test P mp r i j Htest Hend Hij) as Hsel.
  rewrite <- Hcur, set_cur_cur in Hsel.
  destruct (list_find _ _) as [[k c]|] eqn:Hfind.
  - apply list_find_Some in Hfind as (Hk & Hacc & Hfirst).
    apply lookup_slice in Hk as [Hk Hlt].
    exists (move c), (set_cur (At r (S (i + k))) mp). split; [done|]. left.
    exists (i + k)%nat, c. split; [lia|]. split; [done|]. split; [done|].
    split; [|split; [done|split; [done|]]].
    + intros k' c' Hk' Hc'. apply (Hfirst (k' - i)%nat c'); [|lia].
      unfold slice. rewrite lookup_take_lt by lia. rewrite lookup_drop.
      by replace (i + (k' - i))%nat with k' by lia.
    + by apply return_prev_at.
  - apply list_find_None in Hfind.
    exists Move_none, (set_cur (At r j) mp). split; [done|]. right.
    split; [|done]. intros k c Hk Hc.
    rewrite Forall_forall in Hfind. apply Hfind.
    apply list_elem_of_lookup. exists (k - i)%nat.
    unfold slice. rewrite lookup_take_lt by lia. rewrite lookup_drop.
    by replace (i + (k - i))%nat with k by lia.
Qed.

Lemma capture_value_exact p m :
  (∀ pc, int16_range (PieceValueMG pc)) →
  (∀ c m, int16_range (relative_rank c (to_sq m))) →
  capture_value p m =
    PieceValueMG (piece_on p (to_sq m))
    - 200 * relative_rank (side_to_move p) (to_sq m).
Proof.
  intros Hpv Hrr. unfold capture_value, sub32, mul32.
  pose proof (Hpv (piece_on p (to_sq m))) as H1.
  pose proof (Hrr (side_to_move p) m) as H2.
  unfold int16_range in *.
  rewrite (wrap32_small (200 * _)) by lia. rewrite wrap32_small by lia. done.
Qed.

(** What CAPTURE_INIT, PROBCUT_INIT and QCAPTURE_INIT leave behind on a
    picker whose buffer has not been written: the buffer holds exactly the
    generated captures, each with the score piece value of the captured
    piece minus 200 times the relative rank of the destination (piece values
    and the ranks of destinations being 16-bit quantities, the subtraction
    does not wrap), in
    non-increasing score order; the cursor and [endBadCaptures] stand at the
    start of the buffer, [endMoves] behind the last capture, and the stage
    is the next one. *)
Theorem capture_init_leaves_sorted_captures (mp : MovePicker) :
  (∀ pc, int16_range (PieceValueMG pc)) →
  (∀ c m, int16_range (relative_rank c (to_sq m))) →
  moves mp = [] →
  ∃ mp',
    capture_init mp = Some mp' ∧
    stage mp' = stage_succ (stage mp) ∧
    cur mp' = At Moves 0 ∧ endBadCaptures mp' = At Moves 0 ∧
    endMoves mp' = At Moves (length (generate (pos mp) CAPTURES)) ∧
    StronglySorted ge_value (moves mp') ∧
    moves mp' ≡ₚ
      map (λ m, mkExtMove m
                  (PieceValueMG (piece_on (pos mp) (to_sq m))
                   - 200 * relative_rank (side_to_move (pos mp)) (to_sq m)))
          (generate (pos mp) CAPTURES).
Proof.
  intros Hpv Hrr Hm. eexists. split; [by apply capture_init_fresh|].
  simpl. repeat (split; [done|]). split.
  - apply sorted_captures_sorted.
  - rewrite sorted_captures_perm. unfold scored_captures.
    assert (map (λ m, mkExtMove m (capture_value (pos mp) m))
              (generate (pos mp) CAPTURES)
            = map (λ m, mkExtMove m
                          (PieceValueMG (piece_on (pos mp) (to_sq m))
                           - 200 * relative_rank (side_to_move (pos mp)) (to_sq m)))
                (generate (pos mp) CAPTURES)) as ->; [|done].
    apply map_ext. intros m. by rewrite capture_value_exact.
Qed.
End contracts.

(** ** Every call is defined as long as skipQuiets does not go back to false *)

Section defined.
Context `{TypesH}.
Implicit Types (mp : MovePicker) (m : Move) (b sk : bool).

























End defined.

Section defined_claim.
Context `{TypesH}.

End defined_claim.

(** ** No move is lost *)

Section nothing_lost.
Context `{TypesH}.

Lemma take_drop_while {A} (f : A → bool) (l : list A) :
  take_while f l ++ drop_while f l = l.
Proof.
  induction l as [|x l IH]; [done|]. simpl.
  destruct (f x); [simpl; by rewrite IH|done].
Qed.

Lemma ext_moves_app (l k : list ExtMove) :
  ext_moves (l ++ k) = ext_moves l ++ ext_moves k.
Proof. apply fmap_app. Qed.

Lemma ext_moves_perm (l k : list ExtMove) : l ≡ₚ k → ext_moves l ≡ₚ ext_moves k.
Proof. intros Hp. unfold ext_moves. by rewrite Hp. Qed.

(** The quiet moves left to the two quiet stages, whatever their scores. *)
Lemma ext_moves_quiets_to_yield p ttm d mh ch cm k0 k1 :
  ext_moves (quiets_to_yield p ttm d mh ch cm k0 k1)
    ≡ₚ filter (λ m, m ≠ ttm ∧ m ≠ k0 ∧ m ≠ k1 ∧ m ≠ cm) (generate p QUIETS).
Proof.
  unfold quiets_to_yield, sorted_quiets.
  rewrite (ext_moves_perm _ (filter (accepts ttm (quiet_test k0 k1 cm))
                               (scored_quiets p mh ch)))
    by (by rewrite partial_insertion_sort_perm).
  unfold scored_quiets, ext_moves.
  induction (generate p QUIETS) as [|m l IH]; [done|]. simpl.
  assert (accepts ttm (quiet_test k0 k1 cm) (mkExtMove m (quiet_value mh ch p m))
          ↔ m ≠ ttm ∧ m ≠ k0 ∧ m ≠ k1 ∧ m ≠ cm) as Hiff.
  { unfold accepts, quiet_test. simpl.
    rewrite !andb_true_iff, !negb_true_iff, !Z.eqb_neq. tauto. }
  destruct (decide (m ≠ ttm ∧ m ≠ k0 ∧ m ≠ k1 ∧ m ≠ cm)) as [Hm|Hm].
  - rewrite filter_cons_True by (by apply Hiff).
    rewrite (filter_cons_True (λ m, m ≠ ttm ∧ _)) by done. simpl. by rewrite IH.
  - rewrite filter_cons_False by (by rewrite Hiff).
    by rewrite (filter_cons_False (λ m, m ≠ ttm ∧ _)) by done.
Qed.

(** The captures of the two capture stages, whatever the static-exchange
    test says. *)
Lemma ext_moves_goods_bads p ttm :
  ext_moves (goods p ttm (sorted_captures p))
  ++ ext_moves (bads p ttm (sorted_captures p))
    ≡ₚ filter (λ m, m ≠ ttm) (generate p CAPTURES).
Proof.
  rewrite <- ext_moves_app.
  rewrite (ext_moves_perm _ _ (goods_bads_perm p ttm (sorted_captures p))).
  rewrite (ext_moves_perm _ (filter (λ x, move x ≠ ttm) (scored_captures p)))
    by (by rewrite sorted_captures_perm).
  unfold scored_captures. by rewrite ext_moves_filter_scored.
Qed.

(** A main-search picker whose side to move is not in check and whose
    calls all pass [skipQuiets = false] loses no move: after the hash move
    it yields, in some order and each as often as it was generated, the
    generated captures and the generated quiet moves that are neither the
    hash move nor a killer nor the counter-move, whatever their scores and
    exchange values; besides them only the playable refutations; the
    none-sentinel follows. *)
Theorem main_search_loses_no_move (p : Position) (ttm : Move) (d : Depth)
    (mh : ButterflyHistory) (cph : CapturePieceToHistory)
    (ch : nat → PieceToHistory) (ph : PawnHistory) (cm k0 k1 : Move) :
  checkers p = false →
  Move_none ∉ generate p CAPTURES →
  Move_none ∉ generate p QUIETS →
  ∃ l,
    l ≡ₚ filter (λ m, m ≠ ttm) (generate p CAPTURES)
         ++ ext_moves (filter (playable p ttm)
                         (ref_range [mkExtMove k0 0; mkExtMove k1 0; mkExtMove cm 0]))
         ++ filter (λ m, m ≠ ttm ∧ m ≠ k0 ∧ m ≠ k1 ∧ m ≠ cm) (generate p QUIETS) ∧
    ∀ n,
      yielded (MovePicker_main p ttm d mh cph ch ph cm k0 k1) (replicate n false)
        = pads n (hash_first p (MainSearch ttm d mh cph ch ph cm k0 k1) ++ l).
Proof.
  intros Hck Hclean Hq.
  exists (main_search_order p ttm d mh ch cm k0 k1 false). split.
  - unfold main_search_order. cbn zeta.
    set (Q := quiets_to_yield p ttm d mh ch cm k0 k1).
    set (R := ext_moves (filter _ (ref_range _))).
    rewrite <- (ext_moves_goods_bads p ttm).
    rewrite <- (ext_moves_quiets_to_yield p ttm d mh ch cm k0 k1). fold Q.
    rewrite <- (take_drop_while (good_quiet d) Q) at 3.
    rewrite ext_moves_app.
    set (G := ext_moves (goods _ _ _)). set (B := ext_moves (bads _ _ _)).
    set (T := ext_moves (take_while _ _)). set (D := ext_moves (drop_while _ _)).
    rewrite <- !app_assoc. apply Permutation_app_head.
    rewrite (Permutation_app_comm B (R ++ T ++ D)).
    rewrite <- !app_assoc. do 2 apply Permutation_app_head.
    apply Permutation_app_comm.
  - intros n.
    rewrite (main_search_run p ttm d mh cph ch ph cm k0 k1 false n Hck Hclean
               (λ _, Hq)).
    unfold main_search_order. cbn zeta.
    rewrite (accepts_any_bads p ttm (sorted_captures p)).
    reflexivity.
Qed.
End nothing_lost.

(** ** The refutations over the whole run *)

Section counting.
Implicit Types (x m : Move) (l k : list Move).

Lemma occurrences_app x l k :
  occurrences x (l ++ k) = (occurrences x l + occurrences x k)%nat.
Proof. unfold occurrences. by rewrite filter_app, length_app. Qed.

Lemma occurrences_nil x : occurrences x [] = 0%nat.
Proof. done. Qed.

Lemma occurrences_cons x m l :
  occurrences x (m :: l)
    = ((if decide (m = x) then 1 else 0) + occurrences x l)%nat.
Proof. unfold occurrences. rewrite filter_cons. by case_decide. Qed.

Lemma occurrences_perm x l k : l ≡ₚ k → occurrences x l = occurrences x k.
Proof. intros Hp. unfold occurrences. by rewrite Hp. Qed.

Lemma occurrences_none x l : x ∉ l → occurrences x l = 0%nat.
Proof. intros Hn. unfold occurrences. by rewrite filter_eq_not_in. Qed.

Lemma occurrences_filter_le x (P : Move → Prop) `{∀ m, Decision (P m)} l :
  (occurrences x (filter P l) ≤ occurrences x l)%nat.
Proof.
  induction l as [|m l IH]; [done|]. rewrite filter_cons.
  case_decide; rewrite !occurrences_cons; lia.
Qed.

Lemma occurrences_take_le x n l : (occurrences x (take n l) ≤ occurrences x l)%nat.
Proof.
  rewrite <- (take_drop n l) at 2. rewrite occurrences_app. lia.
Qed.

Lemma occurrences_replicate x m n : m ≠ x → occurrences x (replicate n m) = 0%nat.
Proof.
  intros Hne. apply occurrences_none. intros Hin.
  apply elem_of_replicate in Hin as [? _]. congruence.
Qed.

Lemma occurrences_pads x n l :
  x ≠ Move_none → (occurrences x (pads n l) ≤ occurrences x l)%nat.
Proof.
  intros Hx. unfold pads.
  etrans; [apply occurrences_take_le|].
  rewrite occurrences_app, occurrences_replicate by done. lia.
Qed.

Lemma occurrences_prefix x l k r : l = k ++ r → (occurrences x k ≤ occurrences x l)%nat.
Proof. intros ->. rewrite occurrences_app. lia. Qed.

Lemma elem_of_stage_moves s m tr : m ∈ stage_moves s tr ↔ (s, m) ∈ tr.
Proof.
  unfold stage_moves. rewrite list_elem_of_fmap. split.
  - intros ([s' m'] & -> & Hin). apply list_elem_of_filter in Hin as [Hs Hin].
    simpl in Hs. by subst.
  - intros Hin. exists (s, m). split; [done|]. by apply list_elem_of_filter.
Qed.

(** A move that only three stages yield is counted stage by stage. *)
Lemma occurrences_by_stage x (tr : list (Stages * Move)) :
  (∀ s m, (s, m) ∈ tr → m = x →
          s = GOOD_CAPTURE ∨ s = REFUTATION ∨ s = BAD_CAPTURE) →
  occurrences x tr.*2
    = (occurrences x (stage_moves GOOD_CAPTURE tr)
       + occurrences x (stage_moves REFUTATION tr)
       + occurrences x (stage_moves BAD_CAPTURE tr))%nat.
Proof.
  induction tr as [|[s m] tr IH]; intros Hst; [done|].
  rewrite fmap_cons, !stage_moves_cons. simpl. rewrite occurrences_cons.
  rewrite IH by (intros s' m' Hin; apply Hst; by right).
  destruct (decide (m = x)) as [->|Hne].
  - destruct (Hst s x ltac:(by left) eq_refl) as [-> | [-> | ->]];
      repeat (case_decide; try done); rewrite occurrences_cons;
      rewrite decide_True by done; lia.
  - repeat case_decide; rewrite ?occurrences_cons, ?decide_False by done; lia.
Qed.

Lemma ext_moves_filter_map (g : Move → Z) tt (l : list Move) :
  ext_moves (filter (λ e : ExtMove, move e ≠ tt) (map (λ m, mkExtMove m (g m)) l))
    = filter (λ m, m ≠ tt) l.
Proof.
  unfold ext_moves. induction l as [|m l IH]; [done|]. simpl.
  destruct (decide (m ≠ tt)).
  - rewrite !filter_cons_True by done. simpl. by rewrite IH.
  - by rewrite !filter_cons_False.
Qed.
End counting.

Section quiet_stages.
Context `{TypesH}.
Implicit Types (mp : MovePicker) (m : Move).

(** What a call owes when it returns from one of the two quiet stages. *)
Local Abbreviation from_quiet m mp' :=
  (stage mp' = GOOD_QUIET ∨ stage mp' = BAD_QUIET →
   m = Move_none ∨ not_a_refutation mp' m).

(** [select] with the test of the quiet stages lets no refutation through. *)
Lemma select_not_refutation mp m mp' :
  select Next not_refutation mp = Some (m, mp') →
  (∃ q, mp' = set_cur q mp) ∧ (m = Move_none ∨ not_a_refutation mp' m).
Proof.
  intros Hsel. unfold select in Hsel.
  apply bind_Some in Hsel as (n & _ & Hsel).
  cut ((∃ q, mp' = set_cur q mp) ∧ (m = Move_none ∨ not_a_refutation mp m)).
  { intros [[q ->] Hm]. split; [by exists q|done]. }
  pattern m, mp'.
  refine (select_loop_rule Next not_refutation (λ _ mp0, ∃ q, mp0 = set_cur q mp)
            _ _ _ n mp m mp' _ Hsel).
  - intros mp0 Hq. split; [done|by left].
  - intros k mp0 mp1 c (q & ->) [= <-] Hc. split.
    + intros _. eexists. reflexivity.
    + intros _ ok mp2 Hf. unfold not_refutation in Hf. rewrite Hc in Hf.
      simpl in Hf.
      destruct (refutations mp !! 0%nat) as [r0|] eqn:H0; [|done].
      destruct (refutations mp !! 1%nat) as [r1|] eqn:H1; [|done].
      destruct (refutations mp !! 2%nat) as [r2|] eqn:H2; [|done].
      simpl in Hf. injection Hf as <- <-.
      destruct (negb (move c =? move r0) && negb (move c =? move r1)
                && negb (move c =? move r2)) eqn:Hok.
      * intros r Hr. rewrite Hc in Hr. injection Hr as <-.
        split; [eexists; reflexivity|]. right.
        apply andb_prop in Hok as [Hok Hc2]. apply andb_prop in Hok as [Hc0 Hc1].
        apply negb_true_iff, Z.eqb_neq in Hc0, Hc1, Hc2.
        by exists r0, r1, r2.
      * eexists. reflexivity.
  - exists (cur mp). by destruct mp.
Qed.

Lemma case_BAD_QUIET_quiet b mp m mp' :
  case_BAD_QUIET b mp = Some (m, mp') → m = Move_none ∨ not_a_refutation mp' m.
Proof.
  unfold case_BAD_QUIET. destruct b; simpl.
  - intros [= <- _]. by left.
  - intros Hsel. by apply select_not_refutation in Hsel as [_ ?].
Qed.

Ltac not_quiet Hq :=
  exfalso; destruct Hq as [Hq|Hq]; congruence.

Lemma case_BAD_CAPTURE_quiet b mp m mp' :
  stage mp = BAD_CAPTURE → case_BAD_CAPTURE b mp = Some (m, mp') → from_quiet m mp'.
Proof.
  intros Hst Hc Hq. unfold case_BAD_CAPTURE in Hc.
  destruct (select Next accept_all mp) as [[m1 mp1]|] eqn:Hsel; [|done].
  simpl in Hc.
  destruct (select_yield _ _ _ _ _ accept_all_mild Hsel) as (_ & Hs & _).
  destruct (is_move m1).
  - apply return_prev_state in Hc as ->. not_quiet Hq.
  - by apply case_BAD_QUIET_quiet in Hc.
Qed.

Lemma to_bad_captures_quiet b mp m mp' :
  stage mp = GOOD_QUIET → to_bad_captures b mp = Some (m, mp') → from_quiet m mp'.
Proof.
  intros Hst Hc. unfold to_bad_captures in Hc.
  eapply case_BAD_CAPTURE_quiet; [|exact Hc]. simpl. by rewrite Hst.
Qed.

Lemma case_GOOD_QUIET_quiet b mp m mp' :
  stage mp = GOOD_QUIET → case_GOOD_QUIET b mp = Some (m, mp') → from_quiet m mp'.
Proof.
  intros Hst Hc. unfold case_GOOD_QUIET in Hc. destruct b; simpl in Hc.
  { by apply (to_bad_captures_quiet true mp m mp'). }
  destruct (select Next not_refutation mp) as [[m1 mp1]|] eqn:Hsel; [|done].
  simpl in Hc.
  destruct (select_yield _ _ _ _ _ not_refutation_mild Hsel) as (_ & Hs & Hy).
  apply select_not_refutation in Hsel as [_ Hm1].
  destruct (is_move m1) eqn:Hm.
  - apply bind_Some in Hc as (q & _ & Hc).
    apply bind_Some in Hc as (e & _ & Hc).
    apply bind_Some in Hc as (d & _ & Hc).
    destruct (_ || _).
    + destruct Hy as [->|[_ Hret]]; [done|].
      rewrite Hret in Hc. injection Hc as <- <-. by intros _.
    + eapply to_bad_captures_quiet; [|exact Hc]. simpl. by rewrite Hs.
  - eapply to_bad_captures_quiet; [|exact Hc]. by rewrite Hs.
Qed.

Lemma case_QUIET_INIT_quiet b mp m mp' :
  stage mp = QUIET_INIT → case_QUIET_INIT b mp = Some (m, mp') → from_quiet m mp'.
Proof.
  intros Hst Hc. unfold case_QUIET_INIT in Hc.
  apply bind_Some in Hc as (mp4 & Hq & Hc).
  assert (stage mp4 = stage mp) as Hs.
  { destruct b; simpl in Hq.
    - by injection Hq as <-.
    - apply bind_Some in Hq as ([e mp1] & Hg & Hq).
      apply bind_Some in Hq as (mp3 & Hsc & Hq).
      apply bind_Some in Hq as (d & _ & Hso).
      apply generate_moves_shape in Hg as (b1 & ->).
      apply score_shape in Hsc as (b2 & ->).
      apply sort_moves_shape in Hso as (b3 & ->). done. }
  eapply case_GOOD_QUIET_quiet; [|exact Hc]. simpl. by rewrite Hs, Hst.
Qed.

Lemma case_REFUTATION_quiet b mp m mp' :
  stage mp = REFUTATION → case_REFUTATION b mp = Some (m, mp') → from_quiet m mp'.
Proof.
  intros Hst Hc. unfold case_REFUTATION in Hc.
  destruct (select Next playable_refutation mp) as [[m1 mp1]|] eqn:Hsel; [|done].
  simpl in Hc.
  destruct (select_yield _ _ _ _ _ playable_refutation_mild Hsel) as (_ & Hs & _).
  destruct (is_move m1).
  - apply return_prev_state in Hc as ->. intros Hq. not_quiet Hq.
  - eapply case_QUIET_INIT_quiet; [|exact Hc]. simpl. by rewrite Hs, Hst.
Qed.

Lemma case_GOOD_CAPTURE_quiet b mp m mp' :
  stage mp = GOOD_CAPTURE → case_GOOD_CAPTURE b mp = Some (m, mp') → from_quiet m mp'.
Proof.
  intros Hst Hc. unfold case_GOOD_CAPTURE in Hc.
  destruct (select Next good_capture mp) as [[m1 mp1]|] eqn:Hsel; [|done].
  simpl in Hc.
  destruct (select_yield _ _ _ _ _ good_capture_mild Hsel) as (_ & Hs & _).
  destruct (is_move m1).
  - apply return_prev_state in Hc as ->. intros Hq. not_quiet Hq.
  - apply bind_Some in Hc as (r0 & _ & Hc).
    apply bind_Some in Hc as (r1 & _ & Hc).
    apply bind_Some in Hc as (r2 & _ & Hc).
    eapply case_REFUTATION_quiet; [|exact Hc]. simpl. by rewrite Hs, Hst.
Qed.

(** One call on the main-search path. *)
Lemma next_move_quiet p tt refs b mp m mp' :
  main_inv p tt refs mp → next_move b mp = Some (m, mp') → from_quiet m mp'.
Proof.
  intros (_ & _ & _ & _ & Hinv) Hn. unfold next_move in Hn. simpl in Hn.
  destruct (stage mp) eqn:Hst; try done.
  - injection Hn as <- <-. intros Hq. simpl in Hq. rewrite Hst in Hq.
    simpl in Hq. not_quiet Hq.
  - apply bind_Some in Hn as (mp1 & Hi & Hn).
    apply capture_init_shape in Hi as (b1 & e1 & ->).
    simpl in Hn. rewrite Hst in Hn. simpl in Hn.
    eapply case_GOOD_CAPTURE_quiet; [|exact Hn]. simpl. by rewrite Hst.
  - by eapply case_GOOD_CAPTURE_quiet.
  - by eapply case_REFUTATION_quiet.
  - by eapply case_GOOD_QUIET_quiet.
  - by eapply case_BAD_CAPTURE_quiet.
  - intros _. by eapply case_BAD_QUIET_quiet.
Qed.

(** Where the moves of a run on the main-search path come from: the hash
    move from the hash-move stage; from the quiet stages no refutation. *)
Lemma main_run_sources p tt refs mp skips s m :
  main_inv p tt refs mp → (s, m) ∈ run mp skips →
  (s = MAIN_TT ∧ m = tt) ∨
  s = GOOD_CAPTURE ∨ s = REFUTATION ∨ s = BAD_CAPTURE ∨
  ((s = GOOD_QUIET ∨ s = BAD_QUIET) ∧
   (m = Move_none ∨ ∀ r, r ∈ refs → m ≠ move r)).
Proof.
  revert mp. induction skips as [|b skips IH]; intros mp Hinv Hin.
  { by apply elem_of_nil in Hin. }
  simpl in Hin.
  destruct (next_move b mp) as [[m1 mp1]|] eqn:Hn; [|by apply elem_of_nil in Hin].
  destruct (next_move_main p tt refs b mp m1 mp1 Hinv Hn) as [Hinv1 Hstep].
  apply elem_of_cons in Hin as [[= -> ->]|Hin]; [|by apply (IH mp1)].
  pose proof (next_move_quiet p tt refs b mp m1 mp1 Hinv Hn) as Hq.
  unfold yield_stage. destruct (is_tt_stage (stage mp)) eqn:Htt.
  - left. destruct Hstep as (-> & _). split; [|done].
    destruct Hinv as (_ & _ & _ & _ & Hinv). by destruct (stage mp).
  - right. unfold main_step in Hstep.
    destruct Hinv1 as (_ & _ & Hr & Hl & _).
    assert (not_a_refutation mp1 m1 → ∀ r, r ∈ refs → m1 ≠ move r) as Hnot.
    { intros (r0 & r1 & r2 & H0 & H1 & H2 & Hn0 & Hn1 & Hn2) r Hin.
      rewrite Hr in H0, H1, H2.
      destruct refs as [|x0 [|x1 [|x2 [|]]]]; try done.
      simpl in H0, H1, H2. injection H0 as ->. injection H1 as ->.
      injection H2 as ->.
      rewrite !elem_of_cons, elem_of_nil in Hin.
      destruct Hin as [->|[->|[->|[]]]]; done. }
    destruct (stage mp1) eqn:Hs1; try done; auto.
    + do 3 right. split; [by left|].
      destruct Hq as [?|?]; [by left|by left|right; by apply Hnot].
    + do 3 right. split; [by right|].
      destruct Hq as [?|?]; [by right|by left|right; by apply Hnot].
Qed.
End quiet_stages.

Section refutation_claim.
Context `{TypesH}.

(** In check the main-search picker walks the evasion path: its whole run. *)
Lemma main_in_check_run p ttm d mh cph ch ph cm k0 k1 :
  checkers p = true →
  ∃ l, l ≡ₚ filter (λ x, move x ≠ ttm) (scored_evasions p mh) ∧
       ∀ skips,
         yielded (MovePicker_main p ttm d mh cph ch ph cm k0 k1) skips
           = pads (length skips)
               (hash_first p (MainSearch ttm d mh cph ch ph cm k0 k1) ++ ext_moves l).
Proof.
  intros Hck.
  set (ev := scored_evasions p mh).
  destruct (evasion_stage_run ttm (length ev) (length ev) ev 0 ltac:(lia) ltac:(lia))
    as (l & Hp & _ & Hrun).
  rewrite slice_all in Hp. exists l. split; [done|].
  apply (yielded_construct p (MainSearch ttm d mh cph ch ph cm k0 k1)).
  intros skips.
  set (mp := set_stage _ _).
  assert (stage mp = EVASION_INIT) as Hst by (simpl; by rewrite Hck).
  rewrite (yielded_same_all mp _ skips
             (λ bb, evasion_init_next bb mp mh Hst eq_refl eq_refl)).
  apply Hrun; simpl; [by rewrite Hck|done|done].
Qed.

(** The hash move comes at most once, in any context. *)
Lemma hash_move_at_most_once p c skips :
  hash_move c ≠ Move_none →
  (occurrences (hash_move c) (yielded (construct p c) skips) ≤ 1)%nat.
Proof.
  intros Hnone. rewrite <- (construct_ttMove p c) in *.
  set (mp := construct p c) in *.
  destruct (is_tt_stage (stage mp)) eqn:Hs.
  - destruct skips as [|b skips]; [rewrite occurrences_nil; lia|].
    assert (next_move b mp = Some (ttMove mp, incr_stage mp)) as Hn.
    { unfold next_move, next_move_from. by destruct (stage mp). }
    unfold yielded. simpl. rewrite Hn. simpl.
    rewrite occurrences_cons, decide_True by done.
    rewrite occurrences_none; [lia|].
    apply (run_never_hash (incr_stage mp) skips); [|done].
    simpl. by destruct (stage mp).
  - rewrite occurrences_none; [lia|]. by apply run_never_hash.
Qed.

(** The playable refutations hold the counter-move once when it equals a
    killer and the killers differ. *)
Lemma playable_refutations_NoDup p ttm cm k0 k1 :
  k0 ≠ k1 → cm = k0 ∨ cm = k1 →
  NoDup (ext_moves (filter (playable p ttm)
                      (ref_range [mkExtMove k0 0; mkExtMove k1 0; mkExtMove cm 0]))).
Proof.
  intros Hk Hcm.
  assert (ref_range [mkExtMove k0 0; mkExtMove k1 0; mkExtMove cm 0]
          = [mkExtMove k0 0; mkExtMove k1 0]) as ->.
  { unfold ref_range, ref_count. simpl.
    destruct Hcm as [->| ->].
    - by rewrite Z.eqb_refl.
    - rewrite Z.eqb_refl. by rewrite orb_true_r. }
  rewrite !filter_cons, filter_nil.
  repeat case_decide; simpl;
    rewrite ?NoDup_cons, ?not_elem_of_cons, ?elem_of_nil, ?NoDup_nil; tauto.
Qed.

(** C4, as amended: in the run of a main-search picker every move the
    refutation stage yields is a killer or the counter-move, differs from
    the hash move and from the none-sentinel, is not capture-class and is
    pseudo-legal; the two quiet stages yield no killer and no counter-move;
    and when the counter-move equals one of the two killers, the two
    killers differ and the counter-move is not the none-sentinel, the whole
    run yields it at most once, the generator that feeds the path emitting
    it at most once (and the capture generator no none-sentinel, and the
    counter-move only if it is capture-class). *)
Theorem refutations_playable_once (p : Position) (ttm : Move) (d : Depth)
    (mh : ButterflyHistory) (cph : CapturePieceToHistory)
    (ch : nat → PieceToHistory) (ph : PawnHistory) (cm k0 k1 : Move)
    (skips : list bool) :
  let c := MainSearch ttm d mh cph ch ph cm k0 k1 in
  let tr := run (construct p c) skips in
  (∀ m, m ∈ stage_moves REFUTATION tr →
        m ∈ [k0; k1; cm] ∧ m ≠ ttm ∧ m ≠ Move_none ∧
        capture_stage p m = false ∧ pseudo_legal p m = true) ∧
  (∀ m, m ∈ stage_moves GOOD_QUIET tr ++ stage_moves BAD_QUIET tr →
        m ≠ Move_none → m ∉ [k0; k1; cm]) ∧
  (k0 ≠ k1 → cm = k0 ∨ cm = k1 → cm ≠ Move_none → emitted_once p cm →
   counter_move_once p c cm skips).
Proof.
  intros c tr.
  set (refs := [mkExtMove k0 0; mkExtMove k1 0; mkExtMove cm 0]).
  destruct (checkers p) eqn:Hck.
  { (* in check the picker walks the evasion path *)
    assert (∀ s m, (s, m) ∈ tr → is_evasion_stage s = true) as Hev.
    { intros s m Hin. apply run_evasion in Hin; [done|]. simpl. rewrite Hck.
      by destruct (negb _). }
    split; [|split].
    - intros m Hm. apply elem_of_stage_moves, Hev in Hm. done.
    - intros m Hm _. apply elem_of_app in Hm as [Hm|Hm];
        apply elem_of_stage_moves, Hev in Hm; done.
    - intros _ _ Hnone Hgen. unfold emitted_once in Hgen. rewrite Hck in Hgen.
      unfold counter_move_once.
      destruct (main_in_check_run p ttm d mh cph ch ph cm k0 k1 Hck)
        as (l & Hl & Hrun).
      change (construct p c) with (MovePicker_main p ttm d mh cph ch ph cm k0 k1).
      rewrite Hrun.
      etrans; [by apply occurrences_pads|].
      rewrite occurrences_app.
      assert (ext_moves l ≡ₚ filter (λ m, m ≠ ttm) (generate p EVASIONS)) as Hl'.
      { rewrite (ext_moves_perm _ _ Hl). unfold scored_evasions.
        by rewrite (ext_moves_filter_map
                      (λ m, if capture p m then evasion_capture_value p m
                            else evasion_quiet_value mh p m)). }
      rewrite (occurrences_perm _ _ _ Hl').
      pose proof (occurrences_filter_le cm (λ m, m ≠ ttm) (generate p EVASIONS)).
      unfold hash_first. destruct (tt_valid _ _); [|rewrite occurrences_nil; lia].
      change (hash_move c) with ttm. rewrite occurrences_cons, occurrences_nil.
      case_decide as Htt; [|lia].
      rewrite (occurrences_none cm (filter _ _)); [lia|].
      intros Hin. apply list_elem_of_filter in Hin as [? _]. simpl in Htt. congruence. }
  pose proof (main_inv_construct p ttm d mh cph ch ph cm k0 k1 Hck) as Hinv.
  fold refs in Hinv.
  change (construct p c) with (MovePicker_main p ttm d mh cph ch ph cm k0 k1) in *.
  destruct (main_run p ttm _ _ skips Hinv) as [[rr Hrr] Hcap].
  fold tr in Hrr, Hcap.
  assert (pending_ref (MovePicker_main p ttm d mh cph ch ph cm k0 k1)
          = filter (playable p ttm) (ref_range refs)) as Hpr.
  { unfold pending_ref. simpl. rewrite Hck.
    by destruct (negb (is_move ttm && pseudo_legal p ttm)). }
  rewrite Hpr in Hrr.
  assert (∀ m, m ∈ stage_moves REFUTATION tr →
               m ∈ [k0; k1; cm] ∧ playable p ttm (mkExtMove m 0)) as Hplay.
  { intros m Hm.
    assert (m ∈ ext_moves (filter (playable p ttm) (ref_range refs))) as Hin.
    { rewrite Hrr. apply elem_of_app. by left. }
    apply list_elem_of_fmap in Hin as (x & -> & Hx).
    apply list_elem_of_filter in Hx as [Hpl Hx].
    assert (x ∈ refs) as Hx'.
    { unfold ref_range in Hx. by apply (subseteq_take (ref_count refs)). }
    unfold refs in Hx'. rewrite !elem_of_cons, elem_of_nil in Hx'.
    rewrite !elem_of_cons. destruct Hx' as [->|[->|[->|[]]]]; simpl; auto. }
  assert (∀ s m, (s, m) ∈ tr → (s = GOOD_QUIET ∨ s = BAD_QUIET) →
                 m ≠ Move_none → m ∉ [k0; k1; cm]) as Hquiet.
  { intros s m Hin Hs Hne.
    destruct (main_run_sources p ttm refs _ skips s m Hinv Hin)
      as [[-> _]|[->|[->|[->|[_ Hno]]]]];
      try (destruct Hs; discriminate).
    destruct Hno as [?|Hno]; [done|].
    rewrite !not_elem_of_cons. repeat split.
    - apply (Hno (mkExtMove k0 0)). unfold refs. repeat constructor.
    - apply (Hno (mkExtMove k1 0)). unfold refs. repeat constructor.
    - apply (Hno (mkExtMove cm 0)). unfold refs. repeat constructor.
    - apply not_elem_of_nil. }
  split; [|split].
  - intros m Hm. destruct (Hplay m Hm) as [Hin Hpl]. split; [done|].
    by apply (playable_facts p ttm (mkExtMove m 0)).
  - intros m Hm. apply elem_of_app in Hm as [Hm|Hm];
      apply elem_of_stage_moves in Hm; eapply Hquiet; eauto.
  - intros Hk Hcm Hnone Hgen. unfold emitted_once in Hgen. rewrite Hck in Hgen.
    destruct Hgen as (Hclean & Honce & Hclass).
    unfold counter_move_once.
    change (construct p c) with (MovePicker_main p ttm d mh cph ch ph cm k0 k1).
    change (yielded (MovePicker_main p ttm d mh cph ch ph cm k0 k1) skips)
      with (tr.*2).
    destruct (decide (cm = ttm)) as [Heq|Hne].
    + (* the counter-move is the hash move *)
      rewrite Heq. apply (hash_move_at_most_once p c skips). simpl. congruence.
    + destruct (Hcap Hclean) as (rg & rb & Hrg & Hrb & _).
      assert (pending_good (MovePicker_main p ttm d mh cph ch ph cm k0 k1)
              = goods p ttm (sorted_captures p)) as Hpg.
      { unfold pending_good. simpl. rewrite Hck.
        by destruct (negb (is_move ttm && pseudo_legal p ttm)). }
      assert (pending_bad (MovePicker_main p ttm d mh cph ch ph cm k0 k1)
              = bads p ttm (sorted_captures p)) as Hpb.
      { unfold pending_bad. simpl. rewrite Hck.
        by destruct (negb (is_move ttm && pseudo_legal p ttm)). }
      rewrite Hpg in Hrg. rewrite Hpb in Hrb.
      rewrite occurrences_by_stage.
      2:{ intros s m Hin ->.
          destruct (main_run_sources p ttm refs _ skips s cm Hinv Hin)
            as [[_ ?]|[->|[->|[->|[Hs _]]]]]; auto.
          - congruence.
          - exfalso. apply (Hquiet s cm Hin Hs Hnone). repeat constructor. }
      set (G := stage_moves GOOD_CAPTURE tr) in *.
      set (R := stage_moves REFUTATION tr) in *.
      set (B := stage_moves BAD_CAPTURE tr) in *.
      assert (occurrences cm R ≤ 1)%nat as HR.
      { etrans; [apply (occurrences_prefix cm _ R rr Hrr)|].
        apply filter_eq_NoDup. by apply playable_refutations_NoDup. }
      assert (occurrences cm G + occurrences cm B
              ≤ occurrences cm (generate p CAPTURES))%nat as HGB.
      { pose proof (occurrences_prefix cm _ G rg Hrg).
        pose proof (occurrences_prefix cm _ B rb Hrb).
        pose proof (occurrences_perm cm _ _ (ext_moves_goods_bads p ttm)) as Hp.
        rewrite occurrences_app in Hp.
        pose proof (occurrences_filter_le cm (λ m, m ≠ ttm) (generate p CAPTURES)).
        lia. }
      destruct (decide (cm ∈ R)) as [HinR|HninR].
      * destruct (Hplay cm HinR) as [_ Hpl].
        apply playable_facts in Hpl as (_ & _ & Hcs & _). simpl in Hcs.
        rewrite (occurrences_none cm (generate p CAPTURES)) in HGB; [lia|].
        intros Hin. apply Hclass in Hin. congruence.
      * rewrite (occurrences_none cm R) by done. lia.
Qed.
End refutation_claim.

(** ** The statements at work on the concrete world *)

Section witnesses.
#[local] Existing Instance sample_types.

(** A whole run: hash move, good capture, killers, good quiet moves, bad
    captures, and the none-sentinel from then on. *)
Example sample_run :
  run (construct (sample_position false) (sample_main 103 201 201 202))
      (repeat false 11)
    = [(MAIN_TT, 103); (GOOD_CAPTURE, 104); (REFUTATION, 201); (REFUTATION, 202);
       (GOOD_QUIET, 204); (GOOD_QUIET, 203);
       (BAD_CAPTURE, 105); (BAD_CAPTURE, 102); (BAD_CAPTURE, 101);
       (BAD_QUIET, 0); (BAD_QUIET, 0)].
Proof. vm_compute. reflexivity. Qed.

(** Quiet moves skipped first and asked for later: [beginBadQuiets] and
    [endBadQuiets] were never set, the call that reaches BAD_QUIET has no
    defined behaviour and the run ends there. *)
Example sample_run_undefined :
  run (construct (sample_position false) (sample_main 103 201 201 202))
      (repeat true 7 ++ repeat false 3)
    = [(MAIN_TT, 103); (GOOD_CAPTURE, 104); (REFUTATION, 201); (REFUTATION, 202);
       (BAD_CAPTURE, 105); (BAD_CAPTURE, 102); (BAD_CAPTURE, 101)].
Proof. vm_compute. reflexivity. Qed.

Lemma initial_stage_rule_witness :
  stage (MovePicker_main (sample_position false) 0 1 sample_mainHistory
           sample_captureHistory sample_contHistory sample_pawnHistory 201 201 202)
    = CAPTURE_INIT ∧
  stage (MovePicker_qsearch (sample_position false) 0 0 sample_mainHistory
           sample_captureHistory sample_contHistory sample_pawnHistory)
    = QCAPTURE_INIT.
Proof.
  apply (initial_stage_rule (sample_position false) 0 1 0 sample_mainHistory
           sample_captureHistory sample_contHistory sample_pawnHistory 201 201 202);
    [lia|lia|by left].
Defined.

Lemma hash_move_first_and_once_witness :
  tt_valid (sample_position false) (sample_main 103 201 201 202) = true ∧
  ∃ mp1,
    next_move false (construct (sample_position false) (sample_main 103 201 201 202))
      = Some (103, mp1) ∧
    (∃ s, is_tt_stage s = true ∧
          run (construct (sample_position false) (sample_main 103 201 201 202))
            (false :: repeat false 12)
          = (s, 103) :: run mp1 (repeat false 12)) ∧
    103 ∉ yielded mp1 (repeat false 12).
Proof.
  split; [reflexivity|].
  apply (hash_move_first_and_once (sample_position false)
           (sample_main 103 201 201 202) false (repeat false 12)).
  reflexivity.
Defined.

Lemma probcut_failing_hash_move_skipped_witness :
  let mp := MovePicker_probcut (sample_position false) 105 0 sample_captureHistory in
  stage mp = PROBCUT_INIT ∧
  (105 ∉ yielded mp (true :: [true; true])) ∧
  ∃ m mp1,
    next_move true mp = Some (m, mp1) ∧
    ((m ∈ generate (sample_position false) CAPTURES ∧
      see_ge (sample_position false) m 0 = true ∧
      ∀ m', m' ∈ generate (sample_position false) CAPTURES →
            see_ge (sample_position false) m' 0 = true →
            capture_value (sample_position false) m'
              <= capture_value (sample_position false) m)
     ∨
     (m = Move_none ∧
      ∀ m', m' ∈ generate (sample_position false) CAPTURES →
            see_ge (sample_position false) m' 0 = false)).
Proof.
  apply (probcut_failing_hash_move_skipped (sample_position false) 105
           sample_captureHistory true [true; true]); [done|reflexivity].
Defined.

Lemma sample_mainHistory_int16 c ft : int16_range (sample_mainHistory c ft).
Proof.
  unfold sample_mainHistory, int16_range.
  pose proof (Z.mod_pos_bound ft 400). lia.
Qed.

Lemma sample_contHistory_int16 i pc sq : int16_range (sample_contHistory i pc sq).
Proof.
  unfold sample_contHistory, int16_range.
  pose proof (Nat.mod_upper_bound i 4). lia.
Qed.

Lemma sample_PieceValueMG_int16 pc : int16_range (PieceValueMG pc).
Proof. unfold int16_range. simpl. pose proof (Z.mod_pos_bound pc 7). lia. Qed.

Lemma sample_type_of_int16 pc : int16_range (type_of pc).
Proof. unfold int16_range. simpl. pose proof (Z.mod_pos_bound pc 7). lia. Qed.

Lemma quiet_score_formula_witness :
  let mp := set_cur (At Moves 0)
              (construct (sample_position false) (sample_main 103 201 201 202)) in
  ∃ e mp1 mp2,
    generate_moves QUIETS mp = Some (e, mp1) ∧
    score QUIETS (set_endMoves e (set_beginBadQuiets e (set_endBadQuiets e mp1)))
      = Some mp2 ∧
    e = At Moves (0 + length (generate (pos mp) QUIETS)) ∧
    slice 0 (0 + length (generate (pos mp) QUIETS)) (moves mp2) =
      map (λ m, mkExtMove m
                  (sample_mainHistory (side_to_move (pos mp)) (from_to m)
                   + sample_contHistory 0%nat (moved_piece (pos mp) m) (to_sq m)
                   + sample_contHistory 1%nat (moved_piece (pos mp) m) (to_sq m)
                   + sample_contHistory 3%nat (moved_piece (pos mp) m) (to_sq m)))
          (generate (pos mp) QUIETS) ∧
    ∀ m, quiet_value sample_mainHistory sample_contHistory' (pos mp) m
         = quiet_value sample_mainHistory sample_contHistory (pos mp) m.
Proof.
  apply (quiet_score_formula
           (set_cur (At Moves 0)
              (construct (sample_position false) (sample_main 103 201 201 202)))
           sample_mainHistory sample_contHistory sample_contHistory' 0).
  - reflexivity.
  - reflexivity.
  - apply sample_mainHistory_int16.
  - apply sample_contHistory_int16.
  - intros i Hi. unfold sample_contHistory'. by rewrite decide_False.
  - reflexivity.
  - simpl. lia.
Defined.
Lemma evasion_capture_outranks_quiet_witness :
  let mp := construct (sample_position true) (sample_main 103 201 201 202) in
  let n := length (generate (pos mp) EVASIONS) in
  ∃ e mp1 mp2,
    generate_moves EVASIONS (set_cur (At Moves 0) mp) = Some (e, mp1) ∧
    score EVASIONS (set_endMoves e mp1) = Some mp2 ∧
    e = At Moves n ∧
    ext_moves (slice 0 n (moves mp2)) = generate (pos mp) EVASIONS ∧
    (∀ y, y ∈ slice 0 n (moves mp2) → capture (pos mp) (move y) = false →
          value y = sample_mainHistory (side_to_move (pos mp)) (from_to (move y)) - 2 ^ 28) ∧
    (∀ x y, x ∈ slice 0 n (moves mp2) → y ∈ slice 0 n (moves mp2) →
            capture (pos mp) (move x) = true →
            capture (pos mp) (move y) = false →
            value y < value x).
Proof.
  apply (evasion_capture_outranks_quiet
           (construct (sample_position true) (sample_main 103 201 201 202))
           sample_mainHistory).
  - reflexivity.
  - apply sample_mainHistory_int16.
  - apply sample_PieceValueMG_int16.
  - apply sample_type_of_int16.
Defined.

Lemma sample_captures_clean : Move_none ∉ generate (sample_position false) CAPTURES.
Proof. simpl. rewrite !not_elem_of_cons, elem_of_nil. unfold Move_none. lia. Qed.



(** C4, as stated, fails: when both killers and the counter-move are the
    same playable quiet move 201, the run yields it twice, both times from
    the refutation stage. *)
Lemma counter_move_yielded_twice :
  ¬ ((201 = 201 ∨ 201 = 201) →
     counter_move_once (sample_position false) (sample_main 103 201 201 201) 201
       (repeat false 5)).
Proof.
  intros Hc. specialize (Hc (or_introl eq_refl)).
  unfold counter_move_once in Hc. vm_compute in Hc. lia.
Qed.

(** A killer that is the hash move is still yielded, by the hash-move
    stage: what C4 excludes is its coming out of the refutation stage. *)
Lemma killer_yielded_as_hash_move :
  run (construct (sample_position false) (sample_main 201 202 201 202))
      (repeat false 4)
    = [(MAIN_TT, 201); (GOOD_CAPTURE, 103); (GOOD_CAPTURE, 104); (REFUTATION, 202)].
Proof. vm_compute. reflexivity. Qed.

(** A killer that is capture-class, here 104, is still yielded when the
    capture generator emits it, by a capture stage; the refutation stage
    passes it over. *)
Example killer_yielded_as_capture :
  run (construct (sample_position false) (sample_main 103 201 104 202))
      (repeat false 6)
    = [(MAIN_TT, 103); (GOOD_CAPTURE, 104); (REFUTATION, 202); (REFUTATION, 201);
       (GOOD_QUIET, 204); (GOOD_QUIET, 203)].
Proof. vm_compute. reflexivity. Qed.

(** A counter-move and killer that is the none-sentinel is no move: what
    comes back more than once is the sentinel that ends the run. *)
Example none_counter_move_is_the_sentinel :
  yielded (construct (sample_position false) (sample_main 103 0 0 202))
          (repeat false 12)
    = [103; 104; 202; 204; 203; 201; 105; 102; 101; 0; 0; 0].
Proof. vm_compute. reflexivity. Qed.

Lemma sample_emitted_once : emitted_once (sample_position false) 201.
Proof.
  unfold emitted_once. simpl. split; [|split].
  - rewrite !not_elem_of_cons, elem_of_nil. unfold Move_none. lia.
  - vm_compute. lia.
  - rewrite !elem_of_cons, elem_of_nil. lia.
Qed.

Lemma refutations_playable_once_witness :
  let c := sample_main 103 201 201 202 in
  let tr := run (construct (sample_position false) c) (repeat false 12) in
  (∀ m, m ∈ stage_moves REFUTATION tr →
        m ∈ [201; 202; 201] ∧ m ≠ 103 ∧ m ≠ Move_none ∧
        capture_stage (sample_position false) m = false ∧
        pseudo_legal (sample_position false) m = true) ∧
  (∀ m, m ∈ stage_moves GOOD_QUIET tr ++ stage_moves BAD_QUIET tr →
        m ≠ Move_none → m ∉ [201; 202; 201]) ∧
  counter_move_once (sample_position false) c 201 (repeat false 12).
Proof.
  destruct (refutations_playable_once (sample_position false) 103 1
              sample_mainHistory sample_captureHistory sample_contHistory
              sample_pawnHistory 201 201 202 (repeat false 12))
    as (Hplay & Hquiet & Honce).
  split; [exact Hplay|]. split; [exact Hquiet|].
  apply Honce; [lia|by left|unfold Move_none; lia|apply sample_emitted_once].
Defined.

Lemma captures_all_yielded_witness :
  let tr := run (MovePicker_main (sample_position false) 103 1 sample_mainHistory
                   sample_captureHistory sample_contHistory sample_pawnHistory
                   201 201 202) (repeat false 12) in
  stage_moves GOOD_CAPTURE tr
    = ext_moves (goods (sample_position false) 103
                   (sorted_captures (sample_position false))) ∧
  stage_moves BAD_CAPTURE tr
    = ext_moves (bads (sample_position false) 103
                   (sorted_captures (sample_position false))) ∧
  stage_moves GOOD_CAPTURE tr ++ stage_moves BAD_CAPTURE tr
    ≡ₚ filter (λ m, m ≠ 103) (generate (sample_position false) CAPTURES).
Proof.
  apply (captures_all_yielded (sample_position false) 103 1 sample_mainHistory
           sample_captureHistory sample_contHistory sample_pawnHistory 201 201 202
           (repeat false 12)).
  - reflexivity.
  - apply sample_captures_clean.
  - apply (list_elem_of_lookup_2 _ 9%nat). vm_compute. reflexivity.
Defined.

(** The later statements, on the same world. *)

Lemma partial_insertion_sort_stable_witness :
  filter (λ e, value e = 3)
    (partial_insertion_sort
       [mkExtMove 1 3; mkExtMove 2 5; mkExtMove 3 1; mkExtMove 4 3] 2)
  = filter (λ e, value e = 3)
      [mkExtMove 1 3; mkExtMove 2 5; mkExtMove 3 1; mkExtMove 4 3].
Proof. apply partial_insertion_sort_stable. lia. Defined.

Lemma partial_insertion_sort_sorts_all_witness :
  StronglySorted ge_value
    (partial_insertion_sort [mkExtMove 1 3; mkExtMove 2 5; mkExtMove 3 1] INT_MIN) ∧
  partial_insertion_sort [mkExtMove 1 3; mkExtMove 2 5; mkExtMove 3 1] INT_MIN
    ≡ₚ [mkExtMove 1 3; mkExtMove 2 5; mkExtMove 3 1].
Proof.
  apply partial_insertion_sort_sorts_all.
  repeat (constructor; [unfold meets, INT_MIN; simpl; lia|]). constructor.
Defined.

Lemma partial_insertion_sort_keeps_ordered_witness :
  partial_insertion_sort
    ([mkExtMove 2 5; mkExtMove 1 3] ++ [mkExtMove 3 1; mkExtMove 4 0]) 2
  = [mkExtMove 2 5; mkExtMove 1 3] ++ [mkExtMove 3 1; mkExtMove 4 0].
Proof.
  apply partial_insertion_sort_keeps_ordered.
  - repeat (constructor; [repeat constructor; unfold ge_value; simpl; lia|]).
    constructor.
  - repeat (constructor; [unfold meets; simpl; lia|]). constructor.
  - repeat (constructor; [simpl; lia|]). constructor.
Defined.

Lemma skip_quiets_ignored_off_main_path_witness :
  run (construct (sample_position true) (sample_main 101 201 201 202))
      [true; false; true]
  = run (construct (sample_position true) (sample_main 101 201 201 202))
      [false; false; false].
Proof.
  apply skip_quiets_ignored_off_main_path; [by left|reflexivity].
Defined.

(** A probing run: the hash move 102 fails the threshold and is left out
    for good. *)
Example sample_probcut_run :
  yielded (MovePicker_probcut (sample_position false) 102 30 sample_captureHistory)
          (repeat false 5)
    = [103; 104; 0; 0; 0].
Proof. vm_compute. reflexivity. Qed.

Lemma qsearch_yields_witness :
  yielded (MovePicker_qsearch (sample_position false) 103 0 sample_mainHistory
             sample_captureHistory sample_contHistory sample_pawnHistory)
          (repeat false 8)
    = [103; 105; 102; 104; 101; 203; 0; 0].
Proof.
  rewrite (qsearch_yields (sample_position false) 103 0 sample_mainHistory
             sample_captureHistory sample_contHistory sample_pawnHistory
             (repeat false 8) eq_refl sample_captures_clean).
  vm_compute. reflexivity.
Defined.

Lemma evasion_yields_witness :
  ∃ l, l ≡ₚ filter (λ x, move x ≠ 101)
              (scored_evasions (sample_position true) sample_mainHistory) ∧
       StronglySorted ge_value l ∧
       ∀ skips,
         yielded (MovePicker_main (sample_position true) 101 1 sample_mainHistory
                    sample_captureHistory sample_contHistory sample_pawnHistory
                    201 201 202) skips
           = pads (length skips)
               (hash_first (sample_position true) (sample_main 101 201 201 202)
                ++ ext_moves l) ∧
         yielded (MovePicker_qsearch (sample_position true) 101 0 sample_mainHistory
                    sample_captureHistory sample_contHistory sample_pawnHistory) skips
           = pads (length skips)
               (hash_first (sample_position true)
                  (QSearch 101 0 sample_mainHistory sample_captureHistory
                     sample_contHistory sample_pawnHistory)
                ++ ext_moves l).
Proof.
  apply (evasion_yields (sample_position true) 101 1 0 sample_mainHistory
           sample_captureHistory sample_contHistory sample_pawnHistory 201 201 202).
  reflexivity.
Defined.

(** A run in check: the hash move, the capture, the quiet evasion. *)
Example sample_evasion_run :
  yielded (MovePicker_main (sample_position true) 101 1 sample_mainHistory
             sample_captureHistory sample_contHistory sample_pawnHistory 201 201 202)
          (repeat false 5)
    = [101; 102; 201; 0; 0].
Proof. vm_compute. reflexivity. Qed.

Lemma sample_quiets_clean : Move_none ∉ generate (sample_position false) QUIETS.
Proof.
  simpl. unfold Move_none.
  rewrite !not_elem_of_cons. repeat (split; [done|]). apply not_elem_of_nil.
Qed.


Lemma shallow_depth_no_bad_quiets_witness :
  yielded (MovePicker_main (sample_position false) 103 2 sample_mainHistory
             sample_captureHistory sample_contHistory sample_pawnHistory 201 201 202)
          (replicate 11 false)
    = [103; 104; 201; 202; 204; 203; 105; 102; 101; 0; 0].
Proof.
  rewrite (shallow_depth_no_bad_quiets (sample_position false) 103 2
             sample_mainHistory sample_captureHistory sample_contHistory
             sample_pawnHistory 201 201 202 11 ltac:(lia) eq_refl
             sample_captures_clean sample_quiets_clean).
  vm_compute. reflexivity.
Defined.

Lemma select_returns_first_accepted_witness :
  let mp := set_endMoves (At Refutations 3)
              (set_cur (At Refutations 1)
                 (construct (sample_position false) (sample_main 103 201 201 202))) in
  ∃ m mp',
    select Next accept_all mp = Some (m, mp') ∧
    ((∃ k c, (1 ≤ k < 3)%nat ∧ region_of mp Refutations !! k = Some c ∧
             accepts (ttMove mp) any_test c ∧
             (∀ k' c', (1 ≤ k' < k)%nat →
                       region_of mp Refutations !! k' = Some c' →
                       ¬ accepts (ttMove mp) any_test c') ∧
             m = move c ∧ mp' = set_cur (At Refutations (S k)) mp ∧
             return_prev mp' = Some (m, mp'))
     ∨
     ((∀ k c, (1 ≤ k < 3)%nat → region_of mp Refutations !! k = Some c →
              ¬ accepts (ttMove mp) any_test c) ∧
      m = Move_none ∧ mp' = set_cur (At Refutations 3) mp)).
Proof.
  apply (select_returns_first_accepted accept_all any_test
           (set_endMoves (At Refutations 3)
              (set_cur (At Refutations 1)
                 (construct (sample_position false) (sample_main 103 201 201 202))))
           Refutations 1 3).
  - intros k c Hc. reflexivity.
  - reflexivity.
  - reflexivity.
  - simpl. lia.
Defined.

Lemma sample_relative_rank_int16 c m : int16_range (relative_rank c (to_sq m)).
Proof.
  unfold int16_range. simpl.
  pose proof (Z.mod_pos_bound m 64 ltac:(lia)).
  pose proof (Z.div_pos (m mod 64) 8 ltac:(lia) ltac:(lia)).
  pose proof (Z.div_lt_upper_bound (m mod 64) 8 8 ltac:(lia) ltac:(lia)).
  lia.
Qed.

Lemma capture_init_leaves_sorted_captures_witness :
  let mp := construct (sample_position false) (sample_main 103 201 201 202) in
  ∃ mp',
    capture_init mp = Some mp' ∧
    stage mp' = stage_succ (stage mp) ∧
    cur mp' = At Moves 0 ∧ endBadCaptures mp' = At Moves 0 ∧
    endMoves mp' = At Moves (length (generate (pos mp) CAPTURES)) ∧
    StronglySorted ge_value (moves mp') ∧
    moves mp' ≡ₚ
      map (λ m, mkExtMove m
                  (PieceValueMG (piece_on (pos mp) (to_sq m))
                   - 200 * relative_rank (side_to_move (pos mp)) (to_sq m)))
          (generate (pos mp) CAPTURES).
Proof.
  apply (capture_init_leaves_sorted_captures
           (construct (sample_position false) (sample_main 103 201 201 202))).
  - apply sample_PieceValueMG_int16.
  - apply sample_relative_rank_int16.
  - reflexivity.
Defined.

(** The flag taken back: the fifth call passes QUIET_INIT with the quiet
    moves skipped, so the quiet pointers stay unset; the calls that follow
    ask for quiet moves again, and the one that reaches BAD_QUIET compares
    those pointers and is undefined.  Eight calls, seven results. *)
Example sample_skip_taken_back :
  run (construct (sample_position false) (sample_main 103 201 201 202))
      [true; true; true; true; true; false; false; false]
    = [(MAIN_TT, 103); (GOOD_CAPTURE, 104); (REFUTATION, 201); (REFUTATION, 202);
       (BAD_CAPTURE, 105); (BAD_CAPTURE, 102); (BAD_CAPTURE, 101)].
Proof. vm_compute. reflexivity. Qed.

Lemma main_search_loses_no_move_witness :
  ∃ l,
    l ≡ₚ filter (λ m, m ≠ 103) (generate (sample_position false) CAPTURES)
         ++ ext_moves (filter (playable (sample_position false) 103)
                         (ref_range [mkExtMove 201 0; mkExtMove 202 0; mkExtMove 201 0]))
         ++ filter (λ m, m ≠ 103 ∧ m ≠ 201 ∧ m ≠ 202 ∧ m ≠ 201)
              (generate (sample_position false) QUIETS) ∧
    ∀ n,
      yielded (MovePicker_main (sample_position false) 103 1 sample_mainHistory
                 sample_captureHistory sample_contHistory sample_pawnHistory
                 201 201 202) (replicate n false)
        = pads n (hash_first (sample_position false) (sample_main 103 201 201 202)
                  ++ l).
Proof.
  apply (main_search_loses_no_move (sample_position false) 103 1 sample_mainHistory
           sample_captureHistory sample_contHistory sample_pawnHistory 201 201 202).
  - reflexivity.
  - apply sample_captures_clean.
  - apply sample_quiets_clean.
Defined.
End witnesses.
